(** * Comb allocators: a shallow embedding and its properties

    The development follows the Comb module of HiveEngine: the linear,
    stack, pool, slab and buddy allocators and the Vulkan device-memory
    sub-allocator.  [size_t], [uintptr_t] and [VkDeviceSize] are 64-bit
    unsigned integers; they are modelled as [Z] with the wrap-around of
    every arithmetic operation written out ([wrap]).  A failed
    [hive::Assert] ends the operation ([AssertFailed]). *)

From Stdlib Require Import String.
From Stdlib Require Import ZArith Lia.
From stdpp Require Import base numbers list sorting.

Local Open Scope Z_scope.

(** ** Machine words *)

Definition word_bits : Z := 64.
Definition word_modulus : Z := 2 ^ word_bits.
Definition SIZE_MAX : Z := word_modulus - 1.

(** Reduction of a mathematical integer to its 64-bit representative. *)
Definition wrap (z : Z) : Z := z mod word_modulus.

Definition in_word (z : Z) : Prop := 0 <= z < word_modulus.

(** ** Outcome of an operation that may trip an assertion *)

Inductive outcome (A : Type) : Type :=
| Done (a : A)
| AssertFailed (msg : string).
Arguments Done {A} a.
Arguments AssertFailed {A} msg.

(** Modelled from the spec: [hive::Assert(cond, msg)] is declared outside
    the sources at hand; a programming error is surfaced by the assertion
    and the operation does not continue. *)
Definition hive_Assert {A : Type} (cond : bool) (msg : string)
    (k : outcome A) : outcome A :=
  if cond then k else AssertFailed msg.

Notation "'ASSERT' c 'MSG' m ;; k" := (hive_Assert c m k)
  (at level 10, c at level 0, m at level 0, k at level 200).

(** ** Bit utilities (comb/utils.h) *)

(** Modelled from the spec: [IsPowerOfTwo] of comb/utils.h, the usual
    [x != 0 && (x & (x - 1)) == 0]. *)
Definition IsPowerOfTwo (x : Z) : bool :=
  negb (x =? 0) && (Z.land x (wrap (x - 1)) =? 0).

(** Modelled from the spec: [AlignUp] of comb/utils.h, the usual
    [(value + alignment - 1) & ~(alignment - 1)] on 64-bit words. *)
Definition AlignUp (value alignment : Z) : Z :=
  Z.land (wrap (value + wrap (alignment - 1)))
         (wrap (Z.lnot (wrap (alignment - 1)))).

(** Modelled from the spec: [NextPowerOfTwo] of comb/utils.h, the least
    power of two that is no smaller than the argument, as a 64-bit word
    (an argument above 2^63 wraps to 0). *)
Definition NextPowerOfTwo (n : Z) : Z := wrap (2 ^ Z.log2_up n).

(** The mathematical align-up the specification speaks of: the least
    multiple of [a] that is no smaller than [x]. *)
Definition align_up (x a : Z) : Z := x + (- x) mod a.

(** ** Linear allocator (comb/linear_allocator.cpp) *)

Module Linear.

Record state : Type := mk {
  base_ : Z;       (* start of the arena *)
  current_ : Z;    (* current allocation position *)
  capacity_ : Z    (* total capacity in bytes *)
}.

(** The constructor; [pages] is the address answered by the page provider
    [AllocatePages(capacity)] of comb/platform.h. *)
Definition LinearAllocator (pages capacity : Z) : outcome state :=
  ASSERT (negb (pages =? 0)) MSG "Failed to allocate memory for LinearAllocator" ;;
  Done {| base_ := pages; current_ := pages; capacity_ := capacity |}.

(** The state a moved-from allocator is left in. *)
Definition moved_from : state := {| base_ := 0; current_ := 0; capacity_ := 0 |}.

(** The bump itself, after the argument checks. *)
Definition Allocate_body (st : state) (size alignment : Z) : state * Z :=
  let current_addr := current_ st in
  let aligned_addr := AlignUp current_addr alignment in
  let padding := wrap (aligned_addr - current_addr) in
  let required := wrap (padding + size) in
  let used := wrap (current_addr - base_ st) in
  let remaining := wrap (capacity_ st - used) in
  if remaining <? required then (st, 0)
  else ({| base_ := base_ st;
           current_ := wrap (aligned_addr + size);
           capacity_ := capacity_ st |}, aligned_addr).

Definition Allocate (st : state) (size alignment : Z) : outcome (state * Z) :=
  ASSERT (IsPowerOfTwo alignment) MSG "Alignment must be a power of 2" ;;
  ASSERT (0 <? size) MSG "Cannot allocate 0 bytes" ;;
  Done (Allocate_body st size alignment).

Definition Deallocate (st : state) (ptr : Z) : state := st.

Definition Reset (st : state) : state :=
  {| base_ := base_ st; current_ := base_ st; capacity_ := capacity_ st |}.

Definition GetMarker (st : state) : Z := current_ st.

Definition ResetToMarker (st : state) (marker : Z) : outcome state :=
  let marker_addr := marker in
  let base_addr := base_ st in
  let end_addr := wrap (base_addr + capacity_ st) in
  ASSERT ((base_addr <=? marker_addr) && (marker_addr <=? end_addr))
    MSG "Marker is outside allocator memory range" ;;
  Done {| base_ := base_ st; current_ := marker; capacity_ := capacity_ st |}.

Definition GetUsedMemory (st : state) : Z := wrap (current_ st - base_ st).
Definition GetTotalMemory (st : state) : Z := capacity_ st.

(** The cursor lies inside the arena, and the arena inside the address
    space. *)
Definition inv (st : state) : Prop :=
  0 <= base_ st /\ 0 <= capacity_ st /\
  base_ st <= current_ st <= base_ st + capacity_ st /\
  base_ st + capacity_ st < word_modulus.

(** The states an allocator goes through.  The page provider answers the
    constructor with a region that lies inside the address space. *)
Inductive reachable : state -> Prop :=
| reach_new pages capacity st :
    0 < pages -> 0 <= capacity -> pages + capacity < word_modulus ->
    LinearAllocator pages capacity = Done st -> reachable st
| reach_moved_from : reachable moved_from
| reach_Allocate st size alignment st' p :
    reachable st -> in_word size -> in_word alignment ->
    Allocate st size alignment = Done (st', p) -> reachable st'
| reach_Deallocate st ptr : reachable st -> reachable (Deallocate st ptr)
| reach_Reset st : reachable st -> reachable (Reset st)
| reach_ResetToMarker st marker st' :
    reachable st -> in_word marker ->
    ResetToMarker st marker = Done st' -> reachable st'.

(** The algorithm of the specification, over mathematical integers:
    the new cursor and the address handed out ([None] for null). *)
Definition spec_Allocate (st : state) (size align : Z) : Z * option Z :=
  let aligned := align_up (current_ st) align in
  if base_ st + capacity_ st <? aligned + size
  then (current_ st, None)
  else (aligned + size, Some aligned).

End Linear.

(** ** Stack allocator (comb/stack_allocator.h) *)

Module Stack.

Record state : Type := mk {
  memory_block_ : Z;   (* base memory block *)
  capacity_ : Z;       (* total capacity in bytes *)
  current_ : Z         (* current allocation offset *)
}.

Definition StackAllocator (pages capacity : Z) : outcome state :=
  ASSERT (0 <? capacity) MSG "Stack capacity must be > 0" ;;
  ASSERT (negb (pages =? 0)) MSG "Failed to allocate stack memory" ;;
  Done {| memory_block_ := pages; capacity_ := capacity; current_ := 0 |}.

Definition moved_from : state :=
  {| memory_block_ := 0; capacity_ := 0; current_ := 0 |}.

Definition Allocate_body (st : state) (size alignment : Z) : state * Z :=
  let current_addr := wrap (memory_block_ st + current_ st) in
  let aligned_addr := AlignUp current_addr alignment in
  let aligned_current := wrap (aligned_addr - memory_block_ st) in
  let padding := wrap (aligned_current - current_ st) in
  let required := wrap (padding + size) in
  let remaining := wrap (capacity_ st - current_ st) in
  if remaining <? required then (st, 0)
  else ({| memory_block_ := memory_block_ st;
           capacity_ := capacity_ st;
           current_ := wrap (aligned_current + size) |}, aligned_addr).

Definition Allocate (st : state) (size alignment : Z) : outcome (state * Z) :=
  ASSERT (0 <? size) MSG "Cannot allocate 0 bytes" ;;
  ASSERT (IsPowerOfTwo alignment) MSG "Alignment must be power of 2" ;;
  Done (Allocate_body st size alignment).

Definition Deallocate (st : state) (ptr : Z) : state := st.

Definition GetMarker (st : state) : Z := current_ st.

Definition FreeToMarker (st : state) (marker : Z) : outcome state :=
  ASSERT (marker <=? current_ st) MSG "Invalid marker (beyond current position)" ;;
  ASSERT (marker <=? capacity_ st) MSG "Invalid marker (beyond capacity)" ;;
  Done {| memory_block_ := memory_block_ st;
          capacity_ := capacity_ st;
          current_ := marker |}.

Definition Reset (st : state) : state :=
  {| memory_block_ := memory_block_ st; capacity_ := capacity_ st; current_ := 0 |}.

Definition GetUsedMemory (st : state) : Z := current_ st.
Definition GetTotalMemory (st : state) : Z := capacity_ st.
Definition GetFreeMemory (st : state) : Z := wrap (capacity_ st - current_ st).

Definition inv (st : state) : Prop :=
  0 <= memory_block_ st /\ 0 <= current_ st <= capacity_ st /\
  memory_block_ st + capacity_ st < word_modulus.

Inductive reachable : state -> Prop :=
| reach_new pages capacity st :
    0 < pages -> 0 <= capacity -> pages + capacity < word_modulus ->
    StackAllocator pages capacity = Done st -> reachable st
| reach_moved_from : reachable moved_from
| reach_Allocate st size alignment st' p :
    reachable st -> in_word size -> in_word alignment ->
    Allocate st size alignment = Done (st', p) -> reachable st'
| reach_Deallocate st ptr : reachable st -> reachable (Deallocate st ptr)
| reach_Reset st : reachable st -> reachable (Reset st)
| reach_FreeToMarker st marker st' :
    reachable st -> in_word marker ->
    FreeToMarker st marker = Done st' -> reachable st'.

Definition spec_Allocate (st : state) (size align : Z) : Z * option Z :=
  let aligned := align_up (memory_block_ st + current_ st) align in
  if memory_block_ st + capacity_ st <? aligned + size
  then (current_ st, None)
  else (aligned + size - memory_block_ st, Some aligned).

End Stack.

(** ** Raw memory of an allocator

    The pool and the slabs thread their free lists through the slots they
    own: the first word of a free slot holds the address of the next free
    slot.  [heap] gives the word stored at an address. *)

Definition heap : Type := Z -> Z.

Definition store (addr value : Z) (h : heap) : heap :=
  fun a => if a =? addr then value else h a.

Definition sizeof_pointer : Z := 8.

(** Modelled from the spec: [alignof(std::max_align_t)] comes from the
    platform headers; it is 16 on the 64-bit targets of the engine. *)
Definition alignof_max_align_t : Z := 16.

(** ** Pool allocator (comb/pool_allocator.h) *)

Module Pool.

(** The template parameter [T], as far as the pool looks at it. *)
Record elem : Type := mkElem { sizeof_T : Z; alignof_T : Z }.

Record state : Type := mk {
  memory_block_ : Z;     (* pre-allocated memory block *)
  free_list_head_ : Z;   (* head of the free list, 0 for nullptr *)
  capacity_ : Z;         (* total number of objects *)
  used_count_ : Z;       (* number of objects currently allocated *)
  total_size_ : Z;       (* total size in bytes *)
  mem : heap             (* the words of the block *)
}.

Definition slot_size (T : elem) : Z :=
  if sizeof_pointer <? sizeof_T T then sizeof_T T else sizeof_pointer.

(** The loop of [Reset]: [n] times, link [current] to the next slot. *)
Fixpoint Reset_loop (slot : Z) (n : nat) (current : Z) (h : heap) : Z * heap :=
  match n with
  | O => (current, h)
  | S n' =>
      let next := wrap (current + slot) in
      Reset_loop slot n' next (store current next h)
  end.

Definition Reset (T : elem) (st : state) : state :=
  let current := memory_block_ st in
  let '(last, h) :=
    Reset_loop (slot_size T) (Z.to_nat (wrap (capacity_ st - 1))) current (mem st) in
  {| memory_block_ := memory_block_ st;
     free_list_head_ := current;
     capacity_ := capacity_ st;
     used_count_ := 0;
     total_size_ := total_size_ st;
     mem := store last 0 h |}.

(** The constructor; [pages] is the answer of [AllocatePages(total_size_)]
    and [h] the content of the fresh pages. *)
Definition PoolAllocator (T : elem) (pages : Z) (h : heap) (capacity : Z)
  : outcome state :=
  ASSERT (0 <? capacity) MSG "Pool capacity must be > 0" ;;
  ASSERT (negb (pages =? 0)) MSG "Failed to allocate pool memory" ;;
  Done (Reset T {| memory_block_ := pages;
                   free_list_head_ := 0;
                   capacity_ := capacity;
                   used_count_ := 0;
                   total_size_ := wrap (capacity * slot_size T);
                   mem := h |}).

Definition Allocate (T : elem) (st : state) (size alignment : Z)
  : outcome (state * Z) :=
  ASSERT (size <=? sizeof_T T) MSG "PoolAllocator can only allocate sizeof(T) bytes" ;;
  ASSERT (alignment <=? alignof_T T) MSG "PoolAllocator alignment limited to alignof(T)" ;;
  if free_list_head_ st =? 0 then Done (st, 0)
  else
    let ptr := free_list_head_ st in
    Done ({| memory_block_ := memory_block_ st;
             free_list_head_ := mem st (free_list_head_ st);
             capacity_ := capacity_ st;
             used_count_ := wrap (used_count_ st + 1);
             total_size_ := total_size_ st;
             mem := mem st |}, ptr).

Definition Deallocate (st : state) (ptr : Z) : outcome state :=
  if ptr =? 0 then Done st
  else
    ASSERT (0 <? used_count_ st) MSG "Deallocate called more times than Allocate" ;;
    Done {| memory_block_ := memory_block_ st;
            free_list_head_ := ptr;
            capacity_ := capacity_ st;
            used_count_ := wrap (used_count_ st - 1);
            total_size_ := total_size_ st;
            mem := store ptr (free_list_head_ st) (mem st) |}.

Definition GetUsedMemory (T : elem) (st : state) : Z :=
  wrap (used_count_ st * sizeof_T T).
Definition GetTotalMemory (T : elem) (st : state) : Z :=
  wrap (capacity_ st * sizeof_T T).
Definition GetCapacity (st : state) : Z := capacity_ st.
Definition GetUsedCount (st : state) : Z := used_count_ st.
Definition GetFreeCount (st : state) : Z := wrap (capacity_ st - used_count_ st).

(** [chain h head l]: following the links of [h] from [head] visits the
    slots of [l], in this order, and ends at nullptr. *)
Fixpoint chain (h : heap) (head : Z) (l : list Z) : Prop :=
  match l with
  | [] => head = 0
  | a :: l' => head = a /\ a <> 0 /\ chain h (h a) l'
  end.

(** The slots of a block, in address order. *)
Fixpoint slots (slot cur : Z) (m : nat) : list Z :=
  match m with
  | O => []
  | S m' => cur :: slots slot (cur + slot) m'
  end.

(** Exactly [used_count_] slots are live, the others are on the free
    list. *)
Definition inv (st : state) (live : list Z) : Prop :=
  exists fl,
    chain (mem st) (free_list_head_ st) fl /\
    NoDup (fl ++ live) /\
    used_count_ st = Z.of_nat (length live) /\
    Z.of_nat (length fl) + used_count_ st = capacity_ st /\
    capacity_ st < word_modulus /\
    0 ∉ live.

(** The states a pool goes through, together with the slots handed out
    and not yet returned.  [Deallocate] is called on such a slot (caller
    contract of pool_allocator.h) or on nullptr. *)
Inductive reachable (T : elem) : state -> list Z -> Prop :=
| reach_new pages h capacity st :
    0 < pages -> 0 < slot_size T ->
    pages + capacity * slot_size T < word_modulus ->
    PoolAllocator T pages h capacity = Done st ->
    reachable T st []
| reach_Allocate st live size alignment st' p :
    reachable T st live ->
    Allocate T st size alignment = Done (st', p) -> p <> 0 ->
    reachable T st' (p :: live)
| reach_Allocate_null st live size alignment st' :
    reachable T st live ->
    Allocate T st size alignment = Done (st', 0) ->
    reachable T st' live
| reach_Deallocate st live p st' :
    reachable T st live -> p ∈ live ->
    Deallocate st p = Done st' ->
    reachable T st' (filter (λ q, q ≠ p) live)
| reach_Deallocate_null st live st' :
    reachable T st live ->
    Deallocate st 0 = Done st' ->
    reachable T st' live.

End Pool.

(** ** Slab allocator (comb/slab_allocator.h) *)

Module Slab.

Record Slab : Type := mkSlab {
  memory_block : Z;
  free_list_head : Z;
  used_count : Z;
  slot_size : Z;
  total_size : Z
}.

(** The allocator: its template parameters ([ObjectsPerSlab] and the
    rounded size classes [sizes_]), its slabs and the words of their
    blocks. *)
Record state : Type := mk {
  ObjectsPerSlab : Z;
  sizes_ : list Z;
  slabs_ : list Slab;
  mem : heap
}.

Definition NumSlabs (st : state) : nat := length (sizes_ st).

(** Modelled from the spec: [IsSorted] of comb/utils.h; the rounded size
    classes must be strictly increasing. *)
Fixpoint IsSorted (l : list Z) : bool :=
  match l with
  | a :: ((b :: _) as tl) => (a <? b) && IsSorted tl
  | _ => true
  end.

Fixpoint RebuildFreeList_loop (slot : Z) (n : nat) (current : Z) (h : heap)
  : Z * heap :=
  match n with
  | O => (current, h)
  | S n' =>
      let next := wrap (current + slot) in
      RebuildFreeList_loop slot n' next (store current next h)
  end.

Definition Slab_RebuildFreeList (objects : Z) (s : Slab) (h : heap) : Slab * heap :=
  let current := memory_block s in
  let '(last, h') :=
    RebuildFreeList_loop (slot_size s) (Z.to_nat (wrap (objects - 1))) current h in
  ({| memory_block := memory_block s;
      free_list_head := current;
      used_count := 0;
      slot_size := slot_size s;
      total_size := total_size s |}, store last 0 h').

(** [Slab::Initialize(size)]; [pages] is the page provider's answer. *)
Definition Slab_Initialize (objects size pages : Z) (h : heap)
  : outcome (Slab * heap) :=
  ASSERT (negb (pages =? 0)) MSG "Failed to allocate slab memory" ;;
  Done (Slab_RebuildFreeList objects
          {| memory_block := pages;
             free_list_head := 0;
             used_count := 0;
             slot_size := size;
             total_size := wrap (objects * size) |} h).

Definition Slab_Allocate (s : Slab) (h : heap) : Slab * Z :=
  if free_list_head s =? 0 then (s, 0)
  else
    ({| memory_block := memory_block s;
        free_list_head := h (free_list_head s);
        used_count := wrap (used_count s + 1);
        slot_size := slot_size s;
        total_size := total_size s |}, free_list_head s).

Definition Slab_Deallocate (s : Slab) (h : heap) (ptr : Z)
  : outcome (Slab * heap) :=
  if ptr =? 0 then Done (s, h)
  else
    ASSERT (0 <? used_count s) MSG "Deallocate called more than Allocate" ;;
    Done ({| memory_block := memory_block s;
             free_list_head := ptr;
             used_count := wrap (used_count s - 1);
             slot_size := slot_size s;
             total_size := total_size s |},
          store ptr (free_list_head s) h).

Definition Slab_Contains (objects : Z) (s : Slab) (ptr : Z) : bool :=
  if (ptr =? 0) || (memory_block s =? 0) then false
  else
    let start := memory_block s in
    let end_ := wrap (start + wrap (objects * slot_size s)) in
    (start <=? ptr) && (ptr <? end_).

(** The scan of [FindSlabIndex], from index [i] on. *)
Fixpoint FindSlabIndex_from (i : nat) (sizes : list Z) (size : Z) : nat :=
  match sizes with
  | [] => i
  | c :: rest => if size <=? c then i else FindSlabIndex_from (S i) rest size
  end.

Definition FindSlabIndex (st : state) (size : Z) : nat :=
  FindSlabIndex_from 0 (sizes_ st) size.

(** The constructor: the static assertions on the template parameters,
    then one [Initialize] per class; [pages] lists the page provider's
    answers. *)
Fixpoint Initialize_all (objects : Z) (sizes pages : list Z) (h : heap)
  : outcome (list Slab * heap) :=
  match sizes, pages with
  | c :: sizes', p :: pages' =>
      match Slab_Initialize objects c p h with
      | Done (s, h') =>
          match Initialize_all objects sizes' pages' h' with
          | Done (ss, h'') => Done (s :: ss, h'')
          | AssertFailed m => AssertFailed m
          end
      | AssertFailed m => AssertFailed m
      end
  | c :: _, [] => AssertFailed "Failed to allocate slab memory"
  | [], _ => Done ([], h)
  end.

Definition SlabAllocator (objects : Z) (SizeClasses pages : list Z) (h : heap)
  : outcome state :=
  let sizes := map NextPowerOfTwo SizeClasses in
  ASSERT (0 <? Z.of_nat (length SizeClasses)) MSG "Must provide at least one size class" ;;
  ASSERT (0 <? objects) MSG "Must allocate at least one object per slab" ;;
  ASSERT (IsSorted sizes) MSG "Size classes must be sorted" ;;
  match Initialize_all objects sizes pages h with
  | Done (ss, h') =>
      Done {| ObjectsPerSlab := objects; sizes_ := sizes; slabs_ := ss; mem := h' |}
  | AssertFailed m => AssertFailed m
  end.

Definition Allocate (st : state) (size alignment : Z) : outcome (state * Z) :=
  ASSERT (alignment <=? alignof_max_align_t)
    MSG "SlabAllocator alignment limited to max_align_t" ;;
  let slab_index := FindSlabIndex st size in
  if (NumSlabs st <=? slab_index)%nat then Done (st, 0)
  else
    match slabs_ st !! slab_index with
    | Some s =>
        let '(s', ptr) := Slab_Allocate s (mem st) in
        Done ({| ObjectsPerSlab := ObjectsPerSlab st;
                 sizes_ := sizes_ st;
                 slabs_ := <[slab_index := s']> (slabs_ st);
                 mem := mem st |}, ptr)
    | None => Done (st, 0)
    end.

(** The scan of [Deallocate] for the slab that owns [ptr]; [i] is the
    index of the head of [rest] in the array. *)
Fixpoint find_owner (objects : Z) (i : nat) (rest : list Slab) (ptr : Z)
  : option (nat * Slab) :=
  match rest with
  | [] => None
  | s :: rest' =>
      if Slab_Contains objects s ptr then Some (i, s)
      else find_owner objects (S i) rest' ptr
  end.

Definition Deallocate (st : state) (ptr : Z) : outcome state :=
  if ptr =? 0 then Done st
  else
    match find_owner (ObjectsPerSlab st) 0 (slabs_ st) ptr with
    | Some (i, s) =>
        match Slab_Deallocate s (mem st) ptr with
        | Done (s', h') =>
            Done {| ObjectsPerSlab := ObjectsPerSlab st;
                    sizes_ := sizes_ st;
                    slabs_ := <[i := s']> (slabs_ st);
                    mem := h' |}
        | AssertFailed m => AssertFailed m
        end
    | None => AssertFailed "Pointer not allocated from this SlabAllocator"
    end.

Definition Slab_GetUsedMemory (s : Slab) : Z := wrap (used_count s * slot_size s).

Definition GetUsedMemory (st : state) : Z :=
  fold_left (fun total s => wrap (total + Slab_GetUsedMemory s)) (slabs_ st) 0.


End Slab.

(** ** Buddy allocator (comb/buddy_allocator.h)

    Every level owns a singly-linked list of free blocks, threaded through
    the first word of each block.  A list is represented by the addresses
    of its blocks, head first: pushing at the head is [cons], unlinking a
    block removes it from the sequence.  [mem] holds the size word that
    [Allocate] writes into the header of a block it hands out. *)

Module Buddy.

Definition MinBlockSize : Z := 64.
Definition MaxLevels : nat := 20.
Definition sizeof_AllocationHeader : Z := 8.

Record state : Type := mk {
  memory_block_ : Z;
  capacity_ : Z;
  used_memory_ : Z;
  free_lists_ : list (list Z);
  mem : heap
}.

(** [free_lists_[level]], the empty list for nullptr. *)
Definition free_at (fl : list (list Z)) (level : nat) : list Z :=
  default [] (fl !! level).

(** [block->next = free_lists_[level]; free_lists_[level] = block] *)
Definition push (level : nat) (block : Z) (fl : list (list Z)) : list (list Z) :=
  <[level := block :: free_at fl level]> fl.

(** The loop of [GetLevel]; it runs at most [MaxLevels] times. *)
Fixpoint GetLevel_loop (fuel : nat) (blockSize : Z) (level : nat) (size : Z) : nat :=
  match fuel with
  | O => level
  | S fuel' =>
      if (blockSize <? size) && (level <? MaxLevels)%nat
      then GetLevel_loop fuel' (wrap (Z.shiftl blockSize 1)) (S level) size
      else level
  end.

Definition GetLevel (size : Z) : nat :=
  GetLevel_loop MaxLevels MinBlockSize 0 size.

Definition GetBlockSize (level : nat) : Z :=
  wrap (Z.shiftl MinBlockSize (Z.of_nat level)).

Definition GetBuddyOffset (offset blockSize : Z) : Z := Z.lxor offset blockSize.

(** The constructor; [pages] is the answer of [AllocatePages(capacity_)]
    and [h] the content of the fresh pages.  A capacity above 32 MiB
    makes [topLevel] equal to [MaxLevels], an index outside the array
    (undefined behaviour in the source; the update is then dropped
    here). *)
Definition BuddyAllocator (pages : Z) (h : heap) (capacity : Z) : outcome state :=
  let capacity_ := NextPowerOfTwo capacity in
  ASSERT (0 <? capacity) MSG "Capacity must be > 0" ;;
  ASSERT (negb (pages =? 0)) MSG "Failed to allocate buddy memory" ;;
  let topLevel := GetLevel capacity_ in
  Done {| memory_block_ := pages;
          capacity_ := capacity_;
          used_memory_ := 0;
          free_lists_ := <[topLevel := [pages]]> (replicate MaxLevels []);
          mem := h |}.

(** [while (currentLevel < MaxLevels && free_lists_[currentLevel] == nullptr)
    ++currentLevel;] *)
Fixpoint find_free_level (fuel : nat) (fl : list (list Z)) (currentLevel : nat) : nat :=
  match fuel with
  | O => currentLevel
  | S fuel' =>
      if (currentLevel <? MaxLevels)%nat
         && match free_at fl currentLevel with [] => true | _ => false end
      then find_free_level fuel' fl (S currentLevel)
      else currentLevel
  end.

(** The split loop, [n] = [currentLevel - level] times: the upper half of
    the block becomes a free block one level down. *)
Fixpoint split (n : nat) (currentLevel : nat) (block : Z) (fl : list (list Z))
  : list (list Z) :=
  match n with
  | O => fl
  | S n' =>
      let currentLevel := pred currentLevel in
      let splitSize := GetBlockSize currentLevel in
      let buddy := wrap (block + splitSize) in
      split n' currentLevel block (push currentLevel buddy fl)
  end.

Definition Allocate (st : state) (size alignment : Z) : outcome (state * Z) :=
  ASSERT (alignment <=? alignof_max_align_t)
    MSG "BuddyAllocator alignment limited to max_align_t" ;;
  let totalSize := wrap (size + sizeof_AllocationHeader) in
  let blockSize := NextPowerOfTwo totalSize in
  let blockSize := if blockSize <? MinBlockSize then MinBlockSize else blockSize in
  let level := GetLevel blockSize in
  let currentLevel := find_free_level MaxLevels (free_lists_ st) level in
  if (MaxLevels <=? currentLevel)%nat then Done (st, 0)
  else
    match free_at (free_lists_ st) currentLevel with
    | [] => Done (st, 0)
    | block :: next =>
        let fl := <[currentLevel := next]> (free_lists_ st) in
        let fl := split (currentLevel - level) currentLevel block fl in
        Done ({| memory_block_ := memory_block_ st;
                 capacity_ := capacity_ st;
                 used_memory_ := wrap (used_memory_ st + blockSize);
                 free_lists_ := fl;
                 mem := store block blockSize (mem st) |},
              wrap (block + sizeof_AllocationHeader))
    end.

(** Unlinking a block from a list. *)
Fixpoint unlink (a : Z) (l : list Z) : list Z :=
  match l with
  | [] => []
  | x :: l' => if x =? a then l' else x :: unlink a l'
  end.

(** The loop of [CoalesceAndInsert]; the level grows at every turn and
    stays below [MaxLevels - 1], so [MaxLevels] turns are enough. *)
Fixpoint Coalesce_loop (fuel : nat) (base capacity : Z) (fl : list (list Z))
    (blockPtr offset blockSize : Z) (level : nat) : list (list Z) * Z * nat :=
  match fuel with
  | O => (fl, blockPtr, level)
  | S fuel' =>
      if (level <? MaxLevels - 1)%nat then
        let buddyOffset := GetBuddyOffset offset blockSize in
        if capacity <=? buddyOffset then (fl, blockPtr, level)
        else
          let buddyPtr := wrap (base + buddyOffset) in
          if existsb (Z.eqb buddyPtr) (free_at fl level) then
            let fl := <[level := unlink buddyPtr (free_at fl level)]> fl in
            let '(blockPtr, offset) :=
              if buddyOffset <? offset then (buddyPtr, buddyOffset)
              else (blockPtr, offset) in
            Coalesce_loop fuel' base capacity fl blockPtr offset
              (wrap (Z.shiftl blockSize 1)) (S level)
          else (fl, blockPtr, level)
      else (fl, blockPtr, level)
  end.

Definition CoalesceAndInsert (st : state) (blockPtr blockSize : Z) (level : nat)
  : list (list Z) :=
  let offset := wrap (blockPtr - memory_block_ st) in
  let '(fl, blockPtr, level) :=
    Coalesce_loop MaxLevels (memory_block_ st) (capacity_ st) (free_lists_ st)
      blockPtr offset blockSize level in
  push level blockPtr fl.

Definition Deallocate (st : state) (ptr : Z) : state :=
  if ptr =? 0 then st
  else
    let header := wrap (ptr - sizeof_AllocationHeader) in
    let blockSize := mem st header in
    let level := GetLevel blockSize in
    {| memory_block_ := memory_block_ st;
       capacity_ := capacity_ st;
       used_memory_ := wrap (used_memory_ st - blockSize);
       free_lists_ := CoalesceAndInsert st header blockSize level;
       mem := mem st |}.

Definition GetUsedMemory (st : state) : Z := used_memory_ st.
Definition GetTotalMemory (st : state) : Z := capacity_ st.

(** The states an allocator goes through from [st0], with the pointers
    handed out and not yet returned.  [Deallocate] is called on such a
    pointer (caller contract of buddy_allocator.h) or on nullptr. *)
Inductive reachable (st0 : state) : state -> list Z -> Prop :=
| reach_init : reachable st0 st0 []
| reach_Allocate st live size alignment st' p :
    reachable st0 st live -> in_word size ->
    Allocate st size alignment = Done (st', p) ->
    reachable st0 st' (if p =? 0 then live else p :: live)
| reach_Deallocate st live p :
    reachable st0 st live -> p ∈ live ->
    reachable st0 (Deallocate st p) (filter (λ q, q ≠ p) live)
| reach_Deallocate_null st live :
    reachable st0 st live -> reachable st0 (Deallocate st 0) live.

(** *** The block structure behind the free lists *)

(** The size of the blocks of a level. *)
Definition level_size (k : nat) : Z := MinBlockSize * 2 ^ Z.of_nat k.

(** Who holds a block: a free list, a live allocation, or the operation
    under way (the block popped, being split, or being coalesced). *)
Inductive owner : Type :=
| Free (k : nat) (a : Z)
| Live (p : Z)
| Hand.

#[global] Instance owner_eq_dec : EqDecision owner.
Proof. solve_decision. Defined.

(** [owns ... w o k]: [w] holds the block of level [k] at offset [o]. *)
Definition owns (base : Z) (fl : list (list Z)) (hdr : heap) (live : list Z)
    (hand : option (Z * nat)) (w : owner) (o : Z) (k : nat) : Prop :=
  match w with
  | Free k' a => k = k' /\ o = a - base /\ a ∈ free_at fl k'
  | Live p =>
      p ∈ live /\ o = p - sizeof_AllocationHeader - base /\
      hdr (p - sizeof_AllocationHeader) = level_size k /\ (k < MaxLevels)%nat
  | Hand => hand = Some (o, k)
  end.

Definition inblock (o : Z) (k : nat) (x : Z) : Prop := o <= x < o + level_size k.

(** The blocks held tile the arena [0, ext): each is aligned to its size
    and inside the arena, no two overlap, and every byte is in one. *)
Record tiling (ext : Z) (B : owner -> Z -> nat -> Prop) : Prop := {
  tiling_shape : forall w o k, B w o k ->
    0 <= o /\ o + level_size k <= ext /\ exists q, o = q * level_size k;
  tiling_disjoint : forall w1 o1 k1 w2 o2 k2 x,
    B w1 o1 k1 -> B w2 o2 k2 -> inblock o1 k1 x -> inblock o2 k2 x -> w1 = w2;
  tiling_cover : forall x, 0 <= x < ext -> exists w o k, B w o k /\ inblock o k x
}.

Definition sum_headers (hdr : heap) (live : list Z) : Z :=
  foldr (fun p acc => hdr (p - sizeof_AllocationHeader) + acc) 0 live.

(** The invariant of the free lists and headers, with a block possibly
    in hand; [top] is the level of the whole arena. *)
Record inv (top : nat) (base cap : Z) (fl : list (list Z)) (hdr : heap)
    (live : list Z) (hand : option (Z * nat)) : Prop := {
  inv_top : (top < MaxLevels)%nat;
  inv_cap : cap <= level_size top /\ ((0 < top)%nat -> cap = level_size top);
  inv_base : 0 < base /\ base + level_size top < word_modulus;
  inv_len : length fl = MaxLevels;
  inv_tiling : tiling (level_size top) (owns base fl hdr live hand);
  inv_nodup_free : forall k, NoDup (free_at fl k);
  inv_nodup_live : NoDup live;
  inv_live_hdr : forall p, p ∈ live ->
    exists k, hdr (p - sizeof_AllocationHeader) = level_size k /\ (k < MaxLevels)%nat;
  inv_no_buddies : forall k a b,
    a ∈ free_at fl k -> b ∈ free_at fl k ->
    b - base <> Z.lxor (a - base) (level_size k)
}.

Definition state_inv (top : nat) (st : state) (live : list Z) : Prop :=
  inv top (memory_block_ st) (capacity_ st) (free_lists_ st) (mem st) live None /\
  used_memory_ st = wrap (sum_headers (mem st) live).

End Buddy.

(** ** GPU device-memory sub-allocator (comb/gpu_allocator.cpp)

    [VkDeviceSize] is a 64-bit unsigned integer, [VkDeviceMemory] an
    opaque handle with [VK_NULL_HANDLE] = 0.  The driver is outside the
    allocator: its answers to [vkAllocateMemory] and [vkMapMemory] are
    arguments of the operations that call it.  The pool mutexes are not
    modelled: the operations are taken one at a time. *)

Module GPU.

Definition VK_NULL_HANDLE : Z := 0.
Definition VK_WHOLE_SIZE : Z := SIZE_MAX.
Definition UINT32_MAX : Z := 2 ^ 32 - 1.

Definition VK_MEMORY_PROPERTY_DEVICE_LOCAL_BIT : Z := 1.
Definition VK_MEMORY_PROPERTY_HOST_VISIBLE_BIT : Z := 2.
Definition VK_MEMORY_PROPERTY_HOST_COHERENT_BIT : Z := 4.
Definition VK_MEMORY_PROPERTY_HOST_CACHED_BIT : Z := 8.

Inductive MemoryType : Type := DeviceLocal | HostVisible | HostCached.

Definition GetMemoryProperties (type : MemoryType) : Z :=
  match type with
  | DeviceLocal => VK_MEMORY_PROPERTY_DEVICE_LOCAL_BIT
  | HostVisible =>
      Z.lor VK_MEMORY_PROPERTY_HOST_VISIBLE_BIT VK_MEMORY_PROPERTY_HOST_COHERENT_BIT
  | HostCached =>
      Z.lor VK_MEMORY_PROPERTY_HOST_VISIBLE_BIT VK_MEMORY_PROPERTY_HOST_CACHED_BIT
  end.

Module FreeRegion.
Record t : Type := mk { offset : Z; size : Z }.
End FreeRegion.

Module MemoryBlock.
Record t : Type := mk {
    memory : Z;
    size : Z;
    used : Z;
    mappedPtr : Z;
    memoryTypeIndex : Z;
    freeRegions : list FreeRegion.t
  }.

  (** [MemoryBlock(blockSize, typeIndex)] *)
Definition new (blockSize typeIndex : Z) : t :=
    {| memory := VK_NULL_HANDLE; size := blockSize; used := 0; mappedPtr := 0;
       memoryTypeIndex := typeIndex;
       freeRegions := [FreeRegion.mk 0 blockSize] |}.

  (** The scan of [FindFreeRegion]; the answer is the position of the
      region in the vector. *)
Fixpoint FindFreeRegion_from (i : nat) (regions : list FreeRegion.t)
      (allocSize alignment : Z) : option nat :=
    match regions with
    | [] => None
    | region :: rest =>
        let alignedOffset := AlignUp (FreeRegion.offset region) alignment in
        let padding := wrap (alignedOffset - FreeRegion.offset region) in
        if wrap (allocSize + padding) <=? FreeRegion.size region then Some i
        else FindFreeRegion_from (S i) rest allocSize alignment
    end.

Definition FindFreeRegion (b : t) (allocSize alignment : Z) : option nat :=
    FindFreeRegion_from 0 (freeRegions b) allocSize alignment.

Definition Allocate (b : t) (allocSize alignment : Z) : t * Z :=
    match FindFreeRegion b allocSize alignment with
    | None => (b, VK_WHOLE_SIZE)
    | Some i =>
        match freeRegions b !! i with
        | None => (b, VK_WHOLE_SIZE)
        | Some region =>
            let alignedOffset := AlignUp (FreeRegion.offset region) alignment in
            let padding := wrap (alignedOffset - FreeRegion.offset region) in
            let region' :=
              FreeRegion.mk (wrap (alignedOffset + allocSize))
                (wrap (FreeRegion.size region - wrap (allocSize + padding))) in
            let regions := <[i := region']> (freeRegions b) in
            let regions :=
              if FreeRegion.size region' =? 0
              then List.filter (fun r => negb (FreeRegion.size r =? 0)) regions
              else regions in
            ({| memory := memory b; size := size b;
                used := wrap (used b + wrap (allocSize + padding));
                mappedPtr := mappedPtr b; memoryTypeIndex := memoryTypeIndex b;
                freeRegions := regions |}, alignedOffset)
        end
    end.

  (** [std::sort] with [operator<], which compares offsets.  Regions of
      equal offset may come out in either order; this model keeps the
      one met first in front. *)
Fixpoint insert_sorted (r : FreeRegion.t) (l : list FreeRegion.t)
    : list FreeRegion.t :=
    match l with
    | [] => [r]
    | x :: l' =>
        if FreeRegion.offset r <? FreeRegion.offset x then r :: l
        else x :: insert_sorted r l'
    end.

Definition sort (l : list FreeRegion.t) : list FreeRegion.t :=
    fold_right insert_sorted [] l.

  (** The loop of [CoalesceFreeRegions] over [freeRegions[1..]]. *)
Fixpoint Coalesce_loop (current : FreeRegion.t) (rest coalesced : list FreeRegion.t)
    : list FreeRegion.t :=
    match rest with
    | [] => coalesced ++ [current]
    | next :: rest' =>
        if wrap (FreeRegion.offset current + FreeRegion.size current)
             =? FreeRegion.offset next
        then Coalesce_loop
               (FreeRegion.mk (FreeRegion.offset current)
                  (wrap (FreeRegion.size current + FreeRegion.size next)))
               rest' coalesced
        else Coalesce_loop next rest' (coalesced ++ [current])
    end.

Definition CoalesceFreeRegions (regions : list FreeRegion.t) : list FreeRegion.t :=
    match regions with
    | [] => []
    | [r] => [r]
    | r :: rest => Coalesce_loop r rest []
    end.

Definition Deallocate (b : t) (offset allocSize : Z) : t :=
    let regions := sort (freeRegions b ++ [FreeRegion.mk offset allocSize]) in
    {| memory := memory b; size := size b;
       used := wrap (used b - allocSize);
       mappedPtr := mappedPtr b; memoryTypeIndex := memoryTypeIndex b;
       freeRegions := CoalesceFreeRegions regions |}.
End MemoryBlock.

Module MemoryPool.
Record t : Type := mk {
    type : MemoryType;
    memoryTypeIndex : Z;
    blockSize : Z;
    blocks : list MemoryBlock.t
  }.

Definition GetAllocatedSize (p : t) : Z :=
    fold_left (fun total b => wrap (total + MemoryBlock.used b)) (blocks p) 0.

Definition GetTotalSize (p : t) : Z :=
    wrap (blockSize p * Z.of_nat (length (blocks p))).

Definition GetAllocationCount (p : t) : Z :=
    let totalFree :=
      fold_left (fun total b =>
                   wrap (total + Z.of_nat (length (MemoryBlock.freeRegions b))))
                (blocks p) 0 in
    let n := Z.of_nat (length (blocks p)) in
    if totalFree <? n then n - totalFree else 0.
End MemoryPool.

Module VulkanAllocation.
Record t : Type := mk {
    memory : Z;
    offset : Z;
    size : Z;
    mappedPtr : Z;
    blockIndex : Z;
    memoryTypeIndex : Z
  }.

  (** The value-initialised handle, [VulkanAllocation{}]. *)
Definition empty : t := mk VK_NULL_HANDLE 0 0 0 0 0.

Definition IsValid (a : t) : bool := negb (memory a =? VK_NULL_HANDLE).
End VulkanAllocation.

(** The statistics of a pool; the fragmentation ratio, a [float], is left
    out. *)
Record GPUMemoryStats : Type := mkStats {
  allocatedBytes : Z;
  totalBytes : Z;
  allocationCount : Z;
  blockCount : Z
}.

(** The answers of the driver to one block creation: the memory object of
    [vkAllocateMemory] and the address of [vkMapMemory], [None] where the
    call fails. *)
Record DriverAnswers : Type := mkDriver {
  vkAllocateMemory : option Z;
  vkMapMemory : option Z
}.

Record GPUAllocator : Type := mk {
  config_blockSize : Z;
  config_maxBlocks : Z;
  memoryTypes : list Z;      (* propertyFlags of memoryProperties_ *)
  deviceLocalPool_ : option MemoryPool.t;
  hostVisiblePool_ : option MemoryPool.t;
  hostCachedPool_ : option MemoryPool.t
}.

Definition new (blockSize maxBlocks : Z) (types : list Z) : GPUAllocator :=
  mk blockSize maxBlocks types None None None.

Fixpoint FindMemoryType_from (i : Z) (types : list Z) (typeFilter properties : Z) : Z :=
  match types with
  | [] => UINT32_MAX
  | flags :: rest =>
      if Z.testbit typeFilter i && (Z.land flags properties =? properties) then i
      else FindMemoryType_from (i + 1) rest typeFilter properties
  end.

Definition FindMemoryType (a : GPUAllocator) (typeFilter properties : Z) : Z :=
  FindMemoryType_from 0 (memoryTypes a) typeFilter properties.

Definition pool_of (a : GPUAllocator) (type : MemoryType) : option MemoryPool.t :=
  match type with
  | DeviceLocal => deviceLocalPool_ a
  | HostVisible => hostVisiblePool_ a
  | HostCached => hostCachedPool_ a
  end.

Definition set_pool (a : GPUAllocator) (type : MemoryType) (p : MemoryPool.t)
  : GPUAllocator :=
  match type with
  | DeviceLocal =>
      mk (config_blockSize a) (config_maxBlocks a) (memoryTypes a)
         (Some p) (hostVisiblePool_ a) (hostCachedPool_ a)
  | HostVisible =>
      mk (config_blockSize a) (config_maxBlocks a) (memoryTypes a)
         (deviceLocalPool_ a) (Some p) (hostCachedPool_ a)
  | HostCached =>
      mk (config_blockSize a) (config_maxBlocks a) (memoryTypes a)
         (deviceLocalPool_ a) (hostVisiblePool_ a) (Some p)
  end.

(** [GetPool]: the pool of a memory type, created on first use. *)
Definition GetPool (a : GPUAllocator) (type : MemoryType)
  : GPUAllocator * MemoryPool.t :=
  match pool_of a type with
  | Some p => (a, p)
  | None =>
      let typeIndex := FindMemoryType a UINT32_MAX (GetMemoryProperties type) in
      let p := MemoryPool.mk type typeIndex (config_blockSize a) [] in
      (set_pool a type p, p)
  end.

(** [AllocateBlock]: the pool with the new block at its end, or [None]
    where the driver fails. *)
Definition AllocateBlock (pool : MemoryPool.t) (size : Z) (drv : DriverAnswers)
  : option MemoryPool.t :=
  match vkAllocateMemory drv with
  | None => None
  | Some memory =>
      let block := MemoryBlock.new size (MemoryPool.memoryTypeIndex pool) in
      let with_ptr ptr :=
        MemoryBlock.mk memory (MemoryBlock.size block) (MemoryBlock.used block) ptr
          (MemoryBlock.memoryTypeIndex block) (MemoryBlock.freeRegions block) in
      let push b :=
        Some (MemoryPool.mk (MemoryPool.type pool) (MemoryPool.memoryTypeIndex pool)
                (MemoryPool.blockSize pool) (MemoryPool.blocks pool ++ [b])) in
      match MemoryPool.type pool with
      | DeviceLocal => push (with_ptr 0)
      | _ =>
          match vkMapMemory drv with
          | None => None
          | Some ptr => push (with_ptr ptr)
          end
      end
  end.

Definition handle_in (block : MemoryBlock.t) (offset size : Z) (i : nat)
  : VulkanAllocation.t :=
  VulkanAllocation.mk (MemoryBlock.memory block) offset size
    (if MemoryBlock.mappedPtr block =? 0 then 0
     else wrap (MemoryBlock.mappedPtr block + offset))
    (Z.of_nat i mod 2 ^ 32)
    (MemoryBlock.memoryTypeIndex block).

(** The first loop of [Allocate]: try the blocks in order, from index
    [i]; [done] are the blocks already tried. *)
Fixpoint Allocate_scan (i : nat) (done rest : list MemoryBlock.t) (size alignment : Z)
  : list MemoryBlock.t * option VulkanAllocation.t :=
  match rest with
  | [] => (done, None)
  | block :: rest' =>
      let '(block', offset) := MemoryBlock.Allocate block size alignment in
      if offset =? VK_WHOLE_SIZE
      then Allocate_scan (S i) (done ++ [block']) rest' size alignment
      else (done ++ block' :: rest', Some (handle_in block' offset size i))
  end.

Definition with_blocks (p : MemoryPool.t) (bs : list MemoryBlock.t) : MemoryPool.t :=
  MemoryPool.mk (MemoryPool.type p) (MemoryPool.memoryTypeIndex p)
    (MemoryPool.blockSize p) bs.

Definition Allocate (a : GPUAllocator) (size alignment : Z) (type : MemoryType)
    (drv : DriverAnswers) : outcome (GPUAllocator * VulkanAllocation.t) :=
  ASSERT (0 <? size) MSG "Cannot allocate 0 bytes" ;;
  let '(a, pool) := GetPool a type in
  match Allocate_scan 0 [] (MemoryPool.blocks pool) size alignment with
  | (bs, Some alloc) => Done (set_pool a type (with_blocks pool bs), alloc)
  | (bs, None) =>
      let pool := with_blocks pool bs in
      let a := set_pool a type pool in
      if config_maxBlocks a <=? Z.of_nat (length (MemoryPool.blocks pool))
      then Done (a, VulkanAllocation.empty)
      else
        let blockSize := Z.max (MemoryPool.blockSize pool) (wrap (size + alignment)) in
        match AllocateBlock pool blockSize drv with
        | None => Done (a, VulkanAllocation.empty)
        | Some pool' =>
            match last (MemoryPool.blocks pool') with
            | None => Done (a, VulkanAllocation.empty)
            | Some newBlock =>
                let '(newBlock', offset) :=
                  MemoryBlock.Allocate newBlock size alignment in
                let n := length (MemoryPool.blocks pool') in
                let pool'' :=
                  with_blocks pool' (<[(n - 1)%nat := newBlock']> (MemoryPool.blocks pool')) in
                ASSERT (negb (offset =? VK_WHOLE_SIZE))
                  MSG "Allocation from new block should always succeed" ;;
                Done (set_pool a type pool'',
                      handle_in newBlock' offset size (n - 1))
            end
        end
  end.

(** The pool a handle is returned to: [Deallocate] compares the memory
    type index of the handle with that of the host-visible and of the
    host-cached pool, and falls back to device-local. *)
Definition resolve_type (a : GPUAllocator) (allocation : VulkanAllocation.t)
  : MemoryType :=
  let matches (p : option MemoryPool.t) :=
    match p with
    | Some p => VulkanAllocation.memoryTypeIndex allocation
                  =? MemoryPool.memoryTypeIndex p
    | None => false
    end in
  if matches (hostVisiblePool_ a) then HostVisible
  else if matches (hostCachedPool_ a) then HostCached
  else DeviceLocal.

Definition Deallocate (a : GPUAllocator) (allocation : VulkanAllocation.t)
  : GPUAllocator * VulkanAllocation.t :=
  if negb (VulkanAllocation.IsValid allocation) then (a, allocation)
  else
    let type := resolve_type a allocation in
    let '(a, pool) := GetPool a type in
    let i := Z.to_nat (VulkanAllocation.blockIndex allocation) in
    match MemoryPool.blocks pool !! i with
    | None => (a, allocation)      (* "Invalid block index in deallocation" *)
    | Some block =>
        let block' :=
          MemoryBlock.Deallocate block (VulkanAllocation.offset allocation)
            (VulkanAllocation.size allocation) in
        (set_pool a type (with_blocks pool (<[i := block']> (MemoryPool.blocks pool))),
         VulkanAllocation.empty)
    end.

Definition GetStats (a : GPUAllocator) (type : MemoryType)
  : GPUAllocator * GPUMemoryStats :=
  let '(a, pool) := GetPool a type in
  (a, {| allocatedBytes := MemoryPool.GetAllocatedSize pool;
         totalBytes := MemoryPool.GetTotalSize pool;
         allocationCount := MemoryPool.GetAllocationCount pool;
         blockCount := Z.of_nat (length (MemoryPool.blocks pool)) |}).

(** The sums the specification speaks of. *)
Definition sum_block_sizes (p : MemoryPool.t) : Z :=
  foldr (fun b acc => MemoryBlock.size b + acc) 0 (MemoryPool.blocks p).

Definition sum_block_used (p : MemoryPool.t) : Z :=
  foldr (fun b acc => MemoryBlock.used b + acc) 0 (MemoryPool.blocks p).

Definition sum_sizes (l : list FreeRegion.t) : Z :=
  foldr (fun r acc => FreeRegion.size r + acc) 0 l.

Definition sum_free (b : MemoryBlock.t) : Z := sum_sizes (MemoryBlock.freeRegions b).

(** *** The free regions of a block *)

Definition region_end (r : FreeRegion.t) : Z :=
  FreeRegion.offset r + FreeRegion.size r.

(** The bytes of a region, and of a sub-allocation (offset, size). *)
Definition covers (r : FreeRegion.t) (x : Z) : Prop :=
  FreeRegion.offset r <= x < region_end r.

Definition within (a : Z * Z) (x : Z) : Prop := fst a <= x < fst a + snd a.

(** [r1] lies before [r2], with a gap ([apart]) or possibly touching it
    ([before]). *)
Definition apart (r1 r2 : FreeRegion.t) : Prop := region_end r1 < FreeRegion.offset r2.
Definition before (r1 r2 : FreeRegion.t) : Prop := region_end r1 <= FreeRegion.offset r2.

Definition region_ok (size : Z) (r : FreeRegion.t) : Prop :=
  0 <= FreeRegion.offset r /\ 0 < FreeRegion.size r /\ region_end r <= size.

(** The invariant of a block, with the sub-allocations handed out and
    not yet returned. *)
Record block_inv (b : MemoryBlock.t) (live : list (Z * Z)) : Prop := {
  bi_size : 0 < MemoryBlock.size b < word_modulus;
  bi_regions : Forall (region_ok (MemoryBlock.size b)) (MemoryBlock.freeRegions b);
  bi_sorted : StronglySorted apart (MemoryBlock.freeRegions b);
  bi_live_ok : forall a, a ∈ live -> 0 <= fst a /\ 0 < snd a /\ fst a + snd a <= MemoryBlock.size b;
  bi_live_free : forall a r x,
    a ∈ live -> r ∈ MemoryBlock.freeRegions b -> within a x -> covers r x -> False;
  bi_live_live : forall a1 a2 x,
    a1 ∈ live -> a2 ∈ live -> within a1 x -> within a2 x -> a1 = a2;
  bi_used : 0 <= MemoryBlock.used b /\
            sum_free b + MemoryBlock.used b = MemoryBlock.size b
}.

(** The states a block goes through when every request fits a word with
    its alignment ([allocSize + alignment <= 2^64], alignment a power of
    two) and every deallocation returns a live sub-allocation. *)
Inductive block_reachable : MemoryBlock.t -> list (Z * Z) -> Prop :=
| block_new memory blockSize ptr typeIndex :
    0 < blockSize < word_modulus ->
    block_reachable
      (MemoryBlock.mk memory blockSize 0 ptr typeIndex [FreeRegion.mk 0 blockSize]) []
| block_Allocate b live allocSize k b' offset :
    block_reachable b live ->
    0 < allocSize -> 0 <= k -> allocSize + 2 ^ k <= word_modulus ->
    MemoryBlock.Allocate b allocSize (2 ^ k) = (b', offset) ->
    block_reachable b'
      (if offset =? VK_WHOLE_SIZE then live else (offset, allocSize) :: live)
| block_Deallocate b live offset allocSize :
    block_reachable b live -> (offset, allocSize) ∈ live ->
    block_reachable (MemoryBlock.Deallocate b offset allocSize)
      (filter (λ a, a ≠ (offset, allocSize)) live).

End GPU.

(** * Runs of calls

    The relations below follow an allocator from one state to a later
    one, through calls that return. *)

(** [Linear_run st st']: the linear allocator goes from [st] to [st'] by
    any calls that return. *)
Inductive Linear_run (st : Linear.state) : Linear.state -> Prop :=
| Linear_run_refl : Linear_run st st
| Linear_run_Allocate st1 size alignment st2 p :
    Linear_run st st1 -> in_word size -> in_word alignment ->
    Linear.Allocate st1 size alignment = Done (st2, p) -> Linear_run st st2
| Linear_run_Deallocate st1 ptr :
    Linear_run st st1 -> Linear_run st (Linear.Deallocate st1 ptr)
| Linear_run_Reset st1 :
    Linear_run st st1 -> Linear_run st (Linear.Reset st1)
| Linear_run_ResetToMarker st1 marker st2 :
    Linear_run st st1 -> in_word marker ->
    Linear.ResetToMarker st1 marker = Done st2 -> Linear_run st st2.

(** [Stack_scope st st']: the stack allocator goes from [st] to [st'] by
    allocations, and by scopes opened after [st] and closed in LIFO order:
    no marker older than the one of [st] is freed. *)
Inductive Stack_scope (st : Stack.state) : Stack.state -> Prop :=
| Stack_scope_refl : Stack_scope st st
| Stack_scope_Allocate st1 size alignment st2 p :
    Stack_scope st st1 -> in_word size -> in_word alignment ->
    Stack.Allocate st1 size alignment = Done (st2, p) -> Stack_scope st st2
| Stack_scope_Deallocate st1 ptr :
    Stack_scope st st1 -> Stack_scope st (Stack.Deallocate st1 ptr)
| Stack_scope_FreeToMarker st1 marker st2 :
    Stack_scope st st1 -> Stack.GetMarker st <= marker ->
    Stack.FreeToMarker st1 marker = Done st2 -> Stack_scope st st2.

(** [Pool_Allocate_many T st n]: [n] calls of [Allocate] for one object
    each, in a row; the slots handed out, in order (0 for nullptr). *)
Fixpoint Pool_Allocate_many (T : Pool.elem) (st : Pool.state) (n : nat)
  : outcome (Pool.state * list Z) :=
  match n with
  | O => Done (st, [])
  | S n' =>
      match Pool.Allocate T st (Pool.sizeof_T T) (Pool.alignof_T T) with
      | Done (st1, p) =>
          match Pool_Allocate_many T st1 n' with
          | Done (st2, ps) => Done (st2, p :: ps)
          | AssertFailed m => AssertFailed m
          end
      | AssertFailed m => AssertFailed m
      end
  end.

(** * Readings of the GPU allocator *)

(** Memory type [i] of the device is allowed by [typeFilter] and has all
    the [properties] asked for. *)
Definition memory_type_suits (types : list Z) (typeFilter properties : Z) (i : Z)
  : Prop :=
  exists flags,
    types !! Z.to_nat i = Some flags /\
    Z.testbit typeFilter i = true /\ Z.land flags properties = properties.

(** The number of free regions of all the blocks of a pool. *)
Definition total_free_regions (p : GPU.MemoryPool.t) : Z :=
  foldr (fun b s => Z.of_nat (length (GPU.MemoryBlock.freeRegions b)) + s) 0
        (GPU.MemoryPool.blocks p).

(** * The slabs of a slab allocator *)






(** ** Scenarios of the specification, as concrete states *)

(** Pool recycle: [Pool<Enemy>] of capacity 3 at address 4096, after three
    allocations. *)
Definition Enemy : Pool.elem := Pool.mkElem 16 8.

Definition pool_fresh : Pool.state :=
  Pool.Reset Enemy (Pool.mk 4096 0 3 0 48 (fun _ => 0)).

Definition pool_used (head used : Z) : Pool.state :=
  Pool.mk 4096 head 3 used 48 (Pool.mem pool_fresh).

(** Slab routing: classes {32, 64, 128, 256, 512}, four slots each. *)
Definition slab_classes : list Z := [32; 64; 128; 256; 512].

Definition slab_pages : list Z := [4096; 8192; 12288; 16384; 20480].

Definition slab_fresh : Slab.state :=
  match Slab.SlabAllocator 4 slab_classes slab_pages (fun _ => 0) with
  | Done st => st
  | AssertFailed _ => Slab.mk 0 [] [] (fun _ => 0)
  end.

(** GPU sub-allocation: blocks of 256 MiB, at most 64 per pool, on a
    device with a device-local, a host-visible coherent and a host-cached
    memory type.  The driver hands out the memory object [memory]. *)
Definition MiB : Z := 1048576.

Definition gpu_fresh : GPU.GPUAllocator := GPU.new (256 * MiB) 64 [1; 6; 14].

Definition gpu_driver (memory : Z) : GPU.DriverAnswers :=
  GPU.mkDriver (Some memory) (Some (memory * 2 ^ 32)).

Definition gpu_allocate (a : GPU.GPUAllocator) (size alignment : Z)
    (type : GPU.MemoryType) (memory : Z)
  : GPU.GPUAllocator * GPU.VulkanAllocation.t :=
  match GPU.Allocate a size alignment type (gpu_driver memory) with
  | Done r => r
  | AssertFailed _ => (a, GPU.VulkanAllocation.empty)
  end.

(** One request of 300 MiB, larger than the nominal block. *)
Definition gpu_oversized : GPU.GPUAllocator :=
  fst (gpu_allocate gpu_fresh (300 * MiB) 256 GPU.DeviceLocal 1).

(** One byte, then [SIZE_MAX] bytes aligned to 2, from the same block. *)
Definition gpu_one_byte : GPU.GPUAllocator * GPU.VulkanAllocation.t :=
  gpu_allocate gpu_fresh 1 1 GPU.DeviceLocal 1.

Definition gpu_huge : GPU.GPUAllocator * GPU.VulkanAllocation.t :=
  gpu_allocate (fst gpu_one_byte) SIZE_MAX 2 GPU.DeviceLocal 2.

(** One block of 1 KiB: 100 bytes aligned to 16, then 50 bytes aligned to
    64 (28 bytes of padding), then the first sub-allocation returned. *)
Definition gpu_block_fresh : GPU.MemoryBlock.t := GPU.MemoryBlock.new 1024 0.
Definition gpu_block_one : GPU.MemoryBlock.t * Z :=
  GPU.MemoryBlock.Allocate gpu_block_fresh 100 (2 ^ 4).
Definition gpu_block_two : GPU.MemoryBlock.t * Z :=
  GPU.MemoryBlock.Allocate (fst gpu_block_one) 50 (2 ^ 6).
Definition gpu_block_one_back : GPU.MemoryBlock.t :=
  GPU.MemoryBlock.Deallocate (fst gpu_block_two) 0 100.

(** Buddy coalesce: a capacity that rounds to 1 MiB, two allocations of
    the same level, both returned. *)
Definition buddy_fresh : Buddy.state :=
  match Buddy.BuddyAllocator 4096 (fun _ => 0) 1000000 with
  | Done st => st
  | AssertFailed _ => Buddy.mk 0 0 0 [] (fun _ => 0)
  end.

Definition buddy_allocate (st : Buddy.state) (size : Z) : Buddy.state * Z :=
  match Buddy.Allocate st size 8 with
  | Done r => r
  | AssertFailed _ => (st, 0)
  end.

Definition buddy_one : Buddy.state * Z := buddy_allocate buddy_fresh 100.
Definition buddy_two : Buddy.state * Z := buddy_allocate (fst buddy_one) 100.
Definition buddy_one_back : Buddy.state :=
  Buddy.Deallocate (fst buddy_two) (snd buddy_one).
Definition buddy_both_back : Buddy.state :=
  Buddy.Deallocate buddy_one_back (snd buddy_two).

(** A linear and a stack allocator of 1 KiB at address 4096 (the stack
    one at the odd address 4097): 100 bytes aligned to 16, then 200 bytes
    aligned to 64. *)
Definition linear_fresh : Linear.state := Linear.mk 4096 4096 1024.
Definition linear_one : Linear.state * Z := Linear.Allocate_body linear_fresh 100 16.
Definition linear_two : Linear.state * Z := Linear.Allocate_body (fst linear_one) 200 64.

Definition stack_fresh : Stack.state := Stack.mk 4097 1024 0.
Definition stack_one : Stack.state * Z := Stack.Allocate_body stack_fresh 100 16.
Definition stack_two : Stack.state * Z := Stack.Allocate_body (fst stack_one) 200 64.


(** An allocator whose host-visible pool has no block yet. *)
Definition gpu_staging_pool : GPU.MemoryPool.t :=
  GPU.MemoryPool.mk GPU.HostVisible 1 (256 * MiB) [].
Definition gpu_staging : GPU.GPUAllocator :=
  GPU.mk (256 * MiB) 64 [1; 6; 14] None (Some gpu_staging_pool) None.



(** A buddy allocator of 64 MiB, above the 32 MiB of the last level. *)
Definition buddy_large : Buddy.state :=
  match Buddy.BuddyAllocator 4096 (fun _ => 0) (64 * MiB) with
  | Done st => st
  | AssertFailed _ => Buddy.mk 0 0 0 [] (fun _ => 0)
  end.

(** A device with one memory type, device-local, host-visible and
    host-coherent at once (unified memory): a staging buffer of 64 bytes
    from the host-visible pool, then two device-local buffers of 200 MiB,
    which take a block of 256 MiB each. *)
Definition gpu_unified_fresh : GPU.GPUAllocator := GPU.new (256 * MiB) 64 [7].

Definition gpu_unified_staging : GPU.GPUAllocator * GPU.VulkanAllocation.t :=
  gpu_allocate gpu_unified_fresh 64 16 GPU.HostVisible 1.

Definition gpu_unified_first : GPU.GPUAllocator * GPU.VulkanAllocation.t :=
  gpu_allocate (fst gpu_unified_staging) (200 * MiB) 256 GPU.DeviceLocal 2.

Definition gpu_unified_second : GPU.GPUAllocator * GPU.VulkanAllocation.t :=
  gpu_allocate (fst gpu_unified_first) (200 * MiB) 256 GPU.DeviceLocal 3.
(** * Properties

    ** Words and bit utilities *)

Lemma wrap_small z : in_word z -> wrap z = z.
Proof. intros H. apply Z.mod_small. exact H. Qed.

Lemma wrap_range z : in_word (wrap z).
Proof. apply Z.mod_pos_bound. reflexivity. Qed.

Lemma wrap_wrap z : wrap (wrap z) = wrap z.
Proof. apply wrap_small, wrap_range. Qed.

Lemma wrap_add_l a b : wrap (wrap a + b) = wrap (a + b).
Proof. unfold wrap. now rewrite Zplus_mod_idemp_l. Qed.

Lemma wrap_add_r a b : wrap (a + wrap b) = wrap (a + b).
Proof. unfold wrap. now rewrite Zplus_mod_idemp_r. Qed.

Lemma wrap_sub_l a b : wrap (wrap a - b) = wrap (a - b).
Proof. unfold wrap. now rewrite Zminus_mod_idemp_l. Qed.

Lemma wrap_sub_r a b : wrap (a - wrap b) = wrap (a - b).
Proof. unfold wrap. now rewrite Zminus_mod_idemp_r. Qed.

Lemma wrap_land_ones z : wrap z = Z.land z (Z.ones word_bits).
Proof. unfold wrap, word_modulus. now rewrite Z.land_ones. Qed.

(** Masking with the complement of [2^k - 1] clears the low [k] bits. *)
Lemma land_lnot_low_mask y k :
  0 <= k -> in_word y ->
  Z.land y (wrap (Z.lnot (2 ^ k - 1))) = y - y mod 2 ^ k.
Proof.
  intros Hk Hy.
  rewrite wrap_land_ones, (Z.land_comm (Z.lnot _)), Z.land_assoc.
  rewrite <- wrap_land_ones, (wrap_small y Hy).
  rewrite <- Z.ldiff_land.
  replace (2 ^ k - 1) with (Z.ones k) by (rewrite Z.ones_equiv; lia).
  rewrite Z.ldiff_ones_r by exact Hk.
  rewrite Z.shiftr_div_pow2, Z.shiftl_mul_pow2 by exact Hk.
  pose proof (Z.div_mod y (2 ^ k)) as E.
  assert (0 < 2 ^ k) by (apply Z.pow_pos_nonneg; lia).
  lia.
Qed.

Lemma pow2_divides_modulus k :
  0 <= k < word_bits -> word_modulus = 2 ^ k * 2 ^ (word_bits - k).
Proof.
  intros Hk. unfold word_modulus.
  rewrite <- Z.pow_add_r by lia. f_equal. lia.
Qed.

(** For a power-of-two alignment the bit formula is the mathematical
    align-up, reduced to a word. *)
Lemma AlignUp_pow2 x k :
  0 <= k < word_bits -> in_word x ->
  AlignUp x (2 ^ k) = wrap (align_up x (2 ^ k)).
Proof.
  intros Hk Hx. unfold AlignUp, align_up.
  assert (Hp : 0 < 2 ^ k) by (apply Z.pow_pos_nonneg; lia).
  assert (Hlt : 2 ^ k < word_modulus).
  { unfold word_modulus. apply Z.pow_lt_mono_r; unfold word_bits in *; lia. }
  rewrite (wrap_small (2 ^ k - 1)) by (unfold in_word; lia).
  rewrite land_lnot_low_mask by (try apply wrap_range; lia).
  set (a := 2 ^ k) in *.
  assert (Hm : wrap (x + (a - 1)) mod a = (x + (a - 1)) mod a).
  { unfold wrap. apply Z.mod_mod_divide.
    exists (2 ^ (word_bits - k)). rewrite (pow2_divides_modulus k Hk). fold a. lia. }
  assert (Hpad : (x + (a - 1)) mod a = a - 1 - (- x) mod a).
  { pose proof (Z.mod_pos_bound (- x) a Hp) as Hb.
    pose proof (Z.div_mod (- x) a ltac:(lia)) as Hd.
    symmetry. apply Z.mod_unique with (q := - ((- x) / a)); lia. }
  assert (Hin : in_word (wrap (x + (a - 1)) - wrap (x + (a - 1)) mod a)).
  { pose proof (wrap_range (x + (a - 1))) as Hw.
    pose proof (Z.mod_pos_bound (wrap (x + (a - 1))) a Hp) as Hb.
    pose proof (Z.mod_le (wrap (x + (a - 1))) a) as Hle.
    unfold in_word in *. lia. }
  rewrite <- (wrap_small _ Hin), Hm, Hpad, wrap_sub_l. f_equal. lia.
Qed.

Lemma align_up_bounds x a :
  0 < a -> x <= align_up x a < x + a /\ (align_up x a) mod a = 0.
Proof.
  intros Ha. unfold align_up.
  pose proof (Z.mod_pos_bound (- x) a Ha) as Hb. split; [lia|].
  rewrite Z.add_mod_idemp_r by lia.
  replace (x + - x) with 0 by lia. apply Z.mod_0_l. lia.
Qed.

Lemma AlignUp_one x : in_word x -> AlignUp x 1 = x.
Proof.
  intros Hx. change 1 with (2 ^ 0). rewrite AlignUp_pow2; unfold word_bits; try lia; [|exact Hx].
  unfold align_up. rewrite Z.mod_1_r, Z.add_0_r. now apply wrap_small.
Qed.

Lemma IsPowerOfTwo_pow2 k : 0 <= k < word_bits -> IsPowerOfTwo (2 ^ k) = true.
Proof.
  intros Hk. unfold IsPowerOfTwo.
  assert (Hp : 0 < 2 ^ k) by (apply Z.pow_pos_nonneg; lia).
  assert (Hlt : 2 ^ k < word_modulus).
  { unfold word_modulus. apply Z.pow_lt_mono_r; unfold word_bits in *; lia. }
  rewrite wrap_small by (unfold in_word; lia).
  replace (2 ^ k - 1) with (Z.ones k) by (rewrite Z.ones_equiv; lia).
  rewrite Z.land_ones, Z.mod_same by lia.
  apply andb_true_intro. split; [apply negb_true_iff|]; apply Z.eqb_neq || apply Z.eqb_eq; lia.
Qed.


Lemma AlignUp_in_word x a : in_word (AlignUp x a).
Proof.
  unfold AlignUp.
  rewrite (wrap_land_ones (Z.lnot _)), Z.land_assoc, <- wrap_land_ones.
  apply wrap_range.
Qed.

Lemma pow2_in_word k : 0 <= k < word_bits -> 0 < 2 ^ k < word_modulus.
Proof.
  intros Hk. split; [apply Z.pow_pos_nonneg; lia|].
  unfold word_modulus. apply Z.pow_lt_mono_r; unfold word_bits in *; lia.
Qed.

Lemma hive_Assert_Done {A} (c : bool) msg (k : outcome A) r :
  hive_Assert c msg k = Done r -> c = true /\ k = Done r.
Proof. destruct c; simpl; [auto | discriminate]. Qed.

(** [NextPowerOfTwo] does not go below its argument. *)
Lemma NextPowerOfTwo_ge t : 1 < t <= 2 ^ 63 -> t <= NextPowerOfTwo t.
Proof.
  intros [H1 H2]. unfold NextPowerOfTwo.
  assert (Hj : Z.log2_up t <= 63) by (apply Z.log2_up_le_pow2; lia).
  pose proof (Z.log2_up_nonneg t) as Hj0.
  destruct (Z.log2_up_spec t H1) as [_ Hle].
  rewrite wrap_small; [exact Hle|].
  pose proof (pow2_in_word (Z.log2_up t)). unfold in_word, word_bits in *. lia.
Qed.


(** ** Linear and stack allocators *)

Section LinearFacts.
Import Linear.

  (** The cursor after a bump is the old cursor plus the bytes the fit
      test has just compared with the remaining room, whatever the
      alignment argument was. *)
Lemma Linear_Allocate_body_inv st size alignment :
    inv st -> inv (fst (Allocate_body st size alignment)).
  Proof.
    intros (Hb & Hc & Hcur & Hend). unfold Allocate_body.
    set (A := AlignUp (current_ st) alignment).
    set (required := wrap (wrap (A - current_ st) + size)).
    rewrite (wrap_small (current_ st - base_ st)) by (unfold in_word; lia).
    rewrite (wrap_small (capacity_ st - _)) by (unfold in_word; lia).
    destruct (Z.ltb_spec (capacity_ st - (current_ st - base_ st)) required) as [Hlt|Hge];
      simpl; [unfold inv; lia|].
    assert (Hreq : in_word required) by apply wrap_range.
    assert (E : wrap (A + size) = current_ st + required).
    { rewrite <- (wrap_small (current_ st + required)) by (unfold in_word in *; lia).
      unfold required. rewrite wrap_add_r.
      replace (current_ st + (wrap (A - current_ st) + size))
        with (wrap (A - current_ st) + (current_ st + size)) by lia.
      rewrite wrap_add_l. f_equal. lia. }
    unfold inv; simpl. rewrite E. unfold in_word in *. lia.
  Qed.

Lemma Linear_reachable_inv st : reachable st -> inv st.
  Proof.
    induction 1 as [pages capacity st Hp Hc Hend Hnew| |st size al st' p _ IH _ _ HA
                   |st ptr _ IH|st _ IH|st marker st' _ IH _ HR].
    - unfold LinearAllocator in Hnew.
      apply hive_Assert_Done in Hnew as [_ Hnew]. injection Hnew as <-.
      unfold inv; simpl. lia.
    - unfold inv, moved_from, word_modulus, word_bits; simpl. lia.
    - unfold Allocate in HA.
      apply hive_Assert_Done in HA as [_ HA].
      apply hive_Assert_Done in HA as [_ HA]. injection HA as HA.
      pose proof (Linear_Allocate_body_inv st size al IH) as H'.
      rewrite HA in H'. exact H'.
    - exact IH.
    - destruct IH as (Hb & Hc & Hcur & Hend). unfold inv, Reset; simpl. lia.
    - destruct IH as (Hb & Hc & Hcur & Hend). unfold ResetToMarker in HR.
      apply hive_Assert_Done in HR as [Hm HR]. injection HR as <-.
      rewrite wrap_small in Hm by (unfold in_word; lia).
      apply andb_true_iff in Hm as [H1 H2].
      apply Z.leb_le in H1, H2. unfold inv; simpl. lia.
  Qed.

  (** Where [padding + size] does not wrap, the code is the algorithm of
      the specification. *)
Lemma Linear_Allocate_no_overflow st size k :
    inv st -> 0 <= k < word_bits -> 0 < size ->
    align_up (current_ st) (2 ^ k) - current_ st + size < word_modulus ->
    exists st' p,
      Allocate st size (2 ^ k) = Done (st', p) /\
      base_ st' = base_ st /\ capacity_ st' = capacity_ st /\
      current_ st' = fst (spec_Allocate st size (2 ^ k)) /\
      p = default 0 (snd (spec_Allocate st size (2 ^ k))).
  Proof.
    intros (Hb & Hc & Hcur & Hend) Hk Hsz Hno.
    pose proof (pow2_in_word k Hk) as Ha.
    pose proof (align_up_bounds (current_ st) (2 ^ k) ltac:(lia)) as [HT _].
    unfold Allocate, spec_Allocate, Allocate_body.
    rewrite IsPowerOfTwo_pow2 by exact Hk.
    destruct (Z.ltb_spec 0 size) as [_|]; [simpl|lia].
    rewrite AlignUp_pow2 by (unfold in_word; lia).
    set (T := align_up (current_ st) (2 ^ k)) in *.
    rewrite wrap_sub_l.
    rewrite (wrap_small (T - current_ st)) by (unfold in_word; lia).
    rewrite (wrap_small (T - current_ st + size)) by (unfold in_word; lia).
    rewrite (wrap_small (current_ st - base_ st)) by (unfold in_word; lia).
    rewrite (wrap_small (capacity_ st - _)) by (unfold in_word; lia).
    destruct (Z.ltb_spec (capacity_ st - (current_ st - base_ st)) (T - current_ st + size));
      destruct (Z.ltb_spec (base_ st + capacity_ st) (T + size)); try lia.
    - eexists _, _. split; [reflexivity|]. simpl. auto.
    - eexists _, _. split; [reflexivity|]. simpl.
      rewrite wrap_add_l. rewrite !wrap_small by (unfold in_word; lia). auto.
  Qed.

  (** One allocation of exactly [capacity] bytes fits an empty allocator. *)
Lemma Linear_Allocate_exact_capacity pages capacity st :
    0 < pages -> 0 < capacity -> pages + capacity < word_modulus ->
    LinearAllocator pages capacity = Done st ->
    exists st', Allocate st capacity 1 = Done (st', pages) /\
                GetUsedMemory st' = capacity.
  Proof.
    intros Hp Hc Hend Hnew. unfold LinearAllocator in Hnew.
    apply hive_Assert_Done in Hnew as [_ Hnew]. injection Hnew as <-.
    unfold Allocate, Allocate_body, GetUsedMemory; simpl.
    destruct (Z.ltb_spec 0 capacity) as [_|]; [simpl|lia].
    rewrite AlignUp_one by (unfold in_word; lia).
    rewrite Z.sub_diag. change (wrap 0) with 0. rewrite Z.sub_0_r. simpl.
    rewrite Z.add_0_l, !(wrap_small capacity) by (unfold in_word; lia).
    rewrite Z.ltb_irrefl. eexists. split; [reflexivity|]. simpl.
    rewrite (wrap_small (pages + capacity)) by (unfold in_word; lia).
    rewrite wrap_small by (unfold in_word; lia). lia.
  Qed.

  (** One byte more is refused, and nothing is used. *)
Lemma Linear_Allocate_capacity_plus_one pages capacity st :
    0 < pages -> 0 < capacity -> pages + capacity < word_modulus ->
    LinearAllocator pages capacity = Done st ->
    Allocate st (capacity + 1) 1 = Done (st, 0) /\ GetUsedMemory st = 0.
  Proof.
    intros Hp Hc Hend Hnew. unfold LinearAllocator in Hnew.
    apply hive_Assert_Done in Hnew as [_ Hnew]. injection Hnew as <-.
    unfold Allocate, Allocate_body, GetUsedMemory; simpl.
    destruct (Z.ltb_spec 0 (capacity + 1)) as [_|]; [simpl|lia].
    rewrite AlignUp_one by (unfold in_word; lia).
    rewrite Z.sub_diag. change (wrap 0) with 0. rewrite Z.sub_0_r. simpl.
    rewrite Z.add_0_l, (wrap_small capacity), (wrap_small (capacity + 1)) by (unfold in_word; lia).
    destruct (Z.ltb_spec capacity (capacity + 1)); [auto|lia].
  Qed.

End LinearFacts.

Section StackFacts.
Import Stack.

Lemma Stack_Allocate_body_inv st size alignment :
    inv st -> inv (fst (Allocate_body st size alignment)).
  Proof.
    intros (Hb & Hcur & Hend). unfold Allocate_body.
    set (A := AlignUp (wrap (memory_block_ st + current_ st)) alignment).
    set (ac := wrap (A - memory_block_ st)).
    set (required := wrap (wrap (ac - current_ st) + size)).
    rewrite (wrap_small (capacity_ st - _)) by (unfold in_word; lia).
    destruct (Z.ltb_spec (capacity_ st - current_ st) required) as [Hlt|Hge];
      simpl; [unfold inv; lia|].
    assert (Hreq : in_word required) by apply wrap_range.
    assert (E : wrap (ac + size) = current_ st + required).
    { rewrite <- (wrap_small (current_ st + required)) by (unfold in_word in *; lia).
      unfold required. rewrite wrap_add_r.
      replace (current_ st + (wrap (ac - current_ st) + size))
        with (wrap (ac - current_ st) + (current_ st + size)) by lia.
      rewrite wrap_add_l. f_equal. lia. }
    unfold inv; simpl. rewrite E. unfold in_word in *. lia.
  Qed.

Lemma Stack_reachable_inv st : reachable st -> inv st.
  Proof.
    induction 1 as [pages capacity st Hp Hc Hend Hnew| |st size al st' p _ IH _ _ HA
                   |st ptr _ IH|st _ IH|st marker st' _ IH Hmk HR].
    - unfold StackAllocator in Hnew.
      apply hive_Assert_Done in Hnew as [_ Hnew].
      apply hive_Assert_Done in Hnew as [_ Hnew]. injection Hnew as <-.
      unfold inv; simpl. lia.
    - unfold inv, moved_from, word_modulus, word_bits; simpl. lia.
    - unfold Allocate in HA.
      apply hive_Assert_Done in HA as [_ HA].
      apply hive_Assert_Done in HA as [_ HA]. injection HA as HA.
      pose proof (Stack_Allocate_body_inv st size al IH) as H'.
      rewrite HA in H'. exact H'.
    - exact IH.
    - destruct IH as (Hb & Hcur & Hend). unfold inv, Reset; simpl. lia.
    - destruct IH as (Hb & Hcur & Hend). unfold FreeToMarker in HR.
      apply hive_Assert_Done in HR as [H1 HR].
      apply hive_Assert_Done in HR as [H2 HR]. injection HR as <-.
      apply Z.leb_le in H1, H2. unfold inv, in_word in *; simpl. lia.
  Qed.

Lemma Stack_Allocate_no_overflow st size k :
    inv st -> 0 <= k < word_bits -> 0 < size ->
    align_up (memory_block_ st + current_ st) (2 ^ k)
      - (memory_block_ st + current_ st) + size < word_modulus ->
    exists st' p,
      Allocate st size (2 ^ k) = Done (st', p) /\
      memory_block_ st' = memory_block_ st /\ capacity_ st' = capacity_ st /\
      current_ st' = fst (spec_Allocate st size (2 ^ k)) /\
      p = default 0 (snd (spec_Allocate st size (2 ^ k))).
  Proof.
    intros (Hb & Hcur & Hend) Hk Hsz Hno.
    pose proof (pow2_in_word k Hk) as Ha.
    pose proof (align_up_bounds (memory_block_ st + current_ st) (2 ^ k) ltac:(lia)) as [HT _].
    unfold Allocate, spec_Allocate, Allocate_body.
    rewrite IsPowerOfTwo_pow2 by exact Hk.
    destruct (Z.ltb_spec 0 size) as [_|]; [simpl|lia].
    rewrite (wrap_small (memory_block_ st + current_ st)) by (unfold in_word; lia).
    rewrite AlignUp_pow2 by (unfold in_word; lia).
    set (T := align_up (memory_block_ st + current_ st) (2 ^ k)) in *.
    rewrite (wrap_sub_l T).
    assert (Hpad : wrap (wrap (T - memory_block_ st) - current_ st)
                   = T - (memory_block_ st + current_ st)).
    { rewrite wrap_sub_l. rewrite wrap_small by (unfold in_word; lia). lia. }
    rewrite Hpad.
    rewrite (wrap_small (T - (memory_block_ st + current_ st) + size)) by (unfold in_word; lia).
    rewrite (wrap_small (capacity_ st - _)) by (unfold in_word; lia).
    destruct (Z.ltb_spec (capacity_ st - current_ st) (T - (memory_block_ st + current_ st) + size));
      destruct (Z.ltb_spec (memory_block_ st + capacity_ st) (T + size)); try lia.
    - eexists _, _. split; [reflexivity|]. simpl. auto.
    - eexists _, _. split; [reflexivity|]. simpl.
      rewrite wrap_add_l. rewrite !wrap_small by (unfold in_word; lia).
      repeat split; lia.
  Qed.

Lemma Stack_Allocate_exact_capacity pages capacity st :
    0 < pages -> 0 < capacity -> pages + capacity < word_modulus ->
    StackAllocator pages capacity = Done st ->
    exists st', Allocate st capacity 1 = Done (st', pages) /\
                GetUsedMemory st' = capacity.
  Proof.
    intros Hp Hc Hend Hnew.
    assert (Hst : st = {| memory_block_ := pages; capacity_ := capacity; current_ := 0 |}).
    { unfold StackAllocator in Hnew.
      apply hive_Assert_Done in Hnew as [_ Hnew].
      apply hive_Assert_Done in Hnew as [_ Hnew]. now injection Hnew as <-. }
    subst st.
    destruct (Stack_Allocate_no_overflow
                {| memory_block_ := pages; capacity_ := capacity; current_ := 0 |}
                capacity 0) as (st' & p & HA & _ & _ & Hcur' & Hp');
      try (unfold inv, word_bits; simpl; lia).
    { simpl. unfold align_up. rewrite Z.mod_1_r. lia. }
    unfold spec_Allocate, align_up in Hcur', Hp'. simpl in Hcur', Hp'.
    rewrite Z.mod_1_r, !Z.add_0_r in Hcur', Hp'.
    destruct (Z.ltb_spec (pages + capacity) (pages + capacity)); [lia|].
    simpl in Hcur', Hp'. subst p. exists st'. split; [exact HA|].
    unfold GetUsedMemory. lia.
  Qed.

Lemma Stack_Allocate_capacity_plus_one pages capacity st :
    0 < pages -> 0 < capacity -> pages + capacity < word_modulus ->
    StackAllocator pages capacity = Done st ->
    Allocate st (capacity + 1) 1 = Done (st, 0) /\ GetUsedMemory st = 0.
  Proof.
    intros Hp Hc Hend Hnew.
    assert (Hst : st = {| memory_block_ := pages; capacity_ := capacity; current_ := 0 |}).
    { unfold StackAllocator in Hnew.
      apply hive_Assert_Done in Hnew as [_ Hnew].
      apply hive_Assert_Done in Hnew as [_ Hnew]. now injection Hnew as <-. }
    subst st. split; [|reflexivity].
    unfold Allocate, Allocate_body; simpl.
    destruct (Z.ltb_spec 0 (capacity + 1)) as [_|]; [simpl|lia].
    rewrite Z.add_0_r, (wrap_small pages) by (unfold in_word; lia).
    rewrite AlignUp_one by (unfold in_word; lia).
    rewrite Z.sub_diag. change (wrap 0) with 0. simpl.
    change (wrap (0 - 0)) with 0.
    rewrite Z.sub_0_r, Z.add_0_l, (wrap_small capacity), (wrap_small (capacity + 1))
      by (unfold in_word; lia).
    destruct (Z.ltb_spec capacity (capacity + 1)); [reflexivity|lia].
  Qed.

End StackFacts.

(** C3, evaluated where the request does not fit a word.  After one byte
    has been handed out the cursor is odd; a request of [SIZE_MAX] bytes
    aligned to 2 has padding 1, [padding + size] wraps to 0, the fit test
    passes and a non-null address is returned, where the algorithm of the
    specification ([aligned + size > base + capacity]) answers null.  The
    linear and the stack allocator behave alike. *)
Theorem C3_Allocate_size_wraps :
  let l0 := Linear.mk 4096 4096 1024 in
  let l1 := Linear.mk 4096 4097 1024 in
  let s0 := Stack.mk 4096 1024 0 in
  let s1 := Stack.mk 4096 1024 1 in
  (Linear.LinearAllocator 4096 1024 = Done l0 /\
   Linear.Allocate l0 1 1 = Done (l1, 4096) /\
   Linear.Allocate l1 SIZE_MAX 2 = Done (l1, 4098) /\
   Linear.spec_Allocate l1 SIZE_MAX 2 = (4097, None)) /\
  (Stack.StackAllocator 4096 1024 = Done s0 /\
   Stack.Allocate s0 1 1 = Done (s1, 4096) /\
   Stack.Allocate s1 SIZE_MAX 2 = Done (s1, 4098) /\
   Stack.spec_Allocate s1 SIZE_MAX 2 = (1, None)).
Proof. vm_compute. repeat split; reflexivity. Qed.

(** C6 fails as stated: a zero-size request to the linear allocator trips
    the assertion "Cannot allocate 0 bytes" and is not served. *)
Lemma C6_zero_size_is_rejected :
  Linear.Allocate (Linear.mk 4096 4096 1024) 0 8
    = AssertFailed "Cannot allocate 0 bytes" /\
  ~ (exists r, Linear.Allocate (Linear.mk 4096 4096 1024) 0 8 = Done r).
Proof.
  split; [reflexivity|]. intros [r Hr]. vm_compute in Hr. discriminate.
Qed.

(** C6, amended: for every power-of-two alignment a zero-size request to
    the linear allocator is a programming error, the assertion
    "Cannot allocate 0 bytes" fires; and the bump behind the assertion,
    run on size 0, keeps the used bytes within the capacity. *)
Theorem C6_zero_size_asserts (st : Linear.state) (k : Z) :
  Linear.reachable st -> 0 <= k < word_bits ->
  Linear.Allocate st 0 (2 ^ k) = AssertFailed "Cannot allocate 0 bytes" /\
  Linear.GetUsedMemory (fst (Linear.Allocate_body st 0 (2 ^ k)))
    <= Linear.GetTotalMemory st.
Proof.
  intros Hr Hk. split.
  - unfold Linear.Allocate. now rewrite IsPowerOfTwo_pow2.
  - apply Linear_reachable_inv in Hr.
    pose proof (Linear_Allocate_body_inv st 0 (2 ^ k) Hr) as (Hb & Hc & Hcur & Hend).
    assert (Hcap : Linear.capacity_ (fst (Linear.Allocate_body st 0 (2 ^ k)))
                   = Linear.capacity_ st /\
                   Linear.base_ (fst (Linear.Allocate_body st 0 (2 ^ k)))
                   = Linear.base_ st).
    { unfold Linear.Allocate_body. now destruct (_ <? _). }
    destruct Hcap as [Hcap Hbase].
    unfold Linear.GetUsedMemory, Linear.GetTotalMemory.
    rewrite wrap_small by (unfold in_word; lia). lia.
Qed.

Lemma C6_zero_size_asserts_witness :
  Linear.Allocate (Linear.mk 4096 4096 1024) 0 (2 ^ 3)
    = AssertFailed "Cannot allocate 0 bytes" /\
  Linear.GetUsedMemory
    (fst (Linear.Allocate_body (Linear.mk 4096 4096 1024) 0 (2 ^ 3)))
    <= Linear.GetTotalMemory (Linear.mk 4096 4096 1024).
Proof.
  apply (C6_zero_size_asserts (Linear.mk 4096 4096 1024) 3).
  - apply (Linear.reach_new 4096 1024); [lia | lia | reflexivity | reflexivity].
  - unfold word_bits. lia.
Defined.

(** C9: in every state an allocator goes through, resetting to the marker
    just taken is a no-op: no assertion fires and the state (cursor, hence
    used bytes, and capacity) is the one before, for the linear allocator
    ([ResetToMarker]) and for the stack allocator ([FreeToMarker]). *)
Theorem C9_reset_to_marker_noop (ls : Linear.state) (ss : Stack.state) :
  Linear.reachable ls -> Stack.reachable ss ->
  (Linear.ResetToMarker ls (Linear.GetMarker ls) = Done ls /\
   Stack.FreeToMarker ss (Stack.GetMarker ss) = Done ss).
Proof.
  intros Hl Hs.
  apply Linear_reachable_inv in Hl as (Hb & Hc & Hcur & Hend).
  apply Stack_reachable_inv in Hs as (Hb' & Hcur' & Hend').
  split.
  - unfold Linear.ResetToMarker, Linear.GetMarker.
    rewrite wrap_small by (unfold in_word; lia).
    destruct (Z.leb_spec (Linear.base_ ls) (Linear.current_ ls)); [|lia].
    destruct (Z.leb_spec (Linear.current_ ls) (Linear.base_ ls + Linear.capacity_ ls)); [|lia].
    simpl. now destruct ls.
  - unfold Stack.FreeToMarker, Stack.GetMarker.
    destruct (Z.leb_spec (Stack.current_ ss) (Stack.current_ ss)); [|lia].
    destruct (Z.leb_spec (Stack.current_ ss) (Stack.capacity_ ss)); [|lia].
    simpl. now destruct ss.
Qed.

Lemma C9_reset_to_marker_noop_witness :
  Linear.ResetToMarker (Linear.mk 4096 4160 1024)
    (Linear.GetMarker (Linear.mk 4096 4160 1024))
    = Done (Linear.mk 4096 4160 1024) /\
  Stack.FreeToMarker (Stack.mk 4096 1024 64) (Stack.GetMarker (Stack.mk 4096 1024 64))
    = Done (Stack.mk 4096 1024 64).
Proof.
  apply (C9_reset_to_marker_noop (Linear.mk 4096 4160 1024) (Stack.mk 4096 1024 64)).
  - apply (Linear.reach_Allocate (Linear.mk 4096 4096 1024) 64 8 _ 4096).
    + apply (Linear.reach_new 4096 1024); [lia | lia | reflexivity | reflexivity].
    + unfold in_word, word_modulus, word_bits. lia.
    + unfold in_word, word_modulus, word_bits. lia.
    + reflexivity.
  - apply (Stack.reach_Allocate (Stack.mk 4096 1024 0) 64 8 _ 4096).
    + apply (Stack.reach_new 4096 1024); [lia | lia | reflexivity | reflexivity].
    + unfold in_word, word_modulus, word_bits. lia.
    + unfold in_word, word_modulus, word_bits. lia.
    + reflexivity.
Defined.

(** ** Pool allocator *)

Section PoolFacts.
Import Pool.

Lemma chain_store_notin h head l p v :
    p ∉ l -> chain h head l -> chain (store p v h) head l.
  Proof.
    revert head. induction l as [|a l IH]; intros head Hp Hc; simpl in *; [exact Hc|].
    destruct Hc as (-> & Ha & Hc). apply not_elem_of_cons in Hp as [Hne Hp].
    repeat split; [exact Ha|].
    unfold store at 2. destruct (Z.eqb_spec a p); [congruence|]. now apply IH.
  Qed.

Lemma slots_ge slot m : 0 < slot -> forall cur a, a ∈ slots slot cur m -> cur <= a.
  Proof.
    intros Hs. induction m as [|m IH]; intros cur a Ha; simpl in Ha.
    - now apply elem_of_nil in Ha.
    - apply elem_of_cons in Ha as [->|Ha]; [lia|]. apply IH in Ha. lia.
  Qed.

Lemma slots_NoDup slot m : 0 < slot -> forall cur, NoDup (slots slot cur m).
  Proof.
    intros Hs. induction m as [|m IH]; intros cur; simpl; [constructor|].
    apply NoDup_cons. split; [|apply IH].
    intros Hin. apply slots_ge in Hin; lia.
  Qed.

Lemma slots_length slot m cur : length (slots slot cur m) = m.
  Proof. revert cur. induction m; intros; simpl; auto. Qed.

  (** [Reset] threads the slots in address order. *)
Lemma Reset_loop_chain slot n :
    0 < slot -> forall cur h,
    0 < cur -> cur + Z.of_nat n * slot < word_modulus ->
    exists h',
      Reset_loop slot n cur h = (cur + Z.of_nat n * slot, h') /\
      (forall a, a < cur -> h' a = h a) /\
      chain (store (cur + Z.of_nat n * slot) 0 h') cur (slots slot cur (S n)).
  Proof.
    intros Hs. induction n as [|n IH]; intros cur h Hc Hend.
    - exists h. simpl. rewrite Z.add_0_r. repeat split; try lia.
      unfold store. now rewrite Z.eqb_refl.
    - simpl Reset_loop.
      rewrite (wrap_small (cur + slot)) by (unfold in_word; lia).
      destruct (IH (cur + slot) (store cur (cur + slot) h)) as (h' & E & Hfr & Hch);
        [lia | lia |].
      replace (cur + slot + Z.of_nat n * slot) with (cur + Z.of_nat (S n) * slot) in * by lia.
      exists h'. split; [exact E|]. split.
      + intros a Ha. rewrite Hfr by lia. unfold store.
        destruct (Z.eqb_spec a cur); [lia|reflexivity].
      + change (slots slot cur (S (S n))) with (cur :: slots slot (cur + slot) (S n)).
        cbn [chain]. split; [reflexivity|]. split; [lia|].
        assert (E' : store (cur + Z.of_nat (S n) * slot) 0 h' cur = cur + slot).
        { unfold store at 1. destruct (Z.eqb_spec cur (cur + Z.of_nat (S n) * slot)); [lia|].
          rewrite Hfr by lia. unfold store. now rewrite Z.eqb_refl. }
        rewrite E'. exact Hch.
  Qed.

Lemma filter_ne_length (p : Z) (l : list Z) :
    NoDup l -> p ∈ l -> S (length (filter (λ q, q ≠ p) l)) = length l.
  Proof.
    induction l as [|a l IH]; intros Hnd Hin; [now apply elem_of_nil in Hin|].
    apply NoDup_cons in Hnd as [Ha Hnd]. rewrite filter_cons.
    destruct (decide (a ≠ p)) as [Hne|Heq].
    - simpl. f_equal. apply IH; [exact Hnd|].
      apply elem_of_cons in Hin as [->|]; [congruence|assumption].
    - assert (a = p) by (destruct (decide (a = p)); [assumption|contradiction]). subst a.
      simpl. f_equal.
      clear IH Hin Hnd Heq. induction l as [|b l IH]; [reflexivity|].
      apply not_elem_of_cons in Ha as [Hne Ha].
      rewrite filter_cons_True by congruence. simpl. f_equal. now apply IH.
  Qed.

Lemma Pool_reachable_inv T st live : reachable T st live -> inv st live.
  Proof.
    induction 1 as [pages h capacity st Hp Hs Hend Hnew
                   |st live size al st' p _ IH HA Hp
                   |st live size al st' _ IH HA
                   |st live p st' _ IH Hin HD
                   |st live st' _ IH HD].
    - unfold PoolAllocator in Hnew.
      apply hive_Assert_Done in Hnew as [Hcap Hnew].
      apply hive_Assert_Done in Hnew as [_ Hnew]. injection Hnew as <-.
      apply Z.ltb_lt in Hcap.
      assert (Hcw : capacity < word_modulus) by nia.
      unfold Reset; simpl.
      rewrite (wrap_small (capacity - 1)) by (unfold in_word; lia).
      destruct (Reset_loop_chain (slot_size T) (Z.to_nat (capacity - 1)) Hs pages h Hp)
        as (h' & E & _ & Hch); [nia|].
      rewrite E. simpl.
      exists (slots (slot_size T) pages (S (Z.to_nat (capacity - 1)))).
      rewrite app_nil_r, slots_length.
      refine (conj Hch (conj _ (conj _ (conj _ (conj Hcw _)))));
        [now apply slots_NoDup | reflexivity | simpl; lia | apply not_elem_of_nil].
    - destruct IH as (fl & Hch & Hnd & Hu & Hlen & Hcw & H0).
      unfold Allocate in HA.
      apply hive_Assert_Done in HA as [_ HA].
      apply hive_Assert_Done in HA as [_ HA].
      destruct (Z.eqb_spec (free_list_head_ st) 0) as [E0|Hne];
        injection HA as <- <-; [congruence|].
      destruct fl as [|a fl]; simpl in Hch; [congruence|].
      destruct Hch as (Ea & Ha & Hch). rewrite Ea in *.
      exists fl. simpl in *.
      assert (Hnd' : NoDup (fl ++ a :: live)).
      { apply NoDup_cons in Hnd as [Hnin Hnd].
        apply NoDup_app in Hnd as (Hfl & Hdis & Hlv).
        rewrite elem_of_app in Hnin.
        apply NoDup_app. repeat split; [exact Hfl| |].
        - intros x Hx Hx'. apply elem_of_cons in Hx' as [->|Hx']; [tauto|].
          now apply (Hdis x).
        - apply NoDup_cons. tauto. }
      rewrite wrap_small by (unfold in_word; lia).
      refine (conj Hch (conj Hnd' (conj _ (conj _ (conj Hcw _))))); [lia | lia |].
      apply not_elem_of_cons. split; [congruence|exact H0].
    - unfold Allocate in HA.
      apply hive_Assert_Done in HA as [_ HA].
      apply hive_Assert_Done in HA as [_ HA].
      destruct (Z.eqb_spec (free_list_head_ st) 0) as [E0|Hne].
      + injection HA as <-. exact IH.
      + injection HA as _ E. congruence.
    - destruct IH as (fl & Hch & Hnd & Hu & Hlen & Hcw & H0).
      assert (Hp : p <> 0) by (intros ->; contradiction).
      unfold Deallocate in HD.
      destruct (Z.eqb_spec p 0) as [|_]; [contradiction|].
      apply hive_Assert_Done in HD as [_ HD]. injection HD as <-.
      apply NoDup_app in Hnd as (Hfl & Hdis & Hlv).
      assert (Hpfl : p ∉ fl) by (intros Hx; now apply (Hdis p)).
      pose proof (filter_ne_length p live Hlv Hin) as Hlen'.
      exists (p :: fl). simpl.
      rewrite wrap_small by (unfold in_word; lia).
      refine (conj _ (conj _ (conj _ (conj _ (conj Hcw _))))); try lia.
      + split; [reflexivity|]. split; [exact Hp|].
        unfold store at 2. rewrite Z.eqb_refl. now apply chain_store_notin.
      + apply NoDup_cons. split.
        * rewrite elem_of_app, list_elem_of_filter. tauto.
        * apply NoDup_app. repeat split; [exact Hfl| |now apply NoDup_filter].
          intros x Hx Hx'. apply list_elem_of_filter in Hx' as [_ Hx'].
          now apply (Hdis x).
      + rewrite list_elem_of_filter. tauto.
    - unfold Deallocate in HD. simpl in HD. injection HD as <-. exact IH.
  Qed.

End PoolFacts.

(** C7: in a pool, returning a live slot [p] and allocating next hands out
    exactly [p]; and a successful [Allocate] followed by [Deallocate] of
    its result leaves [used_count_], hence [GetUsedMemory], and the head
    of the free list as they were before the pair. *)
Theorem C7_pool_recycle (T : Pool.elem) (st : Pool.state) (live : list Z) :
  Pool.reachable T st live ->
  (forall p size al,
     p ∈ live -> size <= Pool.sizeof_T T -> al <= Pool.alignof_T T ->
     exists st1 st2,
       Pool.Deallocate st p = Done st1 /\
       Pool.Allocate T st1 size al = Done (st2, p)) /\
  (forall size al st1 p,
     Pool.Allocate T st size al = Done (st1, p) -> p <> 0 ->
     exists st2,
       Pool.Deallocate st1 p = Done st2 /\
       Pool.used_count_ st2 = Pool.used_count_ st /\
       Pool.GetUsedMemory T st2 = Pool.GetUsedMemory T st /\
       Pool.free_list_head_ st2 = Pool.free_list_head_ st).
Proof.
  intros Hr. pose proof (Pool_reachable_inv T st live Hr) as Hinv.
  split.
  - intros p size al Hin Hsz Hal.
    destruct Hinv as (fl & Hch & Hnd & Hu & Hlen & Hcw & H0).
    assert (Hp : p <> 0) by (intros ->; contradiction).
    assert (Hlive : (0 < length live)%nat).
    { destruct live; [now apply elem_of_nil in Hin|simpl; lia]. }
    unfold Pool.Deallocate.
    destruct (Z.eqb_spec p 0) as [|_]; [contradiction|].
    destruct (Z.ltb_spec 0 (Pool.used_count_ st)) as [_|]; [|lia].
    eexists _, _. split; [reflexivity|].
    unfold Pool.Allocate; simpl.
    destruct (Z.leb_spec size (Pool.sizeof_T T)); [|lia].
    destruct (Z.leb_spec al (Pool.alignof_T T)); [|lia].
    simpl. destruct (Z.eqb_spec p 0) as [|_]; [contradiction|]. reflexivity.
  - intros size al st1 p HA Hp.
    pose proof (Pool.reach_Allocate T st live size al st1 p Hr HA Hp) as Hr1.
    apply Pool_reachable_inv in Hr1 as (fl1 & _ & _ & Hu1 & Hlen1 & Hcw1 & _).
    destruct Hinv as (fl & _ & _ & Hu & Hlen & Hcw & _).
    unfold Pool.Allocate in HA.
    apply hive_Assert_Done in HA as [_ HA].
    apply hive_Assert_Done in HA as [_ HA].
    destruct (Z.eqb_spec (Pool.free_list_head_ st) 0) as [E0|Hne];
      injection HA as <- <-; [congruence|].
    simpl in *. unfold Pool.Deallocate; simpl.
    destruct (Z.eqb_spec (Pool.free_list_head_ st) 0) as [|_]; [contradiction|].
    rewrite (wrap_small (Pool.used_count_ st + 1)) in * by (unfold in_word; lia).
    destruct (Z.ltb_spec 0 (Pool.used_count_ st + 1)) as [_|]; [|lia].
    eexists. split; [reflexivity|]. unfold Pool.GetUsedMemory; simpl.
    replace (Pool.used_count_ st + 1 - 1) with (Pool.used_count_ st) by lia.
    rewrite (wrap_small (Pool.used_count_ st)) by (unfold in_word; lia).
    auto.
Qed.

Lemma pool_scenario_reachable :
  Pool.reachable Enemy (pool_used 0 3) [4128; 4112; 4096].
Proof.
  apply (Pool.reach_Allocate Enemy (pool_used 4128 2) [4112; 4096] 16 8);
    [|reflexivity|lia].
  apply (Pool.reach_Allocate Enemy (pool_used 4112 1) [4096] 16 8);
    [|reflexivity|lia].
  apply (Pool.reach_Allocate Enemy pool_fresh [] 16 8);
    [|reflexivity|lia].
  apply (Pool.reach_new Enemy 4096 (fun _ => 0) 3);
    [lia|reflexivity|reflexivity|reflexivity].
Defined.

Lemma C7_pool_recycle_witness :
  (forall p size al,
     p ∈ [4128; 4112; 4096] -> size <= 16 -> al <= 8 ->
     exists st1 st2,
       Pool.Deallocate (pool_used 0 3) p = Done st1 /\
       Pool.Allocate Enemy st1 size al = Done (st2, p)) /\
  (forall size al st1 p,
     Pool.Allocate Enemy (pool_used 0 3) size al = Done (st1, p) -> p <> 0 ->
     exists st2,
       Pool.Deallocate st1 p = Done st2 /\
       Pool.used_count_ st2 = 3 /\
       Pool.GetUsedMemory Enemy st2 = Pool.GetUsedMemory Enemy (pool_used 0 3) /\
       Pool.free_list_head_ st2 = 0).
Proof.
  exact (C7_pool_recycle Enemy (pool_used 0 3) [4128; 4112; 4096]
           pool_scenario_reachable).
Defined.

(** The scenario of the specification: with p1, p2, p3 handed out,
    returning p2 and allocating again yields p2. *)
Example pool_recycle_p2 :
  exists st1 st2,
    Pool.Deallocate (pool_used 0 3) 4112 = Done st1 /\
    Pool.Allocate Enemy st1 16 8 = Done (st2, 4112).
Proof. eexists _, _. split; reflexivity. Qed.

(** ** Slab allocator *)

Section SlabFacts.
Import Slab.

  (** The scan stops at the first class that is large enough. *)
Lemma FindSlabIndex_from_spec sizes size : forall i,
    let j := FindSlabIndex_from i sizes size in
    (i <= j <= i + length sizes)%nat /\
    (forall k c, sizes !! k = Some c -> (i + k < j)%nat -> c < size) /\
    ((j < i + length sizes)%nat ->
       exists c, sizes !! (j - i)%nat = Some c /\ size <= c).
  Proof.
    induction sizes as [|c rest IH]; intros i; simpl.
    - split; [lia|]. split.
      + intros k c Hk. now rewrite lookup_nil in Hk.
      + intros Hlt. lia.
    - destruct (Z.leb_spec size c) as [Hle|Hgt].
      + split; [lia|]. split; [intros k c' _ Hlt; lia|].
        intros _. exists c.
        replace (i - i)%nat with 0%nat by lia. auto.
      + destruct (IH (S i)) as (Hb & Hlow & Hhit).
        split; [lia|]. split.
        * intros k c' Hk Hlt. destruct k as [|k]; simpl in Hk.
          -- injection Hk as <-. lia.
          -- apply (Hlow k c' Hk). lia.
        * intros Hlt. destruct Hhit as (c' & Hc' & Hle); [lia|].
          exists c'. split; [|exact Hle].
          replace (FindSlabIndex_from (S i) rest size - i)%nat
            with (S (FindSlabIndex_from (S i) rest size - S i)) by lia.
          exact Hc'.
  Qed.

Lemma IsSorted_lookup sizes :
    IsSorted sizes = true ->
    forall k1 k2 c1 c2,
      (k1 < k2)%nat -> sizes !! k1 = Some c1 -> sizes !! k2 = Some c2 -> c1 < c2.
  Proof.
    induction sizes as [|a rest IH]; intros Hs k1 k2 c1 c2 Hlt H1 H2.
    - now rewrite lookup_nil in H1.
    - destruct rest as [|b rest'].
      + destruct k2 as [|k2]; [lia|]. simpl in H2. now rewrite lookup_nil in H2.
      + simpl in Hs. apply andb_true_iff in Hs as [Hab Hs]. apply Z.ltb_lt in Hab.
        destruct k2 as [|k2]; [lia|]. simpl in H2.
        destruct k1 as [|k1]; simpl in H1.
        * injection H1 as <-.
          destruct k2 as [|k2]; simpl in H2; [injection H2 as <-; exact Hab|].
          assert (b < c2); [|lia].
          apply (IH Hs 0%nat (S k2) b c2); [lia|reflexivity|exact H2].
        * apply (IH Hs k1 k2 c1 c2); [lia|exact H1|exact H2].
  Qed.

  (** The slab picked for a request that some class can hold: it is the
      smallest class that is large enough. *)
Lemma FindSlabIndex_smallest st size c :
    IsSorted (sizes_ st) = true -> c ∈ sizes_ st -> size <= c ->
    exists ci,
      (FindSlabIndex st size < NumSlabs st)%nat /\
      sizes_ st !! FindSlabIndex st size = Some ci /\ size <= ci /\
      forall c', c' ∈ sizes_ st -> size <= c' -> ci <= c'.
  Proof.
    intros Hs Hin Hle. unfold FindSlabIndex, NumSlabs.
    destruct (FindSlabIndex_from_spec (sizes_ st) size 0) as (Hb & Hlow & Hhit).
    set (j := FindSlabIndex_from 0 (sizes_ st) size) in *. simpl in *.
    assert (Hj : (j < length (sizes_ st))%nat).
    { apply list_elem_of_lookup_1 in Hin as [k Hk].
      pose proof (lookup_lt_Some _ _ _ Hk) as Hkl.
      destruct (Nat.lt_ge_cases j (length (sizes_ st))) as [|Hge]; [assumption|].
      specialize (Hlow k c Hk). lia. }
    destruct (Hhit Hj) as (ci & Hci & Hle'). rewrite Nat.sub_0_r in Hci.
    exists ci. repeat split; try assumption.
    intros c' Hin' Hle''. apply list_elem_of_lookup_1 in Hin' as [k' Hk'].
    destruct (Nat.lt_trichotomy k' j) as [Hlt|[->|Hgt]].
    - specialize (Hlow k' c' Hk'). lia.
    - rewrite Hci in Hk'. injection Hk' as <-. lia.
    - pose proof (IsSorted_lookup _ Hs j k' ci c' Hgt Hci Hk'). lia.
  Qed.

Lemma FindSlabIndex_none st size :
    (forall c, c ∈ sizes_ st -> c < size) -> FindSlabIndex st size = NumSlabs st.
  Proof.
    intros Hall. unfold FindSlabIndex, NumSlabs.
    destruct (FindSlabIndex_from_spec (sizes_ st) size 0) as (Hb & _ & Hhit).
    simpl in *.
    destruct (Nat.lt_ge_cases (FindSlabIndex_from 0 (sizes_ st) size)
                (length (sizes_ st))) as [Hlt|Hge]; [|lia].
    destruct (Hhit Hlt) as (c & Hc & Hle).
    apply list_elem_of_lookup_2 in Hc. specialize (Hall c Hc). lia.
  Qed.

End SlabFacts.

(** C4: a request is served by the smallest slab whose rounded class is
    large enough, and by no other: where no class is large enough, or the
    free list of that slab is empty, [Allocate] returns null and changes
    nothing; otherwise it pops the head of that slab's free list.  With
    the classes {32, 64, 128, 256, 512}, 60 bytes go to the 64-byte slab
    and 200 bytes to the 256-byte slab. *)
Theorem C4_slab_routing (st : Slab.state) (size al : Z) :
  Slab.IsSorted (Slab.sizes_ st) = true ->
  length (Slab.slabs_ st) = length (Slab.sizes_ st) ->
  al <= alignof_max_align_t ->
  ((forall c, c ∈ Slab.sizes_ st -> c < size) ->
     Slab.Allocate st size al = Done (st, 0)) /\
  (forall c, c ∈ Slab.sizes_ st -> size <= c ->
     exists ci s,
       Slab.sizes_ st !! Slab.FindSlabIndex st size = Some ci /\
       Slab.slabs_ st !! Slab.FindSlabIndex st size = Some s /\
       size <= ci /\
       (forall c', c' ∈ Slab.sizes_ st -> size <= c' -> ci <= c') /\
       (Slab.free_list_head s = 0 -> Slab.Allocate st size al = Done (st, 0)) /\
       (Slab.free_list_head s <> 0 ->
          Slab.Allocate st size al =
            Done (Slab.mk (Slab.ObjectsPerSlab st) (Slab.sizes_ st)
                    (<[Slab.FindSlabIndex st size :=
                         fst (Slab.Slab_Allocate s (Slab.mem st))]> (Slab.slabs_ st))
                    (Slab.mem st),
                  Slab.free_list_head s))) /\
  (Slab.sizes_ st = map NextPowerOfTwo [32; 64; 128; 256; 512] ->
     Slab.sizes_ st !! Slab.FindSlabIndex st 60 = Some 64 /\
     Slab.sizes_ st !! Slab.FindSlabIndex st 200 = Some 256).
Proof.
  intros Hs Hlen Hal. split; [|split].
  - intros Hall. unfold Slab.Allocate.
    destruct (Z.leb_spec al alignof_max_align_t); [simpl|lia].
    rewrite (FindSlabIndex_none st size Hall).
    now rewrite (proj2 (Nat.leb_le _ _)) by lia.
  - intros c Hin Hle.
    destruct (FindSlabIndex_smallest st size c Hs Hin Hle) as (ci & Hlt & Hci & Hle' & Hmin).
    unfold Slab.NumSlabs in Hlt.
    destruct (lookup_lt_is_Some_2 (Slab.slabs_ st) (Slab.FindSlabIndex st size))
      as [s Hsl]; [lia|].
    exists ci, s. repeat split; try assumption.
    + intros Hempty. unfold Slab.Allocate.
      destruct (Z.leb_spec al alignof_max_align_t); [simpl|lia].
      rewrite (proj2 (Nat.leb_gt _ _)) by (unfold Slab.NumSlabs; lia).
      rewrite Hsl. unfold Slab.Slab_Allocate. rewrite Hempty. simpl.
      rewrite list_insert_id by exact Hsl. now destruct st.
    + intros Hhead. unfold Slab.Allocate.
      destruct (Z.leb_spec al alignof_max_align_t); [simpl|lia].
      rewrite (proj2 (Nat.leb_gt _ _)) by (unfold Slab.NumSlabs; lia).
      rewrite Hsl. unfold Slab.Slab_Allocate.
      destruct (Z.eqb_spec (Slab.free_list_head s) 0); [contradiction|].
      reflexivity.
  - intros E. unfold Slab.FindSlabIndex. rewrite E. split; reflexivity.
Qed.

Lemma C4_slab_routing_witness :
  ((forall c, c ∈ Slab.sizes_ slab_fresh -> c < 60) ->
     Slab.Allocate slab_fresh 60 8 = Done (slab_fresh, 0)) /\
  (forall c, c ∈ Slab.sizes_ slab_fresh -> 60 <= c ->
     exists ci s,
       Slab.sizes_ slab_fresh !! Slab.FindSlabIndex slab_fresh 60 = Some ci /\
       Slab.slabs_ slab_fresh !! Slab.FindSlabIndex slab_fresh 60 = Some s /\
       60 <= ci /\
       (forall c', c' ∈ Slab.sizes_ slab_fresh -> 60 <= c' -> ci <= c') /\
       (Slab.free_list_head s = 0 ->
          Slab.Allocate slab_fresh 60 8 = Done (slab_fresh, 0)) /\
       (Slab.free_list_head s <> 0 ->
          Slab.Allocate slab_fresh 60 8 =
            Done (Slab.mk (Slab.ObjectsPerSlab slab_fresh) (Slab.sizes_ slab_fresh)
                    (<[Slab.FindSlabIndex slab_fresh 60 :=
                         fst (Slab.Slab_Allocate s (Slab.mem slab_fresh))]>
                       (Slab.slabs_ slab_fresh))
                    (Slab.mem slab_fresh),
                  Slab.free_list_head s))) /\
  (Slab.sizes_ slab_fresh = map NextPowerOfTwo [32; 64; 128; 256; 512] ->
     Slab.sizes_ slab_fresh !! Slab.FindSlabIndex slab_fresh 60 = Some 64 /\
     Slab.sizes_ slab_fresh !! Slab.FindSlabIndex slab_fresh 200 = Some 256).
Proof.
  apply (C4_slab_routing slab_fresh 60 8).
  - reflexivity.
  - reflexivity.
  - unfold alignof_max_align_t. lia.
Defined.

(** The routing scenario on the allocator itself: 60 bytes come from the
    block of the 64-byte slab (at 8192), 200 bytes from that of the
    256-byte slab (at 16384). *)
Example slab_routing_scenario :
  (exists st', Slab.Allocate slab_fresh 60 8 = Done (st', 8192)) /\
  (exists st', Slab.Allocate slab_fresh 200 8 = Done (st', 16384)).
Proof. split; eexists; reflexivity. Qed.

(** ** GPU sub-allocator *)

Section GPUFacts.
Import GPU.

Lemma fold_left_wrap_sum {A} (f : A -> Z) (l : list A) (acc : Z) :
    fold_left (fun total b => wrap (total + f b)) l (wrap acc)
    = wrap (acc + foldr (fun b s => f b + s) 0 l).
  Proof.
    revert acc. induction l as [|b l IH]; intros acc; simpl.
    - now rewrite Z.add_0_r.
    - rewrite wrap_add_l, IH. f_equal. lia.
  Qed.

  (** [allocated_bytes] is the sum of the used bytes of the blocks. *)
Lemma GetAllocatedSize_sum p :
    MemoryPool.GetAllocatedSize p = wrap (sum_block_used p).
  Proof.
    unfold MemoryPool.GetAllocatedSize, sum_block_used.
    change 0 with (wrap 0) at 1. now rewrite fold_left_wrap_sum.
  Qed.

  (** [total_bytes] is the nominal block size times the number of blocks:
      the sum of the block sizes only where every block has the nominal
      size. *)
Lemma GetTotalSize_nominal p :
    (forall b, b ∈ MemoryPool.blocks p -> MemoryBlock.size b = MemoryPool.blockSize p) ->
    MemoryPool.GetTotalSize p = wrap (sum_block_sizes p).
  Proof.
    unfold MemoryPool.GetTotalSize, sum_block_sizes. intros Hall. f_equal.
    induction (MemoryPool.blocks p) as [|b l IH]; [simpl; lia|].
    change (length (b :: l)) with (S (length l)).
    cbn [foldr]. rewrite (Hall b) by apply list_elem_of_here.
    rewrite <- IH; [lia|]. intros b' Hb'. apply Hall. now apply list_elem_of_further.
  Qed.

Lemma GetPool_pool_of a type a1 p :
    GetPool a type = (a1, p) -> pool_of a1 type = Some p.
  Proof.
    unfold GetPool. destruct (pool_of a type) as [p0|] eqn:E.
    - intros [= <- <-]. exact E.
    - intros [= <- <-]. now destruct type.
  Qed.

Lemma GetPool_idem a type a1 p :
    GetPool a type = (a1, p) -> GetPool a1 type = (a1, p).
  Proof.
    intros H. apply GetPool_pool_of in H. unfold GetPool. now rewrite H.
  Qed.

Lemma resolve_type_GetPool a h a1 p :
    GetPool a (resolve_type a h) = (a1, p) -> resolve_type a1 h = resolve_type a h.
  Proof.
    unfold GetPool, resolve_type.
    destruct (hostVisiblePool_ a) as [pv|] eqn:Ev;
      destruct (hostCachedPool_ a) as [pc|] eqn:Ec; simpl;
      repeat match goal with
      | |- context [?x =? ?y] => destruct (Z.eqb_spec x y); simpl
      end;
      rewrite ?Ev, ?Ec; simpl;
      try (intros [= <- <-]; rewrite ?Ev, ?Ec; simpl;
           repeat match goal with
           | |- context [?x =? ?y] => destruct (Z.eqb_spec x y); simpl
           end; congruence);
      destruct (deviceLocalPool_ a) eqn:Ed; intros [= <- <-]; simpl;
      rewrite ?Ev, ?Ec;
      repeat match goal with
      | |- context [?x =? ?y] => destruct (Z.eqb_spec x y); simpl
      end; congruence.
  Qed.

End GPUFacts.

(** A [Deallocate] on an invalid handle changes neither the allocator
    (pools, blocks, free regions, used counters) nor the handle; a
    [Deallocate] that finds a block at the index of a valid handle, in
    the pool it resolves the handle to, returns the zeroed handle, which
    is invalid; and a second [Deallocate] on the handle the first one
    left behind is a no-op. *)
Theorem GPU_Deallocate_twice (a : GPU.GPUAllocator) (h : GPU.VulkanAllocation.t) :
  (GPU.VulkanAllocation.IsValid h = false -> GPU.Deallocate a h = (a, h)) /\
  (GPU.VulkanAllocation.IsValid h = true ->
   is_Some (GPU.MemoryPool.blocks (snd (GPU.GetPool a (GPU.resolve_type a h)))
              !! Z.to_nat (GPU.VulkanAllocation.blockIndex h)) ->
   snd (GPU.Deallocate a h) = GPU.VulkanAllocation.empty /\
   GPU.VulkanAllocation.IsValid (snd (GPU.Deallocate a h)) = false) /\
  GPU.Deallocate (fst (GPU.Deallocate a h)) (snd (GPU.Deallocate a h))
    = GPU.Deallocate a h.
Proof.
  split; [|split].
  - intros Hv. unfold GPU.Deallocate. now rewrite Hv.
  - intros Hv [b Hb]. unfold GPU.Deallocate. rewrite Hv. simpl.
    destruct (GPU.GetPool a (GPU.resolve_type a h)) as [a1 pool] eqn:E.
    simpl in Hb. rewrite Hb. simpl. split; reflexivity.
  - unfold GPU.Deallocate at 2 3 4.
    destruct (GPU.VulkanAllocation.IsValid h) eqn:Hv; simpl.
    2:{ unfold GPU.Deallocate. now rewrite Hv. }
    destruct (GPU.GetPool a (GPU.resolve_type a h)) as [a1 pool] eqn:E.
    destruct (GPU.MemoryPool.blocks pool
                !! Z.to_nat (GPU.VulkanAllocation.blockIndex h)) as [b|] eqn:Hb; simpl.
    + reflexivity.
    + unfold GPU.Deallocate. rewrite Hv. simpl.
      rewrite (resolve_type_GetPool a h a1 pool E).
      rewrite (GetPool_idem _ _ _ _ E). now rewrite Hb.
Qed.

(** C8, evaluated on a device whose pools share a memory type.  With one
    memory type for device-local and host-visible memory, both pools
    have memory type index 0.  After a staging buffer from the
    host-visible pool and two device-local buffers of 200 MiB, the handle
    of the second buffer names block 1 of the device-local pool.
    [Deallocate] picks the pool by the memory type index of the handle,
    host-visible first: it looks for block 1 in the host-visible pool,
    which has one block, and returns at "Invalid block index in
    deallocation": the handle is left as it was, valid, and nothing is
    given back. *)
Theorem C8_Deallocate_leaves_live_handle_valid :
  GPU.VulkanAllocation.IsValid (snd gpu_unified_second) = true /\
  GPU.VulkanAllocation.blockIndex (snd gpu_unified_second) = 1 /\
  GPU.VulkanAllocation.memoryTypeIndex (snd gpu_unified_second) = 0 /\
  (exists deviceLocal hostVisible,
     GPU.deviceLocalPool_ (fst gpu_unified_second) = Some deviceLocal /\
     GPU.hostVisiblePool_ (fst gpu_unified_second) = Some hostVisible /\
     GPU.MemoryPool.memoryTypeIndex deviceLocal = 0 /\
     GPU.MemoryPool.memoryTypeIndex hostVisible = 0 /\
     map GPU.MemoryBlock.used (GPU.MemoryPool.blocks deviceLocal)
       = [200 * MiB; 200 * MiB] /\
     map GPU.MemoryBlock.used (GPU.MemoryPool.blocks hostVisible) = [64]) /\
  GPU.resolve_type (fst gpu_unified_second) (snd gpu_unified_second)
    = GPU.HostVisible /\
  GPU.Deallocate (fst gpu_unified_second) (snd gpu_unified_second)
    = (fst gpu_unified_second, snd gpu_unified_second) /\
  GPU.VulkanAllocation.IsValid
    (snd (GPU.Deallocate (fst gpu_unified_second) (snd gpu_unified_second))) = true.
Proof.
  vm_compute. repeat split; try reflexivity. eexists _, _. repeat split; reflexivity.
Qed.

(** The handle of the scenario is valid and its block is found, so the
    first [Deallocate] does zero it. *)
Example gpu_one_byte_handle_resolves :
  GPU.VulkanAllocation.IsValid (snd gpu_one_byte) = true /\
  is_Some (GPU.MemoryPool.blocks
             (snd (GPU.GetPool (fst gpu_one_byte)
                     (GPU.resolve_type (fst gpu_one_byte) (snd gpu_one_byte))))
             !! Z.to_nat (GPU.VulkanAllocation.blockIndex (snd gpu_one_byte))).
Proof. split; [reflexivity|]. vm_compute. eexists. reflexivity. Qed.

(** C5, evaluated on a pool with an oversized block.  A request of
    300 MiB on a pool of nominal block size 256 MiB creates one block of
    300 MiB + 256 bytes; [GetStats] reports [totalBytes] = 256 MiB, the
    nominal size times the block count, where the sum of the block sizes
    is 300 MiB + 256 (and [allocatedBytes], 300 MiB, is the sum of the
    used bytes and exceeds the reported total). *)
Theorem C5_total_bytes_ignores_oversized_block :
  exists pool,
    GPU.deviceLocalPool_ gpu_oversized = Some pool /\
    map GPU.MemoryBlock.size (GPU.MemoryPool.blocks pool) = [300 * MiB + 256] /\
    GPU.sum_block_sizes pool = 300 * MiB + 256 /\
    GPU.totalBytes (snd (GPU.GetStats gpu_oversized GPU.DeviceLocal)) = 256 * MiB /\
    GPU.sum_block_used pool = 300 * MiB /\
    GPU.allocatedBytes (snd (GPU.GetStats gpu_oversized GPU.DeviceLocal)) = 300 * MiB.
Proof. vm_compute. eexists. repeat split; reflexivity. Qed.

(** C2, evaluated where the request does not fit a word.  In a block of
    256 MiB, after one byte has been handed out the free region starts at
    offset 1; a request of [SIZE_MAX] bytes aligned to 2 has padding 1,
    [allocSize + padding] wraps to 0, the region is taken to fit and a
    valid handle is returned.  Returning that handle leaves two free
    regions whose sizes, with the used bytes, add up to more than the
    size of the block. *)
Theorem C2_free_regions_exceed_block :
  GPU.VulkanAllocation.IsValid (snd gpu_huge) = true /\
  GPU.VulkanAllocation.offset (snd gpu_huge) = 2 /\
  GPU.VulkanAllocation.size (snd gpu_huge) = SIZE_MAX /\
  exists pool block,
    GPU.deviceLocalPool_ (fst (GPU.Deallocate (fst gpu_huge) (snd gpu_huge)))
      = Some pool /\
    GPU.MemoryPool.blocks pool = [block] /\
    GPU.MemoryBlock.size block = 256 * MiB /\
    GPU.MemoryBlock.freeRegions block
      = [GPU.FreeRegion.mk 1 (256 * MiB - 1); GPU.FreeRegion.mk 2 SIZE_MAX] /\
    GPU.MemoryBlock.used block = 2 /\
    GPU.MemoryBlock.size block < GPU.sum_free block + GPU.MemoryBlock.used block.
Proof. vm_compute. repeat split; try reflexivity. eexists _, _. repeat split; reflexivity. Qed.

(** ** Buddy allocator *)

Section BuddyArith.
Import Buddy.

Lemma level_size_pow2 k : level_size k = 2 ^ (6 + Z.of_nat k).
  Proof.
    unfold level_size, MinBlockSize. rewrite Z.pow_add_r by lia. reflexivity.
  Qed.

Lemma level_size_pos k : 0 < level_size k.
  Proof. rewrite level_size_pow2. apply Z.pow_pos_nonneg; lia. Qed.

Lemma level_size_S k : level_size (S k) = 2 * level_size k.
  Proof.
    unfold level_size. rewrite Nat2Z.inj_succ, Z.pow_succ_r by lia. lia.
  Qed.

Lemma level_size_le k1 k2 : (k1 <= k2)%nat -> level_size k1 <= level_size k2.
  Proof.
    intros H. rewrite !level_size_pow2. apply Z.pow_le_mono_r; lia.
  Qed.

Lemma level_size_lt k1 k2 : (k1 < k2)%nat -> 2 * level_size k1 <= level_size k2.
  Proof.
    intros H. rewrite <- level_size_S. apply level_size_le. lia.
  Qed.

Lemma level_size_inj k1 k2 : level_size k1 = level_size k2 -> k1 = k2.
  Proof.
    intros H. destruct (Nat.lt_trichotomy k1 k2) as [Hlt|[E|Hgt]]; [|exact E|].
    - pose proof (level_size_lt _ _ Hlt). pose proof (level_size_pos k1). lia.
    - pose proof (level_size_lt _ _ Hgt). pose proof (level_size_pos k2). lia.
  Qed.

Lemma level_size_divides k1 k2 :
    (k1 <= k2)%nat -> exists m, 0 < m /\ level_size k2 = m * level_size k1.
  Proof.
    intros H. exists (2 ^ Z.of_nat (k2 - k1)). split; [apply Z.pow_pos_nonneg; lia|].
    unfold level_size. replace (Z.of_nat k2) with (Z.of_nat (k2 - k1) + Z.of_nat k1) by lia.
    rewrite Z.pow_add_r by lia. lia.
  Qed.

Lemma level_size_bound k : (k <= MaxLevels)%nat -> level_size k <= 2 ^ 26.
  Proof.
    intros H. rewrite level_size_pow2. apply Z.pow_le_mono_r; unfold MaxLevels in *; lia.
  Qed.

Lemma level_size_in_word k : (k <= MaxLevels)%nat -> in_word (level_size k).
  Proof.
    intros H. pose proof (level_size_bound k H). pose proof (level_size_pos k).
    unfold in_word, word_modulus, word_bits. lia.
  Qed.

Lemma shiftl1_level_size k :
    (k < MaxLevels)%nat -> wrap (Z.shiftl (level_size k) 1) = level_size (S k).
  Proof.
    intros H. rewrite Z.shiftl_mul_pow2 by lia. change (2 ^ 1) with 2.
    rewrite level_size_S. rewrite Z.mul_comm. rewrite <- level_size_S.
    apply wrap_small, level_size_in_word. lia.
  Qed.

Lemma GetBlockSize_level_size k :
    (k < MaxLevels)%nat -> GetBlockSize k = level_size k.
  Proof.
    intros H. unfold GetBlockSize. rewrite Z.shiftl_mul_pow2 by lia.
    fold (level_size k). apply wrap_small, level_size_in_word. lia.
  Qed.

  (** The level found is the least level whose blocks are large enough,
      [MaxLevels] where there is none. *)
Lemma GetLevel_loop_spec size fuel : forall level,
    (level + fuel = MaxLevels)%nat ->
    let r := GetLevel_loop fuel (level_size level) level size in
    (level <= r <= MaxLevels)%nat /\
    ((r < MaxLevels)%nat -> size <= level_size r) /\
    ((level < r)%nat -> level_size (r - 1) < size).
  Proof.
    induction fuel as [|fuel IH]; intros level Hf; simpl.
    - repeat split; try lia.
    - destruct (Z.ltb_spec (level_size level) size) as [Hlt|Hge]; simpl.
      + destruct (Nat.ltb_spec level MaxLevels) as [Hl|Hl]; [|lia].
        rewrite shiftl1_level_size by exact Hl.
        destruct (IH (S level)) as (Hb & Hup & Hlow); [lia|].
        split; [lia|]. split; [exact Hup|].
        intros _. destruct (Nat.eq_dec (GetLevel_loop fuel (level_size (S level)) (S level) size) (S level)) as [E|NE].
        * rewrite E. replace (S level - 1)%nat with level by lia. exact Hlt.
        * apply Hlow. lia.
      + repeat split; try lia.
  Qed.

Lemma GetLevel_spec size :
    ((GetLevel size <= MaxLevels)%nat) /\
    ((GetLevel size < MaxLevels)%nat -> size <= level_size (GetLevel size)) /\
    ((0 < GetLevel size)%nat -> level_size (GetLevel size - 1) < size).
  Proof.
    destruct (GetLevel_loop_spec size MaxLevels 0 eq_refl) as (Hb & Hup & Hlow).
    change (level_size 0) with MinBlockSize in *. fold (GetLevel size) in *.
    repeat split; [lia|exact Hup|exact Hlow].
  Qed.

Lemma GetLevel_level_size k :
    (k < MaxLevels)%nat -> GetLevel (level_size k) = k.
  Proof.
    intros Hk. destruct (GetLevel_spec (level_size k)) as (Hb & Hup & Hlow).
    set (r := GetLevel (level_size k)) in *.
    destruct (Nat.lt_trichotomy r k) as [Hlt|[E|Hgt]]; [|exact E|].
    - pose proof (level_size_lt _ _ Hlt). pose proof (level_size_pos r).
      specialize (Hup ltac:(lia)). lia.
    - specialize (Hlow ltac:(lia)).
      pose proof (level_size_le k (r - 1) ltac:(lia)). lia.
  Qed.

  (** A block size above the top level has no level. *)
Lemma GetLevel_too_large size :
    level_size (MaxLevels - 1) < size -> GetLevel size = MaxLevels.
  Proof.
    intros Hs. destruct (GetLevel_spec size) as (Hb & Hup & _).
    destruct (Nat.eq_dec (GetLevel size) MaxLevels) as [E|NE]; [exact E|].
    specialize (Hup ltac:(lia)).
    pose proof (level_size_le (GetLevel size) (MaxLevels - 1) ltac:(lia)). lia.
  Qed.

Lemma lxor_one q :
    0 <= q -> Z.lxor q 1 = if Z.even q then q + 1 else q - 1.
  Proof.
    intros Hq.
    assert (Heven : forall e, Z.even e = true -> Z.lxor e 1 = e + 1).
    { intros e He. symmetry. apply Z.add_nocarry_lxor.
      change 1 with (Z.ones 1). rewrite Z.land_ones by lia.
      change (2 ^ 1) with 2. rewrite Zmod_even, He. reflexivity. }
    destruct (Z.even q) eqn:E; [now apply Heven|].
    assert (He : Z.even (q - 1) = true).
    { rewrite Z.even_sub, E. reflexivity. }
    replace q with ((q - 1) + 1) at 1 by lia.
    rewrite <- (Heven _ He), Z.lxor_assoc, Z.lxor_nilpotent, Z.lxor_0_r. reflexivity.
  Qed.

  (** The buddy of the block number [q] of a level is its neighbour:
      the next block where [q] is even, the one before where it is odd. *)
Lemma lxor_buddy q k :
    0 <= q ->
    Z.lxor (q * level_size k) (level_size k)
    = if Z.even q then (q + 1) * level_size k else (q - 1) * level_size k.
  Proof.
    intros Hq. rewrite level_size_pow2.
    rewrite <- !Z.shiftl_mul_pow2 by lia.
    replace (2 ^ (6 + Z.of_nat k)) with (Z.shiftl 1 (6 + Z.of_nat k))
      by (rewrite Z.shiftl_mul_pow2 by lia; lia).
    rewrite <- Z.shiftl_lxor, lxor_one by exact Hq.
    now destruct (Z.even q).
  Qed.

Lemma lxor_involutive a s : Z.lxor (Z.lxor a s) s = a.
  Proof. now rewrite Z.lxor_assoc, Z.lxor_nilpotent, Z.lxor_0_r. Qed.

End BuddyArith.

Section BuddyTiling.
Import Buddy.

Variable ext : Z.
Variables B B' : owner -> Z -> nat -> Prop.
Hypothesis HB : tiling ext B.

  (** A block changes hands. *)
Lemma tiling_rename w0 w1 :
    (forall o k, ~ B w1 o k) ->
    (forall w o k, B' w o k <->
       (w <> w0 /\ w <> w1 /\ B w o k) \/ (w = w1 /\ B w0 o k)) ->
    tiling ext B'.
  Proof.
    intros Hfresh HB'. destruct HB as [Hshape Hdis Hcov]. constructor.
    - intros w o k Hw. apply HB' in Hw as [(_ & _ & Hw)|(_ & Hw)]; eauto.
    - intros wa oa ka wb ob kb x Ha Hb Hxa Hxb.
      apply HB' in Ha as [(Ha0 & Ha1 & Ha)|(-> & Ha)];
        apply HB' in Hb as [(Hb0 & Hb1 & Hb)|(-> & Hb)];
        try reflexivity.
      + exact (Hdis _ _ _ _ _ _ x Ha Hb Hxa Hxb).
      + exfalso. apply Ha0. exact (Hdis _ _ _ _ _ _ x Ha Hb Hxa Hxb).
      + exfalso. apply Hb0. symmetry. exact (Hdis _ _ _ _ _ _ x Ha Hb Hxa Hxb).
    - intros x Hx. destruct (Hcov x Hx) as (w & o & k & Hw & Hin).
      destruct (decide (w = w0)) as [->|Hne].
      + exists w1, o, k. split; [|exact Hin]. apply HB'. right. auto.
      + exists w, o, k. split; [|exact Hin]. apply HB'. left.
        repeat split; [exact Hne| |exact Hw]. intros ->. exact (Hfresh _ _ Hw).
  Qed.

  (** The block in hand is split: the lower half stays in hand, the
      upper half goes to [wf]. *)
Lemma tiling_split wf o k :
    B Hand o (S k) ->
    (forall o' k', B Hand o' k' -> o' = o /\ k' = S k) ->
    (forall o' k', ~ B wf o' k') -> wf <> Hand ->
    (forall w o' k', B' w o' k' <->
       (w <> Hand /\ w <> wf /\ B w o' k') \/
       (w = Hand /\ o' = o /\ k' = k) \/
       (w = wf /\ o' = o + level_size k /\ k' = k)) ->
    tiling ext B'.
  Proof.
    intros Hhand Huniq Hfresh Hwf HB'. destruct HB as [Hshape Hdis Hcov].
    destruct (Hshape _ _ _ Hhand) as (Ho & Hend & q & Hq).
    pose proof (level_size_pos k) as Hs. rewrite level_size_S in Hend, Hq.
    assert (Hsub : forall x, inblock o k x \/ inblock (o + level_size k) k x ->
                             inblock o (S k) x).
    { intros x. unfold inblock. rewrite level_size_S. lia. }
    constructor.
    - intros w o' k' Hw.
      apply HB' in Hw as [(_ & _ & Hw)|[(_ & -> & ->)|(_ & -> & ->)]]; [eauto| |].
      + split; [lia|]. split; [lia|]. exists (2 * q). lia.
      + split; [lia|]. split; [lia|]. exists (2 * q + 1). lia.
    - intros wa oa ka wb ob kb x Ha Hb Hxa Hxb.
      apply HB' in Ha as [(Ha0 & Ha1 & Ha)|[(-> & -> & ->)|(-> & -> & ->)]];
        apply HB' in Hb as [(Hb0 & Hb1 & Hb)|[(-> & -> & ->)|(-> & -> & ->)]];
        try reflexivity;
        try (exfalso; unfold inblock in *; lia).
      + exact (Hdis _ _ _ _ _ _ x Ha Hb Hxa Hxb).
      + exfalso. apply Ha0. apply (Hdis _ _ _ _ _ _ x Ha Hhand Hxa). apply Hsub. auto.
      + exfalso. apply Ha0. apply (Hdis _ _ _ _ _ _ x Ha Hhand Hxa). apply Hsub. auto.
      + exfalso. apply Hb0. apply (Hdis _ _ _ _ _ _ x Hb Hhand Hxb). apply Hsub. auto.
      + exfalso. apply Hb0. apply (Hdis _ _ _ _ _ _ x Hb Hhand Hxb). apply Hsub. auto.
    - intros x Hx. destruct (Hcov x Hx) as (w & o' & k' & Hw & Hin).
      destruct (decide (w = Hand)) as [->|Hne].
      + destruct (Huniq _ _ Hw) as [-> ->].
        unfold inblock in Hin. rewrite level_size_S in Hin.
        destruct (Z_lt_le_dec x (o + level_size k)).
        * exists Hand, o, k. split; [apply HB'; auto|unfold inblock; lia].
        * exists wf, (o + level_size k), k.
          split; [apply HB'; auto|unfold inblock; lia].
      + exists w, o', k'. split; [|exact Hin]. apply HB'. left.
        repeat split; [exact Hne| |exact Hw]. intros ->. exact (Hfresh _ _ Hw).
  Qed.

  (** The block in hand and its free buddy, held by [wf], are merged into
      the block in hand one level up. *)
Lemma tiling_merge wf o k b :
    B Hand o k ->
    (forall o' k', B Hand o' k' -> o' = o /\ k' = k) ->
    B wf b k ->
    (forall o' k', B wf o' k' -> o' = b /\ k' = k) ->
    wf <> Hand ->
    b = Z.lxor o (level_size k) ->
    (forall w o' k', B' w o' k' <->
       (w <> Hand /\ w <> wf /\ B w o' k') \/
       (w = Hand /\ o' = Z.min o b /\ k' = S k)) ->
    tiling ext B'.
  Proof.
    intros Hhand Huniq Hbud Hbuniq Hwf Hb HB'. destruct HB as [Hshape Hdis Hcov].
    destruct (Hshape _ _ _ Hhand) as (Ho & Hend & q & Hq).
    destruct (Hshape _ _ _ Hbud) as (Hob & Hendb & _).
    pose proof (level_size_pos k) as Hs.
    assert (Hq0 : 0 <= q) by nia.
    rewrite Hq, lxor_buddy in Hb by exact Hq0.
    assert (Hmin : exists q', Z.min o b = q' * level_size (S k) /\
                   forall x, inblock (Z.min o b) (S k) x <->
                             inblock o k x \/ inblock b k x).
    { rewrite level_size_S. unfold inblock. rewrite level_size_S.
      destruct (Z.even q) eqn:E.
      - apply Z.even_spec in E as [m Hm]. exists m. split; [nia|]. intros x. nia.
      - assert (Hodd : Z.odd q = true) by (rewrite <- Z.negb_even, E; reflexivity).
        apply Z.odd_spec in Hodd as [m Hm]. exists m. split; [nia|]. intros x. nia. }
    destruct Hmin as (q' & Hq' & Hunion).
    constructor.
    - intros w o' k' Hw.
      apply HB' in Hw as [(_ & _ & Hw)|(_ & -> & ->)]; [eauto|].
      split; [lia|]. split; [|exists q'; exact Hq'].
      rewrite level_size_S. destruct (Z.even q); nia.
    - intros wa oa ka wb ob kb x Ha Hb' Hxa Hxb.
      apply HB' in Ha as [(Ha0 & Ha1 & Ha)|(-> & -> & ->)];
        apply HB' in Hb' as [(Hb0 & Hb1 & Hb')|(-> & -> & ->)];
        try reflexivity.
      + exact (Hdis _ _ _ _ _ _ x Ha Hb' Hxa Hxb).
      + exfalso. apply Hunion in Hxb as [Hxb|Hxb].
        * apply Ha0. exact (Hdis _ _ _ _ _ _ x Ha Hhand Hxa Hxb).
        * apply Ha1. exact (Hdis _ _ _ _ _ _ x Ha Hbud Hxa Hxb).
      + exfalso. apply Hunion in Hxa as [Hxa|Hxa].
        * apply Hb0. exact (Hdis _ _ _ _ _ _ x Hb' Hhand Hxb Hxa).
        * apply Hb1. exact (Hdis _ _ _ _ _ _ x Hb' Hbud Hxb Hxa).
    - intros x Hx. destruct (Hcov x Hx) as (w & o' & k' & Hw & Hin).
      destruct (decide (w = Hand)) as [->|Hne].
      + destruct (Huniq _ _ Hw) as [-> ->].
        exists Hand, (Z.min o b), (S k). split; [apply HB'; auto|]. apply Hunion. auto.
      + destruct (decide (w = wf)) as [->|Hne'].
        * destruct (Hbuniq _ _ Hw) as [-> ->].
          exists Hand, (Z.min o b), (S k). split; [apply HB'; auto|]. apply Hunion. auto.
        * exists w, o', k'. split; [|exact Hin]. apply HB'. left. auto.
  Qed.

End BuddyTiling.

Section BuddyLists.
Import Buddy.

Lemma free_at_insert fl k l k' :
    (k < length fl)%nat ->
    free_at (<[k := l]> fl) k' = if decide (k = k') then l else free_at fl k'.
  Proof.
    intros Hk. unfold free_at. destruct (decide (k = k')) as [<-|Hne].
    - now rewrite list_lookup_insert_eq.
    - now rewrite list_lookup_insert_ne.
  Qed.

Lemma free_at_push fl k a k' :
    (k < length fl)%nat ->
    free_at (push k a fl) k' = if decide (k = k') then a :: free_at fl k else free_at fl k'.
  Proof. intros Hk. unfold push. now rewrite free_at_insert. Qed.

Lemma length_push fl k a : length (push k a fl) = length fl.
  Proof. unfold push. apply length_insert. Qed.

Lemma free_at_ge fl k : (length fl <= k)%nat -> free_at fl k = [].
  Proof. intros H. unfold free_at. now rewrite lookup_ge_None_2. Qed.

Lemma elem_of_unlink a l x :
    NoDup l -> x ∈ unlink a l <-> x ∈ l /\ x <> a.
  Proof.
    induction l as [|y l IH]; intros Hnd; simpl.
    - rewrite elem_of_nil. tauto.
    - apply NoDup_cons in Hnd as [Hy Hnd].
      destruct (Z.eqb_spec y a) as [->|Hne].
      + rewrite elem_of_cons. split; [|tauto].
        intros Hx. split; [tauto|]. intros ->. contradiction.
      + rewrite !elem_of_cons, IH by exact Hnd. split.
        * intros [->|[? ?]]; tauto.
        * intros [[->|?] ?]; tauto.
  Qed.

Lemma NoDup_unlink a l : NoDup l -> NoDup (unlink a l).
  Proof.
    induction l as [|y l IH]; intros Hnd; simpl; [constructor|].
    apply NoDup_cons in Hnd as [Hy Hnd].
    destruct (Z.eqb_spec y a); [exact Hnd|].
    apply NoDup_cons. split; [|now apply IH].
    rewrite elem_of_unlink by exact Hnd. tauto.
  Qed.

Lemma existsb_eqb_elem_of b l : existsb (Z.eqb b) l = true <-> b ∈ l.
  Proof.
    induction l as [|y l IH]; simpl.
    - rewrite elem_of_nil. split; [discriminate|tauto].
    - rewrite orb_true_iff, IH, elem_of_cons, Z.eqb_eq. tauto.
  Qed.

Lemma sum_headers_store_notin hdr live a v :
    (forall p, p ∈ live -> p - sizeof_AllocationHeader <> a) ->
    sum_headers (store a v hdr) live = sum_headers hdr live.
  Proof.
    induction live as [|p live IH]; intros H; simpl; [reflexivity|].
    rewrite IH by (intros q Hq; apply H; now apply list_elem_of_further).
    unfold store at 1. destruct (Z.eqb_spec (p - sizeof_AllocationHeader) a) as [E|_].
    - exfalso. apply (H p); [apply list_elem_of_here|exact E].
    - reflexivity.
  Qed.

Lemma sum_headers_filter hdr live p :
    NoDup live -> p ∈ live ->
    sum_headers hdr live
    = hdr (p - sizeof_AllocationHeader) + sum_headers hdr (filter (λ q, q ≠ p) live).
  Proof.
    induction live as [|y live IH]; intros Hnd Hin; [now apply elem_of_nil in Hin|].
    apply NoDup_cons in Hnd as [Hy Hnd]. rewrite filter_cons.
    destruct (decide (y ≠ p)) as [Hne|Heq].
    - simpl. rewrite IH; [lia|exact Hnd|].
      apply elem_of_cons in Hin as [->|]; [congruence|assumption].
    - assert (y = p) by (destruct (decide (y = p)); [assumption|contradiction]). subst y.
      simpl. f_equal.
      clear IH Hin Hnd Heq. induction live as [|b live IH]; [reflexivity|].
      apply not_elem_of_cons in Hy as [Hne Hy].
      rewrite filter_cons_True by congruence. simpl. f_equal. now apply IH.
  Qed.

End BuddyLists.

Section BuddyOps.
Import Buddy.
#[local] Set Warnings "-clear-no-such-hyp".

Variables (top : nat) (base cap : Z).

Lemma owns_hand_uniq fl hdr live o k o' k' :
    owns base fl hdr live (Some (o, k)) Hand o' k' -> o' = o /\ k' = k.
  Proof. simpl. intros [= -> ->]. auto. Qed.

  (** Popping the head of a free list takes the block in hand. *)
Lemma inv_pop fl hdr live c a next :
    inv top base cap fl hdr live None ->
    (c < MaxLevels)%nat -> free_at fl c = a :: next ->
    inv top base cap (<[c := next]> fl) hdr live (Some (a - base, c)).
  Proof.
    intros [Htop Hcap Hbase Hlen Htil Hndf Hndl Hlh Hnb] Hc Hfa.
    pose proof (Hndf c) as Hndc. rewrite Hfa in Hndc.
    apply NoDup_cons in Hndc as [Ha Hnext].
    assert (Hsub : forall k x, x ∈ free_at (<[c := next]> fl) k -> x ∈ free_at fl k).
    { intros k x. rewrite free_at_insert by lia.
      destruct (decide (c = k)) as [<-|]; [|tauto].
      rewrite Hfa. apply list_elem_of_further. }
    constructor; try assumption.
    - now rewrite length_insert.
    - apply (tiling_rename _ _ _ Htil (Free c a) Hand).
      + intros o k. simpl. discriminate.
      + intros w o k. destruct w as [k' x|p|]; simpl;
          rewrite ?free_at_insert by lia; try case_decide; subst;
          rewrite ?Hfa, ?elem_of_cons; naive_solver.
    - intros k. rewrite free_at_insert by lia.
      destruct (decide (c = k)); [exact Hnext|apply Hndf].
    - intros k x y Hx Hy. apply Hnb; now apply Hsub.
  Qed.

Lemma lxor_level_size_ne o k : Z.lxor o (level_size k) <> o.
  Proof.
    intros E. pose proof (level_size_pos k) as Hs.
    assert (H : Z.lxor o (Z.lxor o (level_size k)) = level_size k).
    { now rewrite <- Z.lxor_assoc, Z.lxor_nilpotent, Z.lxor_0_l. }
    rewrite E, Z.lxor_nilpotent in H. lia.
  Qed.

Lemma shape_level_le o k :
    0 <= o -> o + level_size k <= level_size top -> (k <= top)%nat.
  Proof.
    intros Ho He. destruct (Nat.le_gt_cases k top) as [|Hgt]; [assumption|].
    pose proof (level_size_lt _ _ Hgt). pose proof (level_size_pos top). lia.
  Qed.

Lemma inv_hand_level fl hdr live o k :
    inv top base cap fl hdr live (Some (o, k)) -> (k <= top)%nat.
  Proof.
    intros Hinv. destruct (tiling_shape _ _ (inv_tiling _ _ _ _ _ _ _ Hinv) Hand o k)
      as (Ho & He & _); [reflexivity|].
    now apply (shape_level_le o).
  Qed.

  (** No free block meets the block in hand. *)
Lemma hand_free_disjoint fl hdr live o k k' x y :
    inv top base cap fl hdr live (Some (o, k)) ->
    x ∈ free_at fl k' -> inblock (x - base) k' y -> inblock o k y -> False.
  Proof.
    intros Hinv Hx Hy1 Hy2.
    assert (E : Free k' x = Hand); [|discriminate].
    apply (tiling_disjoint _ _ (inv_tiling _ _ _ _ _ _ _ Hinv)
             (Free k' x) (x - base) k' Hand o k y); simpl; auto.
  Qed.

Lemma hand_live_disjoint fl hdr live o k p :
    inv top base cap fl hdr live (Some (o, k)) ->
    p ∈ live -> p - sizeof_AllocationHeader <> base + o.
  Proof.
    intros Hinv Hp E.
    destruct (inv_live_hdr _ _ _ _ _ _ _ Hinv p Hp) as (kp & Hkp & Hlt).
    pose proof (level_size_pos k). pose proof (level_size_pos kp).
    assert (E' : Live p = Hand); [|discriminate].
    apply (tiling_disjoint _ _ (inv_tiling _ _ _ _ _ _ _ Hinv)
             (Live p) o kp Hand o k o); simpl; auto; unfold inblock; try lia.
    repeat split; auto. lia.
  Qed.

  (** One turn of the split loop. *)
Lemma inv_split_step fl hdr live o k :
    inv top base cap fl hdr live (Some (o, S k)) ->
    inv top base cap (push k (base + o + level_size k) fl) hdr live (Some (o, k)).
  Proof.
    intros Hinv. pose proof (inv_hand_level _ _ _ _ _ Hinv) as Hk.
    pose proof Hinv as [Htop Hcap Hbase Hlen Htil Hndf Hndl Hlh Hnb].
    pose proof (level_size_pos k) as Hs.
    destruct (tiling_shape _ _ Htil Hand o (S k)) as (Ho & He & q & Hq); [reflexivity|].
    rewrite level_size_S in He, Hq.
    assert (Hin : forall x, x ∈ free_at fl k ->
                    x - base <> o /\ x - base <> o + level_size k).
    { intros x Hx. split; intros E.
      - apply (hand_free_disjoint _ _ _ _ _ _ _ o Hinv Hx);
          unfold inblock; rewrite ?level_size_S; lia.
      - apply (hand_free_disjoint _ _ _ _ _ _ _ (o + level_size k) Hinv Hx);
          unfold inblock; rewrite ?level_size_S; lia. }
    assert (Hfresh : base + o + level_size k ∉ free_at fl k).
    { intros Hx. apply Hin in Hx. lia. }
    assert (Hbud : Z.lxor (o + level_size k) (level_size k) = o).
    { replace (o + level_size k) with ((2 * q + 1) * level_size k) by lia.
      rewrite lxor_buddy by nia.
      replace (Z.even (2 * q + 1)) with false; [lia|].
      symmetry. rewrite Z.even_add, Z.even_mul. reflexivity. }
    constructor; try assumption.
    - now rewrite length_push.
    - apply (tiling_split _ _ _ Htil (Free k (base + o + level_size k)) o k).
      + reflexivity.
      + intros o' k'. simpl. intros [= -> ->]. auto.
      + intros o' k'. simpl. tauto.
      + discriminate.
      + intros w o' k'. destruct w as [k'' x|p|]; simpl;
          rewrite ?free_at_push by lia; try case_decide; subst;
          rewrite ?elem_of_cons; naive_solver lia.
    - intros k'. rewrite free_at_push by lia. case_decide; [|apply Hndf].
      apply NoDup_cons. split; [exact Hfresh|apply Hndf].
    - intros k' x y. rewrite free_at_push by lia.
      case_decide as Hkk; [subst k'|apply Hnb].
      rewrite !elem_of_cons. intros [->|Hx] [->|Hy].
      + replace (base + o + level_size k - base) with (o + level_size k) by lia.
        rewrite Hbud. lia.
      + replace (base + o + level_size k - base) with (o + level_size k) by lia.
        rewrite Hbud. apply Hin in Hy. tauto.
      + intros E. apply Hin in Hx as [Hx _]. apply Hx.
        rewrite <- (lxor_involutive (x - base) (level_size k)), <- E.
        replace (base + o + level_size k - base) with (o + level_size k) by lia.
        exact Hbud.
      + now apply Hnb.
  Qed.

  (** The block in hand is handed out: its header is written. *)
Lemma inv_to_live fl hdr live o k :
    inv top base cap fl hdr live (Some (o, k)) ->
    inv top base cap fl (store (base + o) (level_size k) hdr)
        (base + o + sizeof_AllocationHeader :: live) None /\
    sum_headers (store (base + o) (level_size k) hdr)
        (base + o + sizeof_AllocationHeader :: live)
    = level_size k + sum_headers hdr live.
  Proof.
    intros Hinv. pose proof (inv_hand_level _ _ _ _ _ Hinv) as Hk.
    pose proof Hinv as [Htop Hcap Hbase Hlen Htil Hndf Hndl Hlh Hnb].
    pose proof (fun p => hand_live_disjoint _ _ _ _ _ p Hinv) as Hdis.
    assert (Hfresh : base + o + sizeof_AllocationHeader ∉ live).
    { intros Hp. apply (Hdis _ Hp). unfold sizeof_AllocationHeader. lia. }
    assert (Hst : forall p, p ∈ live ->
              store (base + o) (level_size k) hdr (p - sizeof_AllocationHeader)
              = hdr (p - sizeof_AllocationHeader)).
    { intros p Hp. unfold store.
      destruct (Z.eqb_spec (p - sizeof_AllocationHeader) (base + o)) as [E|_];
        [now apply Hdis in E|reflexivity]. }
    assert (Hnew : store (base + o) (level_size k) hdr
                     (base + o + sizeof_AllocationHeader - sizeof_AllocationHeader)
                   = level_size k).
    { unfold store. replace (base + o + sizeof_AllocationHeader - sizeof_AllocationHeader)
        with (base + o) by lia. now rewrite Z.eqb_refl. }
    split.
    - constructor; try assumption.
      + apply (tiling_rename _ _ _ Htil Hand (Live (base + o + sizeof_AllocationHeader))).
        * intros o' k'. simpl. tauto.
        * intros w o' k'. destruct w as [k'' x|p|]; simpl.
          -- naive_solver.
          -- rewrite elem_of_cons. split.
             ++ intros ([->|Hp] & -> & Hh & Hlt).
                ** right. rewrite Hnew in Hh. apply level_size_inj in Hh as <-.
                   split; [reflexivity|]. f_equal. f_equal. lia.
                ** left. rewrite (Hst _ Hp) in Hh.
                   repeat split; try discriminate; auto. congruence.
             ++ intros [(_ & Hne & Hp & -> & Hh & Hlt)|([= ->] & [= -> ->])].
                ** rewrite (Hst _ Hp). auto.
                ** rewrite Hnew. repeat split; auto; lia.
          -- naive_solver.
      + apply NoDup_cons. auto.
      + intros p Hp. apply elem_of_cons in Hp as [->|Hp].
        * exists k. rewrite Hnew. split; [reflexivity|lia].
        * rewrite (Hst _ Hp). now apply Hlh.
    - simpl. rewrite Hnew. f_equal.
      apply sum_headers_store_notin. intros p Hp. now apply Hdis.
  Qed.

  (** A live allocation is returned: its block is taken in hand. *)
Lemma inv_from_live fl hdr live p :
    inv top base cap fl hdr live None -> p ∈ live ->
    exists k,
      hdr (p - sizeof_AllocationHeader) = level_size k /\ (k < MaxLevels)%nat /\
      inv top base cap fl hdr (filter (λ q, q ≠ p) live)
          (Some (p - sizeof_AllocationHeader - base, k)).
  Proof.
    intros [Htop Hcap Hbase Hlen Htil Hndf Hndl Hlh Hnb] Hp.
    destruct (Hlh p Hp) as (k & Hk & Hlt). exists k. split; [exact Hk|]. split; [exact Hlt|].
    constructor; try assumption.
    - apply (tiling_rename _ _ _ Htil (Live p) Hand).
      + intros o' k'. simpl. discriminate.
      + intros w o' k'. destruct w as [k'' x|q|]; simpl.
        * naive_solver.
        * rewrite list_elem_of_filter. naive_solver.
        * split.
          -- intros [= <- <-]. right. auto.
          -- intros [(_ & Hne & _)|(_ & _ & -> & Hh & _)]; [congruence|].
             rewrite Hk in Hh. apply level_size_inj in Hh as ->. reflexivity.
    - now apply NoDup_filter.
    - intros q Hq. apply list_elem_of_filter in Hq as [_ Hq]. now apply Hlh.
  Qed.

  (** One turn of the coalescing loop: the buddy is unlinked and the pair
      becomes the block in hand, one level up. *)
Lemma inv_merge_step fl hdr live o k :
    inv top base cap fl hdr live (Some (o, k)) ->
    base + Z.lxor o (level_size k) ∈ free_at fl k ->
    inv top base cap
        (<[k := unlink (base + Z.lxor o (level_size k)) (free_at fl k)]> fl)
        hdr live (Some (Z.min o (Z.lxor o (level_size k)), S k)).
  Proof.
    intros Hinv Hb. pose proof (inv_hand_level _ _ _ _ _ Hinv) as Hk.
    pose proof Hinv as [Htop Hcap Hbase Hlen Htil Hndf Hndl Hlh Hnb].
    set (b := Z.lxor o (level_size k)) in *.
    assert (Hsub : forall k' x,
              x ∈ free_at (<[k := unlink (base + b) (free_at fl k)]> fl) k' ->
              x ∈ free_at fl k').
    { intros k' x. rewrite free_at_insert by lia. case_decide; [subst k'|tauto].
      rewrite elem_of_unlink by apply Hndf. tauto. }
    constructor; try assumption.
    - now rewrite length_insert.
    - apply (tiling_merge _ _ _ Htil (Free k (base + b)) o k b).
      + reflexivity.
      + intros o' k'. simpl. intros [= -> ->]. auto.
      + simpl. repeat split; [lia|exact Hb].
      + intros o' k'. simpl. intros (-> & -> & _). split; [lia|reflexivity].
      + discriminate.
      + reflexivity.
      + intros w o' k'. destruct w as [k'' x|p|]; simpl;
          rewrite ?free_at_insert by lia; try case_decide; subst;
          rewrite ?elem_of_unlink by apply Hndf; naive_solver lia.
    - intros k'. rewrite free_at_insert by lia. case_decide; [|apply Hndf].
      apply NoDup_unlink, Hndf.
    - intros k' x y Hx Hy. apply Hnb; now apply Hsub.
  Qed.

  (** The block in hand goes to the free list of its level, provided its
      buddy is not there. *)
Lemma inv_push fl hdr live o k :
    inv top base cap fl hdr live (Some (o, k)) ->
    base + Z.lxor o (level_size k) ∉ free_at fl k ->
    inv top base cap (push k (base + o) fl) hdr live None.
  Proof.
    intros Hinv Hb. pose proof (inv_hand_level _ _ _ _ _ Hinv) as Hk.
    pose proof Hinv as [Htop Hcap Hbase Hlen Htil Hndf Hndl Hlh Hnb].
    pose proof (level_size_pos k) as Hs.
    assert (Hfresh : base + o ∉ free_at fl k).
    { intros Hx. apply (hand_free_disjoint _ _ _ _ _ _ _ o Hinv Hx); unfold inblock; lia. }
    constructor; try assumption.
    - now rewrite length_push.
    - apply (tiling_rename _ _ _ Htil Hand (Free k (base + o))).
      + intros o' k'. simpl. tauto.
      + intros w o' k'. destruct w as [k'' x|p|]; simpl.
        * rewrite free_at_push by lia. case_decide as Hkk; [subst k''|].
          -- rewrite elem_of_cons. split.
             ++ intros (-> & -> & [->|Hx]).
                ** right. split; [reflexivity|]. f_equal. f_equal. lia.
                ** left. repeat split; try discriminate; auto.
                   intros [= ->]. contradiction.
             ++ intros [(_ & _ & -> & -> & Hx)|([= ->] & [= -> ->])]; auto.
                repeat split; auto. lia.
          -- split.
             ++ intros (-> & -> & Hx). left. repeat split; try discriminate; auto.
                congruence.
             ++ intros [(_ & _ & H)|([= -> ->] & _)]; [exact H|contradiction].
        * split.
          -- intros H. left. repeat split; try discriminate; apply H.
          -- intros [(_ & _ & H)|(? & _)]; [exact H|discriminate].
        * split; [discriminate|]. intros [(H & _)|(? & _)]; [congruence|discriminate].
    - intros k'. rewrite free_at_push by lia. case_decide; [|apply Hndf].
      apply NoDup_cons. split; [exact Hfresh|apply Hndf].
    - intros k' x y. rewrite free_at_push by lia.
      case_decide as Hkk; [subst k'|apply Hnb].
      rewrite !elem_of_cons. intros [->|Hx] [->|Hy].
      + replace (base + o - base) with o by lia.
        intros E. symmetry in E. now apply lxor_level_size_ne in E.
      + replace (base + o - base) with o by lia. intros E. apply Hb.
        replace (base + Z.lxor o (level_size k)) with y by lia. exact Hy.
      + replace (base + o - base) with o by lia. intros E. apply Hb.
        rewrite E, lxor_involutive. replace (base + (x - base)) with x by lia. exact Hx.
      + now apply Hnb.
  Qed.

End BuddyOps.

Section BuddySteps.
Import Buddy.
#[local] Set Warnings "-clear-no-such-hyp".

Variables (top : nat) (base cap : Z).

  (** The split loop leaves the lower part of the block in hand, at the
      level asked for. *)
Lemma inv_split hdr live o level : forall n fl,
    inv top base cap fl hdr live (Some (o, (level + n)%nat)) ->
    inv top base cap (split n (level + n) (base + o) fl) hdr live (Some (o, level)).
  Proof.
    induction n as [|n IH]; intros fl Hinv.
    - simpl. now rewrite Nat.add_0_r in Hinv.
    - replace (level + S n)%nat with (S (level + n)) in * by lia.
      pose proof (inv_hand_level _ _ _ _ _ _ _ _ Hinv) as Hk.
      pose proof (inv_top _ _ _ _ _ _ _ Hinv) as Htop.
      pose proof (inv_base _ _ _ _ _ _ _ Hinv) as [Hb Hext].
      destruct (tiling_shape _ _ (inv_tiling _ _ _ _ _ _ _ Hinv) Hand o (S (level + n)))
        as (Ho & He & _); [reflexivity|].
      rewrite level_size_S in He. pose proof (level_size_pos (level + n)) as Hs.
      simpl split. rewrite GetBlockSize_level_size by lia.
      rewrite wrap_small by (unfold in_word; lia).
      apply IH. now apply inv_split_step.
  Qed.

Lemma buddy_out_of_range fl hdr live o k :
    inv top base cap fl hdr live (Some (o, k)) ->
    level_size top <= Z.lxor o (level_size k) ->
    base + Z.lxor o (level_size k) ∉ free_at fl k.
  Proof.
    intros Hinv Hge Hx.
    destruct (tiling_shape _ _ (inv_tiling _ _ _ _ _ _ _ Hinv)
                (Free k (base + Z.lxor o (level_size k)))
                (Z.lxor o (level_size k)) k) as (_ & He & _).
    { simpl. repeat split; [lia|exact Hx]. }
    pose proof (level_size_pos k). lia.
  Qed.

  (** A block of the top level, or one whose buddy would lie beyond the
      capacity, has its buddy outside the arena. *)
Lemma buddy_beyond fl hdr live o k :
    inv top base cap fl hdr live (Some (o, k)) ->
    (top <= k)%nat \/ cap <= Z.lxor o (level_size k) ->
    level_size top <= Z.lxor o (level_size k).
  Proof.
    intros Hinv Hcase.
    pose proof (inv_hand_level _ _ _ _ _ _ _ _ Hinv) as Hk.
    pose proof (inv_cap _ _ _ _ _ _ _ Hinv) as [Hcap1 Hcap2].
    destruct (tiling_shape _ _ (inv_tiling _ _ _ _ _ _ _ Hinv) Hand o k)
      as (Ho & He & _); [reflexivity|].
    assert (Htopcase : k = top -> level_size top <= Z.lxor o (level_size k)).
    { intros ->. assert (o = 0) by lia. subst o. rewrite Z.lxor_0_l. lia. }
    destruct Hcase as [Hge|Hge]; [apply Htopcase; lia|].
    destruct (Nat.eq_dec top 0%nat) as [E0|Hpos]; [apply Htopcase; lia|].
    rewrite <- Hcap2 by lia. exact Hge.
  Qed.

  (** The coalescing loop, then the insertion of the block it ends with. *)
Lemma inv_coalesce hdr live : forall fuel fl o k fl' ptr' k',
    inv top base cap fl hdr live (Some (o, k)) ->
    (MaxLevels - 1 <= k + fuel)%nat ->
    Coalesce_loop fuel base cap fl (base + o) o (level_size k) k = (fl', ptr', k') ->
    inv top base cap (push k' ptr' fl') hdr live None.
  Proof.
    induction fuel as [|fuel IH]; intros fl o k fl' ptr' k' Hinv Hfuel Hloop.
    - simpl in Hloop. injection Hloop as <- <- <-.
      pose proof (inv_top _ _ _ _ _ _ _ Hinv) as Htop.
      apply inv_push; [exact Hinv|].
      eapply buddy_out_of_range; [exact Hinv|].
      apply (buddy_beyond _ _ _ _ _ Hinv). left. lia.
    - pose proof (inv_hand_level _ _ _ _ _ _ _ _ Hinv) as Hk.
      pose proof (inv_top _ _ _ _ _ _ _ Hinv) as Htop.
      pose proof (inv_base _ _ _ _ _ _ _ Hinv) as [Hb Hext].
      pose proof (inv_cap _ _ _ _ _ _ _ Hinv) as [Hcap1 _].
      destruct (tiling_shape _ _ (inv_tiling _ _ _ _ _ _ _ Hinv) Hand o k)
        as (Ho & He & _); [reflexivity|].
      cbn [Coalesce_loop] in Hloop. unfold GetBuddyOffset in Hloop.
      set (b := Z.lxor o (level_size k)) in *.
      assert (Hb0 : 0 <= b).
      { apply Z.lxor_nonneg. pose proof (level_size_pos k). lia. }
      destruct (Nat.ltb_spec k (MaxLevels - 1)) as [Hlt|Hge].
      2:{ injection Hloop as <- <- <-.
          apply inv_push; [exact Hinv|]. eapply buddy_out_of_range; [exact Hinv|].
          apply (buddy_beyond _ _ _ _ _ Hinv). left. unfold MaxLevels in *. lia. }
      destruct (Z.leb_spec cap b) as [Hout|Hin].
      { injection Hloop as <- <- <-.
        apply inv_push; [exact Hinv|]. eapply buddy_out_of_range; [exact Hinv|].
        apply (buddy_beyond _ _ _ _ _ Hinv). right. exact Hout. }
      rewrite (wrap_small (base + b)) in Hloop by (unfold in_word; lia).
      destruct (existsb (Z.eqb (base + b)) (free_at fl k)) eqn:Hfound.
      2:{ injection Hloop as <- <- <-.
          apply inv_push; [exact Hinv|]. intros Hx.
          apply existsb_eqb_elem_of in Hx. fold b in Hx.
          rewrite Hfound in Hx. discriminate. }
      apply existsb_eqb_elem_of in Hfound.
      pose proof (inv_merge_step _ _ _ _ _ _ _ _ Hinv Hfound) as Hinv'.
      fold b in Hinv'.
      rewrite shiftl1_level_size in Hloop by (unfold MaxLevels in *; lia).
      assert (E : (if b <? o then (base + b, b) else (base + o, o))
                  = (base + Z.min o b, Z.min o b)).
      { destruct (Z.ltb_spec b o); f_equal; lia. }
      rewrite E in Hloop. cbv beta iota zeta in Hloop.
      apply (IH _ _ _ _ _ _ Hinv'); [lia|exact Hloop].
  Qed.

End BuddySteps.

Section BuddyInvariant.
Import Buddy.
#[local] Set Warnings "-clear-no-such-hyp".

Lemma find_free_level_spec fl : forall fuel c,
    (MaxLevels <= c + fuel)%nat ->
    let r := find_free_level fuel fl c in
    (c <= r)%nat /\ ((r < MaxLevels)%nat -> free_at fl r <> []).
  Proof.
    induction fuel as [|fuel IH]; intros c Hf; simpl.
    - split; [lia|]. lia.
    - destruct (Nat.ltb_spec c MaxLevels) as [Hlt|Hge]; simpl.
      + destruct (free_at fl c) eqn:E.
        * destruct (IH (S c)) as [H1 H2]; [lia|]. split; [lia|exact H2].
        * split; [lia|]. intros _. rewrite E. discriminate.
      + split; lia.
  Qed.

  (** The block size [Allocate] computes is the size of the level it
      looks at, whenever that level exists. *)
Lemma block_size_is_level_size t :
    let b := NextPowerOfTwo t in
    let b' := if b <? MinBlockSize then MinBlockSize else b in
    (GetLevel b' < MaxLevels)%nat -> b' = level_size (GetLevel b').
  Proof.
    intros b b' Hl. subst b'.
    destruct (Z.ltb_spec b MinBlockSize) as [Hsmall|Hbig].
    - change MinBlockSize with (level_size 0).
      rewrite GetLevel_level_size by (unfold MaxLevels; lia). reflexivity.
    - subst b. unfold NextPowerOfTwo in *.
      set (j := Z.log2_up t) in *.
      assert (Hj0 : 0 <= j) by apply Z.log2_up_nonneg.
      assert (Hj : j < word_bits).
      { destruct (Z_lt_le_dec j word_bits) as [|Hge]; [assumption|].
        exfalso. unfold wrap, word_modulus in Hbig.
        replace j with (word_bits + (j - word_bits)) in Hbig by lia.
        rewrite Z.pow_add_r, Z.mul_comm, Z.mod_mul in Hbig
          by (unfold word_bits in *; try lia; apply Z.pow_nonzero; lia).
        unfold MinBlockSize in Hbig. lia. }
      rewrite wrap_small in * by (pose proof (pow2_in_word j); unfold in_word; lia).
      assert (Hj6 : 6 <= j).
      { destruct (Z_lt_le_dec j 6) as [Hlt|]; [|assumption].
        exfalso. assert (2 ^ j < 2 ^ 6) by (apply Z.pow_lt_mono_r; lia).
        unfold MinBlockSize in Hbig. lia. }
      assert (E : 2 ^ j = level_size (Z.to_nat (j - 6))).
      { rewrite level_size_pow2. f_equal. lia. }
      rewrite E in *.
      destruct (Nat.lt_ge_cases (Z.to_nat (j - 6)) MaxLevels) as [Hlt|Hge].
      + now rewrite GetLevel_level_size.
      + rewrite GetLevel_too_large in Hl; [lia|].
        pose proof (level_size_lt (MaxLevels - 1) (Z.to_nat (j - 6)) ltac:(unfold MaxLevels in *; lia)).
        pose proof (level_size_pos (MaxLevels - 1)). lia.
  Qed.

Lemma Allocate_state_inv top st live size al st' p :
    state_inv top st live ->
    Allocate st size al = Done (st', p) ->
    state_inv top st' (if p =? 0 then live else p :: live) /\
    memory_block_ st' = memory_block_ st /\ capacity_ st' = capacity_ st.
  Proof.
    intros [Hinv Hused] HA. unfold Allocate in HA.
    apply hive_Assert_Done in HA as [_ HA].
    set (b := NextPowerOfTwo (wrap (size + sizeof_AllocationHeader))) in *.
    set (b' := if b <? MinBlockSize then MinBlockSize else b) in *.
    set (level := GetLevel b') in *.
    set (c := find_free_level MaxLevels (free_lists_ st) level) in *.
    destruct (Nat.leb_spec MaxLevels c) as [Hnone|Hc].
    { injection HA as <- <-. simpl. split; [split; assumption|auto]. }
    destruct (find_free_level_spec (free_lists_ st) MaxLevels level ltac:(lia))
      as [Hle _]. fold c in Hle.
    destruct (free_at (free_lists_ st) c) as [|block next] eqn:Hfa.
    { injection HA as <- <-. simpl. split; [split; assumption|auto]. }
    injection HA as <- <-.
    pose proof (block_size_is_level_size (wrap (size + sizeof_AllocationHeader))
                  ltac:(fold b; fold b'; fold level; lia)) as Hb'.
    fold b in Hb'. fold b' in Hb'. fold level in Hb'.
    pose proof (inv_base _ _ _ _ _ _ _ Hinv) as [Hbase Hext].
    pose proof (inv_pop _ _ _ _ _ _ _ _ _ Hinv Hc Hfa) as Hinv1.
    destruct (tiling_shape _ _ (inv_tiling _ _ _ _ _ _ _ Hinv1) Hand
                (block - memory_block_ st) c) as (Ho & He & _); [reflexivity|].
    pose proof (level_size_pos c) as Hs.
    replace c with (level + (c - level))%nat in Hinv1 at 2 by lia.
    apply inv_split in Hinv1.
    replace (memory_block_ st + (block - memory_block_ st)) with block in Hinv1 by lia.
    replace (level + (c - level))%nat with c in Hinv1 by lia.
    apply inv_to_live in Hinv1 as [Hinv2 Hsum].
    replace (memory_block_ st + (block - memory_block_ st)) with block in * by lia.
    assert (Hp : wrap (block + sizeof_AllocationHeader) = block + sizeof_AllocationHeader).
    { assert (64 <= level_size c)
        by (change 64 with (level_size 0); apply level_size_le; lia).
      apply wrap_small. unfold in_word, sizeof_AllocationHeader. lia. }
    rewrite Hp.
    destruct (Z.eqb_spec (block + sizeof_AllocationHeader) 0) as [E0|_];
      [unfold sizeof_AllocationHeader in E0; lia|].
    simpl. rewrite Hb'. split; [|auto]. split; [exact Hinv2|]. simpl.
    simpl in Hsum. rewrite Hsum, Hused, wrap_add_l. f_equal. lia.
  Qed.

Lemma Deallocate_state_inv top st live p :
    state_inv top st live -> p ∈ live ->
    state_inv top (Deallocate st p) (filter (λ q, q ≠ p) live) /\
    memory_block_ (Deallocate st p) = memory_block_ st /\
    capacity_ (Deallocate st p) = capacity_ st.
  Proof.
    intros [Hinv Hused] Hp.
    pose proof (inv_base _ _ _ _ _ _ _ Hinv) as [Hbase Hext].
    pose proof (sum_headers_filter (mem st) live p
                  (inv_nodup_live _ _ _ _ _ _ _ Hinv) Hp) as Hsum.
    destruct (inv_from_live _ _ _ _ _ _ _ Hinv Hp) as (k & Hk & Hlt & Hinv1).
    destruct (tiling_shape _ _ (inv_tiling _ _ _ _ _ _ _ Hinv1) Hand
                (p - sizeof_AllocationHeader - memory_block_ st) k)
      as (Ho & He & _); [reflexivity|].
    pose proof (level_size_pos k) as Hs.
    unfold Deallocate.
    destruct (Z.eqb_spec p 0) as [E0|_];
      [unfold sizeof_AllocationHeader in *; lia|].
    assert (Hh : wrap (p - sizeof_AllocationHeader) = p - sizeof_AllocationHeader).
    { apply wrap_small. unfold in_word. lia. }
    rewrite Hh, Hk. simpl. rewrite GetLevel_level_size by exact Hlt.
    split; [|auto]. split; simpl.
    - unfold CoalesceAndInsert.
      rewrite wrap_small by (unfold in_word; lia).
      destruct (Coalesce_loop MaxLevels (memory_block_ st) (capacity_ st)
                  (free_lists_ st) (p - sizeof_AllocationHeader)
                  (p - sizeof_AllocationHeader - memory_block_ st) (level_size k) k)
        as [[fl' ptr'] k'] eqn:Hloop.
      apply (inv_coalesce _ _ _ _ _ MaxLevels _ _ _ _ _ _ Hinv1); [lia|].
      replace (memory_block_ st + (p - sizeof_AllocationHeader - memory_block_ st))
        with (p - sizeof_AllocationHeader) by lia.
      exact Hloop.
    - rewrite Hused, wrap_sub_l. f_equal. lia.
  Qed.

End BuddyInvariant.

Section BuddyCycle.
Import Buddy.
#[local] Set Warnings "-clear-no-such-hyp".

Lemma free_at_initial top base k :
    (top < MaxLevels)%nat ->
    free_at (<[top := [base]]> (replicate MaxLevels [])) k
    = if decide (top = k) then [base] else [].
  Proof.
    intros Htop. rewrite free_at_insert by (rewrite length_replicate; lia).
    case_decide; [reflexivity|]. unfold free_at.
    destruct (replicate MaxLevels [] !! k) as [l|] eqn:E; [|reflexivity].
    apply lookup_replicate in E as [-> _]. reflexivity.
  Qed.

  (** The rounded capacity and the level of the arena. *)
Lemma capacity_level capacity :
    0 < capacity <= 2 ^ 25 ->
    let cap := NextPowerOfTwo capacity in
    let top := GetLevel cap in
    (top < MaxLevels)%nat /\ 0 < cap <= level_size top /\
    ((0 < top)%nat -> cap = level_size top) /\
    level_size top = Z.max MinBlockSize cap.
  Proof.
    intros [Hc0 Hc] cap top. subst cap top. unfold NextPowerOfTwo.
    set (j := Z.log2_up capacity).
    assert (Hj0 : 0 <= j) by apply Z.log2_up_nonneg.
    assert (Hj : j <= 25) by (apply Z.log2_up_le_pow2; lia).
    rewrite wrap_small by (pose proof (pow2_in_word j); unfold in_word, word_bits in *; lia).
    assert (Hp : 0 < 2 ^ j) by (apply Z.pow_pos_nonneg; lia).
    destruct (Z_lt_le_dec j 6) as [Hlt|Hge].
    - assert (Hsmall : 2 ^ j < MinBlockSize).
      { unfold MinBlockSize. change 64 with (2 ^ 6). apply Z.pow_lt_mono_r; lia. }
      assert (E : GetLevel (2 ^ j) = 0%nat).
      { destruct (GetLevel_spec (2 ^ j)) as (_ & _ & Hlow).
        destruct (GetLevel (2 ^ j)) as [|r]; [reflexivity|].
        specialize (Hlow ltac:(lia)).
        pose proof (level_size_le 0 (S r - 1) ltac:(lia)).
        change (level_size 0) with MinBlockSize in *. lia. }
      rewrite E. change (level_size 0) with MinBlockSize.
      unfold MaxLevels. repeat split; lia.
    - assert (E : 2 ^ j = level_size (Z.to_nat (j - 6))).
      { rewrite level_size_pow2. f_equal. lia. }
      rewrite E, GetLevel_level_size by (unfold MaxLevels; lia).
      pose proof (level_size_le 0 (Z.to_nat (j - 6)) ltac:(lia)).
      change (level_size 0) with MinBlockSize in *.
      unfold MaxLevels. repeat split; lia.
  Qed.

  (** One free block, the whole arena, at the top level. *)
Lemma initial_inv top pages cap h :
    (top < MaxLevels)%nat -> 0 < pages ->
    cap <= level_size top -> ((0 < top)%nat -> cap = level_size top) ->
    pages + level_size top < word_modulus ->
    inv top pages cap (<[top := [pages]]> (replicate MaxLevels [])) h [] None.
  Proof.
    intros Htop Hpages Hc Hc' Hend.
    pose proof (fun k => free_at_initial top pages k Htop) as Hfa.
    assert (Hlen : length (<[top := [pages]]> (replicate MaxLevels [])) = MaxLevels)
      by now rewrite length_insert, length_replicate.
    set (fl0 := <[top := [pages]]> (replicate MaxLevels [])) in *. clearbody fl0.
    constructor; try assumption.
    - split; [lia|exact Hc'].
    - split; [exact Hpages|lia].
    - pose proof (level_size_pos top) as Hs. constructor.
      + intros w o k Hw. destruct w as [k' x|p|]; simpl in Hw.
        * rewrite Hfa in Hw.
          destruct Hw as (-> & -> & Hx). case_decide; [subst k'|now apply elem_of_nil in Hx].
          apply list_elem_of_singleton in Hx as ->.
          split; [lia|]. split; [lia|]. exists 0. lia.
        * destruct Hw as [Hw _]. now apply elem_of_nil in Hw.
        * discriminate.
      + intros w1 o1 k1 w2 o2 k2 x H1 H2 _ _.
        destruct w1 as [k1' x1|p1|]; simpl in H1;
          [|destruct H1 as [H1 _]; now apply elem_of_nil in H1|discriminate].
        destruct w2 as [k2' x2|p2|]; simpl in H2;
          [|destruct H2 as [H2 _]; now apply elem_of_nil in H2|discriminate].
        rewrite Hfa in H1, H2.
        destruct H1 as (_ & _ & H1), H2 as (_ & _ & H2).
        repeat case_decide; subst;
          try (now apply elem_of_nil in H1); try (now apply elem_of_nil in H2).
        apply list_elem_of_singleton in H1 as ->.
        apply list_elem_of_singleton in H2 as ->. reflexivity.
      + intros x Hx. exists (Free top pages), 0, top. split.
        * simpl. rewrite Hfa.
          rewrite decide_True by reflexivity.
          repeat split; [lia|apply list_elem_of_here].
        * unfold inblock. lia.
    - intros k. rewrite Hfa.
      case_decide; [apply NoDup_singleton|constructor].
    - constructor.
    - intros p Hp'. now apply elem_of_nil in Hp'.
    - intros k a b. rewrite Hfa.
      case_decide; [subst k|intros Ha; now apply elem_of_nil in Ha].
      intros Ha Hb. apply list_elem_of_singleton in Ha as ->.
      apply list_elem_of_singleton in Hb as ->.
      rewrite Z.sub_diag, Z.lxor_0_l. pose proof (level_size_pos top). lia.
  Qed.

  (** The constructor establishes the invariant. *)
Lemma BuddyAllocator_state_inv pages h capacity st0 :
    0 < capacity <= 2 ^ 25 ->
    0 < pages ->
    pages + Z.max MinBlockSize (NextPowerOfTwo capacity) < word_modulus ->
    BuddyAllocator pages h capacity = Done st0 ->
    state_inv (GetLevel (capacity_ st0)) st0 [] /\
    memory_block_ st0 = pages /\
    free_lists_ st0
    = <[GetLevel (capacity_ st0) := [pages]]> (replicate MaxLevels []).
  Proof.
    intros Hcap Hpages Hend Hnew. unfold BuddyAllocator in Hnew.
    apply hive_Assert_Done in Hnew as [_ Hnew].
    apply hive_Assert_Done in Hnew as [_ Hnew]. injection Hnew as <-.
    destruct (capacity_level capacity Hcap) as (Htop & Hc & Hc' & Hext).
    split; [|split; reflexivity]. split; [|reflexivity].
    apply initial_inv; try assumption; [apply Hc|].
    unfold capacity_. rewrite Hext. exact Hend.
  Qed.

  (** With nothing live and nothing in hand, the tiling is a single block:
      two free buddies never coexist, so no level below the top holds a
      free block. *)
Lemma coalesced_lower_levels_empty top base cap fl hdr :
    inv top base cap fl hdr [] None ->
    forall k, (k < top)%nat -> free_at fl k = [].
  Proof.
    intros [Htop Hcap Hbase Hlen [Hshape Hdis Hcov] Hndf Hndl Hlh Hnb].
    induction k as [k IH] using lt_wf_ind. intros Hk.
    destruct (free_at fl k) as [|x l] eqn:E; [reflexivity|]. exfalso.
    assert (Hx : x ∈ free_at fl k) by (rewrite E; apply list_elem_of_here).
    destruct (Hshape (Free k x) (x - base) k) as (Ho & He & q & Hq);
      [simpl; auto|].
    pose proof (level_size_pos k) as Hs.
    assert (Hq0 : 0 <= q) by nia.
    pose proof (lxor_buddy q k Hq0) as Hb. rewrite <- Hq in Hb.
    remember (Z.lxor (x - base) (level_size k)) as b eqn:Eb.
    destruct (level_size_divides (S k) top ltac:(lia)) as (m & Hm & Hext).
    rewrite level_size_S in Hext.
    (* the parent block [P, P + 2s) holds both the block and its buddy *)
    assert (HP : exists q', 0 <= q' /\
              q' * (2 * level_size k) <= x - base < (q' + 1) * (2 * level_size k) /\
              q' * (2 * level_size k) <= b < (q' + 1) * (2 * level_size k) /\
              b = (if Z.even q then q + 1 else q - 1) * level_size k).
    { destruct (Z.even q) eqn:Ev.
      - apply Z.even_spec in Ev as [q' ->]. exists q'. repeat split; nia.
      - assert (Hodd : Z.odd q = true) by (rewrite <- Z.negb_even, Ev; reflexivity).
        apply Z.odd_spec in Hodd as [q' ->]. exists q'. repeat split; nia. }
    destruct HP as (q' & Hq'0 & HPo & HPb & Hbq).
    assert (Hqm : q' + 1 <= m) by nia.
    assert (Hbext : 0 <= b < level_size top) by nia.
    destruct (Hcov b Hbext) as (w & o2 & k2 & Hw & Hin).
    destruct w as [k2' x2|p|]; simpl in Hw;
      [|destruct Hw as [Hw _]; now apply elem_of_nil in Hw|discriminate].
    destruct Hw as (-> & -> & Hx2).
    destruct (Hshape (Free k2' x2) (x2 - base) k2') as (Ho2 & He2 & q2 & Hq2);
      [simpl; auto|].
    unfold inblock in Hin.
    destruct (Nat.lt_trichotomy k2' k) as [Hlt|[->|Hgt]].
    - rewrite (IH k2' Hlt ltac:(lia)) in Hx2. now apply elem_of_nil in Hx2.
    - apply (Hnb k x x2 Hx Hx2). rewrite <- Eb.
      rewrite Hq2 in Hin |- *. rewrite Hbq in Hin |- *.
      destruct (Z.even q).
      + assert (q2 = q + 1) by nia. now subst q2.
      + assert (q2 = q - 1) by nia. now subst q2.
    - destruct (level_size_divides (S k) k2' ltac:(lia)) as (m2 & Hm2 & Hk2).
      rewrite level_size_S in Hk2.
      assert (Hino : inblock (x2 - base) k2' (x - base)).
      { unfold inblock. rewrite Hq2 in *. rewrite Hk2 in *.
        assert (H1 : q2 * m2 <= q') by nia.
        assert (H2 : q' + 1 <= q2 * m2 + m2) by nia.
        nia. }
      assert (Heq : Free k2' x2 = Free k x); [|injection Heq as -> _; lia].
      apply (Hdis (Free k2' x2) (x2 - base) k2' (Free k x) (x - base) k (x - base));
        simpl; auto. unfold inblock. lia.
  Qed.

Lemma final_free_lists top base cap fl hdr :
    inv top base cap fl hdr [] None ->
    fl = <[top := [base]]> (replicate MaxLevels []).
  Proof.
    intros Hinv. pose proof (coalesced_lower_levels_empty _ _ _ _ _ Hinv) as Hlow.
    destruct Hinv as [Htop Hcap Hbase Hlen [Hshape Hdis Hcov] Hndf Hndl Hlh Hnb].
    pose proof (level_size_pos top) as Hs.
    assert (Hhigh : forall k, (top < k)%nat -> free_at fl k = []).
    { intros k Hk. destruct (free_at fl k) as [|x l] eqn:E; [reflexivity|]. exfalso.
      destruct (Hshape (Free k x) (x - base) k) as (Ho & He & _).
      { simpl. rewrite E. repeat split. apply list_elem_of_here. }
      pose proof (level_size_lt _ _ Hk). lia. }
    assert (Htopl : free_at fl top = [base]).
    { assert (Hall : forall x, x ∈ free_at fl top -> x = base).
      { intros x Hx. destruct (Hshape (Free top x) (x - base) top) as (Ho & He & _);
          [simpl; auto|]. lia. }
      destruct (Hcov 0 ltac:(lia)) as (w & o & k & Hw & _).
      destruct w as [k' x|p|]; simpl in Hw;
        [|destruct Hw as [Hw _]; now apply elem_of_nil in Hw|discriminate].
      destruct Hw as (-> & _ & Hx).
      assert (k' = top).
      { destruct (Nat.lt_trichotomy k' top) as [Hlt|[E|Hgt]]; [|exact E|].
        - rewrite (Hlow _ Hlt) in Hx. now apply elem_of_nil in Hx.
        - rewrite (Hhigh _ Hgt) in Hx. now apply elem_of_nil in Hx. }
      subst k'. pose proof (Hndf top) as Hnd.
      destruct (free_at fl top) as [|a [|a' l]]; [now apply elem_of_nil in Hx| |].
      - f_equal. apply Hall, list_elem_of_here.
      - exfalso. apply NoDup_cons in Hnd as [Hnd _]. apply Hnd.
        rewrite (Hall a) by apply list_elem_of_here.
        rewrite (Hall a') by (apply list_elem_of_further, list_elem_of_here).
        apply list_elem_of_here. }
    apply list_eq. intros i.
    destruct (Nat.lt_ge_cases i MaxLevels) as [Hi|Hi].
    - destruct (lookup_lt_is_Some_2 fl i ltac:(lia)) as [l Hl].
      assert (El : free_at fl i = l) by (unfold free_at; now rewrite Hl).
      rewrite Hl. symmetry.
      destruct (Nat.lt_trichotomy i top) as [Hlt|[->|Hgt]].
      + rewrite list_lookup_insert_ne by lia.
        rewrite <- El, (Hlow _ Hlt). now apply lookup_replicate_2.
      + rewrite list_lookup_insert_eq by (rewrite length_replicate; lia).
        now rewrite <- El, Htopl.
      + rewrite list_lookup_insert_ne by lia.
        rewrite <- El, (Hhigh _ Hgt). now apply lookup_replicate_2.
    - rewrite !lookup_ge_None_2; [reflexivity| |lia].
      rewrite length_insert, length_replicate. exact Hi.
  Qed.

End BuddyCycle.

Lemma Buddy_reachable_state_inv top st0 st live :
  Buddy.state_inv top st0 [] -> Buddy.reachable st0 st live ->
  Buddy.state_inv top st live /\
  Buddy.memory_block_ st = Buddy.memory_block_ st0 /\
  Buddy.capacity_ st = Buddy.capacity_ st0.
Proof.
  intros H0. induction 1 as [|st live size al st' p _ IH _ HA|st live p _ IH Hp|st live _ IH].
  - auto.
  - destruct IH as (Hinv & Hb & Hc).
    destruct (Allocate_state_inv top st live size al st' p Hinv HA) as (Hinv' & Hb' & Hc').
    split; [exact Hinv'|]. split; congruence.
  - destruct IH as (Hinv & Hb & Hc).
    destruct (Deallocate_state_inv top st live p Hinv Hp) as (Hinv' & Hb' & Hc').
    split; [exact Hinv'|]. split; congruence.
  - exact IH.
Qed.

(** Full cycles, for a capacity of at most 32 MiB: after any run of
    allocations and deallocations of live pointers that leaves no
    allocation live, the free lists are those the constructor built,
    exactly one free block, the whole arena, on the list of the level of
    the capacity and every other list empty, and [GetUsedMemory] is 0. *)
Theorem Buddy_full_cycle_restores_free_lists (pages capacity : Z) (h : heap)
    (st0 st : Buddy.state) :
  0 < capacity <= 2 ^ 25 ->
  0 < pages ->
  pages + Z.max Buddy.MinBlockSize (NextPowerOfTwo capacity) < word_modulus ->
  Buddy.BuddyAllocator pages h capacity = Done st0 ->
  Buddy.reachable st0 st [] ->
  (Buddy.GetLevel (Buddy.capacity_ st) < Buddy.MaxLevels)%nat /\
  Buddy.free_lists_ st
    = <[Buddy.GetLevel (Buddy.capacity_ st) := [pages]]>
        (replicate Buddy.MaxLevels []) /\
  Buddy.free_lists_ st = Buddy.free_lists_ st0 /\
  Buddy.GetUsedMemory st = 0.
Proof.
  intros Hcap Hpages Hend Hnew Hreach.
  destruct (BuddyAllocator_state_inv pages h capacity st0 Hcap Hpages Hend Hnew)
    as (Hinv0 & Hbase0 & Hfl0).
  destruct (Buddy_reachable_state_inv _ _ _ _ Hinv0 Hreach) as ([Hinv Hused] & Hb & Hc).
  assert (Hcap0 : Buddy.capacity_ st0 = NextPowerOfTwo capacity).
  { unfold Buddy.BuddyAllocator in Hnew.
    apply hive_Assert_Done in Hnew as [_ Hnew].
    apply hive_Assert_Done in Hnew as [_ Hnew]. now injection Hnew as <-. }
  assert (Hsame : Buddy.free_lists_ st = Buddy.free_lists_ st0).
  { rewrite Hfl0, <- Hbase0, <- Hb. exact (final_free_lists _ _ _ _ _ Hinv). }
  split; [|split; [|split]].
  - rewrite Hc, Hcap0. exact (proj1 (capacity_level capacity Hcap)).
  - rewrite Hsame, Hc. exact Hfl0.
  - exact Hsame.
  - unfold Buddy.GetUsedMemory. rewrite Hused. reflexivity.
Qed.

Lemma buddy_scenario_reachable : Buddy.reachable buddy_fresh buddy_both_back [].
Proof.
  change (@nil Z) with (filter (λ q, q ≠ snd buddy_two) [snd buddy_two]) at 1.
  apply Buddy.reach_Deallocate; [|apply list_elem_of_here].
  change [snd buddy_two]
    with (filter (λ q, q ≠ snd buddy_one) [snd buddy_two; snd buddy_one]).
  apply Buddy.reach_Deallocate; [|apply list_elem_of_further, list_elem_of_here].
  change [snd buddy_two; snd buddy_one]
    with (if snd buddy_two =? 0 then [snd buddy_one]
          else snd buddy_two :: [snd buddy_one]).
  apply (Buddy.reach_Allocate buddy_fresh (fst buddy_one) [snd buddy_one] 100 8);
    [|unfold in_word, word_modulus, word_bits; lia|reflexivity].
  change [snd buddy_one]
    with (if snd buddy_one =? 0 then [] else snd buddy_one :: []).
  apply (Buddy.reach_Allocate buddy_fresh buddy_fresh [] 100 8);
    [|unfold in_word, word_modulus, word_bits; lia|reflexivity].
  apply Buddy.reach_init.
Defined.

Lemma Buddy_full_cycle_restores_free_lists_witness :
  (Buddy.GetLevel (Buddy.capacity_ buddy_both_back) < Buddy.MaxLevels)%nat /\
  Buddy.free_lists_ buddy_both_back
    = <[Buddy.GetLevel (Buddy.capacity_ buddy_both_back) := [4096]]>
        (replicate Buddy.MaxLevels []) /\
  Buddy.free_lists_ buddy_both_back = Buddy.free_lists_ buddy_fresh /\
  Buddy.GetUsedMemory buddy_both_back = 0.
Proof.
  apply (Buddy_full_cycle_restores_free_lists 4096 1000000 (fun _ => 0)
           buddy_fresh buddy_both_back).
  - lia.
  - lia.
  - vm_compute. reflexivity.
  - reflexivity.
  - exact buddy_scenario_reachable.
Defined.

(** The coalescing scenario of the specification: the capacity rounds to
    1 MiB; two allocations of 100 bytes take a block of 128 bytes each;
    with both returned nothing is used and a request of the whole arena
    less the header is served. *)
Example buddy_coalesce_scenario :
  Buddy.capacity_ buddy_fresh = MiB /\
  Buddy.GetUsedMemory (fst buddy_two) = 2 * Buddy.level_size 1 /\
  Buddy.GetUsedMemory buddy_both_back = 0 /\
  exists st', Buddy.Allocate buddy_both_back (MiB - 8) 8 = Done (st', 4096 + 8).
Proof. vm_compute. repeat split; try reflexivity. eexists. reflexivity. Qed.

(** Above 32 MiB the level of the capacity is [MaxLevels], the constructor
    leaves every free list empty, and no request is ever served. *)
Lemma BuddyAllocator_above_32MiB (pages capacity : Z) (h : heap) (st : Buddy.state) :
  2 ^ 25 < capacity <= 2 ^ 63 ->
  Buddy.BuddyAllocator pages h capacity = Done st ->
  Buddy.GetLevel (Buddy.capacity_ st) = Buddy.MaxLevels /\
  Buddy.free_lists_ st = replicate Buddy.MaxLevels [] /\
  forall size al,
    al <= alignof_max_align_t -> Buddy.Allocate st size al = Done (st, 0).
Proof.
  intros Hcap Hnew. unfold Buddy.BuddyAllocator in Hnew.
  apply hive_Assert_Done in Hnew as [_ Hnew].
  apply hive_Assert_Done in Hnew as [_ Hnew]. injection Hnew as <-.
  cbn [Buddy.capacity_ Buddy.free_lists_].
  assert (Htop : Buddy.GetLevel (NextPowerOfTwo capacity) = Buddy.MaxLevels).
  { apply GetLevel_too_large.
    pose proof (NextPowerOfTwo_ge capacity ltac:(lia)).
    change (Buddy.level_size (Buddy.MaxLevels - 1)) with (2 ^ 25). lia. }
  rewrite Htop, list_insert_ge by (cbn [length]; unfold Buddy.MaxLevels; lia).
  split; [reflexivity|]. split; [reflexivity|].
  intros size al Hal. unfold Buddy.Allocate.
  destruct (Z.leb_spec al alignof_max_align_t); [|lia].
  cbn [hive_Assert Buddy.free_lists_].
  match goal with
  | |- context [Buddy.find_free_level ?f ?fl ?l] =>
      destruct (find_free_level_spec fl f l ltac:(lia)) as [_ Hne];
      destruct (Nat.leb_spec Buddy.MaxLevels (Buddy.find_free_level f fl l))
        as [_|Hlt]; [reflexivity|exfalso; apply (Hne Hlt)]
  end.
  unfold Buddy.free_at.
  match goal with
  | |- default [] ?o = [] => destruct o as [l|] eqn:E; [|reflexivity]
  end.
  apply list_elem_of_lookup_2 in E. cbn [default].
  repeat (apply elem_of_cons in E as [->|E]; [reflexivity|]).
  now apply elem_of_nil in E.
Qed.

(** C1, evaluated on a capacity above 32 MiB.  The constructor asserts
    only that the capacity is positive.  For 64 MiB [GetLevel] answers
    [MaxLevels] = 20, one past the last level, and the constructor stores
    the arena at [free_lists_[20]], outside the array of the 20 lists: no
    list holds a block, where the claim has exactly one free block, the
    whole arena, on the list of the top level; a request of 100 bytes,
    and one of the whole arena less the header, are answered with null. *)
Theorem C1_no_free_block_above_32MiB :
  Buddy.BuddyAllocator 4096 (fun _ => 0) (64 * MiB) = Done buddy_large /\
  Buddy.GetTotalMemory buddy_large = 64 * MiB /\
  Buddy.GetLevel (Buddy.capacity_ buddy_large) = Buddy.MaxLevels /\
  length (Buddy.free_lists_ buddy_large) = Buddy.MaxLevels /\
  (forall level, Buddy.free_at (Buddy.free_lists_ buddy_large) level = []) /\
  Buddy.GetUsedMemory buddy_large = 0 /\
  Buddy.Allocate buddy_large 100 8 = Done (buddy_large, 0) /\
  Buddy.Allocate buddy_large (64 * MiB - 8) 8 = Done (buddy_large, 0).
Proof.
  assert (Hnew : Buddy.BuddyAllocator 4096 (fun _ => 0) (64 * MiB) = Done buddy_large)
    by reflexivity.
  destruct (BuddyAllocator_above_32MiB 4096 (64 * MiB) (fun _ => 0) buddy_large
              ltac:(unfold MiB; lia) Hnew) as (Htop & Hfl & Hnull).
  split; [exact Hnew|]. split; [reflexivity|]. split; [exact Htop|].
  split; [now rewrite Hfl|]. split.
  { intros level. rewrite Hfl. unfold Buddy.free_at.
    destruct (replicate Buddy.MaxLevels [] !! level) as [l|] eqn:E; [|reflexivity].
    now apply lookup_replicate in E as [-> _]. }
  split; [reflexivity|].
  split; apply Hnull; unfold alignof_max_align_t; lia.
Qed.

(** C10: [Deallocate(nullptr)] on a pool, a slab allocator and a buddy
    allocator, in any state, trips no assertion and returns the state
    unchanged: free lists, used counters and used memory. *)
Theorem C10_deallocate_null (ps : Pool.state) (ss : Slab.state) (bs : Buddy.state) :
  Pool.Deallocate ps 0 = Done ps /\
  Slab.Deallocate ss 0 = Done ss /\
  Buddy.Deallocate bs 0 = bs.
Proof. repeat split. Qed.

(** ** The free regions of a GPU block, for requests that fit a word *)

Section GPUBlock.
Import GPU.
#[local] Set Warnings "-clear-no-such-hyp".

Lemma sum_sizes_app l1 l2 : sum_sizes (l1 ++ l2) = sum_sizes l1 + sum_sizes l2.
Proof. induction l1 as [|r l1 IH]; simpl; [reflexivity|]. rewrite IH. lia. Qed.

Lemma sum_sizes_nonneg size l : Forall (region_ok size) l -> 0 <= sum_sizes l.
Proof.
  induction 1 as [|r l (_ & Hr & _) _ IH]; simpl; lia.
Qed.

Lemma filter_nonzero_id size l :
  Forall (region_ok size) l ->
  List.filter (fun r => negb (FreeRegion.size r =? 0)) l = l.
Proof.
  induction 1 as [|r l (_ & Hr & _) _ IH]; simpl; [reflexivity|].
  destruct (Z.eqb_spec (FreeRegion.size r) 0); [lia|]. simpl. now rewrite IH.
Qed.

Lemma FindFreeRegion_from_spec allocSize alignment regions : forall i j,
  MemoryBlock.FindFreeRegion_from i regions allocSize alignment = Some j ->
  exists l1 region l2,
    regions = l1 ++ region :: l2 /\ j = (i + length l1)%nat /\
    wrap (allocSize
          + wrap (AlignUp (FreeRegion.offset region) alignment - FreeRegion.offset region))
      <= FreeRegion.size region.
Proof.
  induction regions as [|r rest IH]; intros i j H; simpl in H; [discriminate|].
  match type of H with (if ?c then _ else _) = _ => destruct c eqn:Hfit end.
  - injection H as <-. exists [], r, rest. simpl. apply Z.leb_le in Hfit.
    repeat split; [lia|exact Hfit].
  - destruct (IH _ _ H) as (l1 & region & l2 & -> & -> & Hle).
    exists (r :: l1), region, l2. simpl. repeat split; [lia|exact Hle].
Qed.

(** Regions in offset order that do not overlap take no more room than
    the stretch they lie in. *)
Lemma sum_sizes_bound size l :
  StronglySorted before l -> Forall (region_ok size) l ->
  forall lo, lo <= size -> Forall (fun r => lo <= FreeRegion.offset r) l ->
  sum_sizes l <= size - lo.
Proof.
  induction l as [|r l IH]; intros Hs Hok lo Hlo Hge; simpl; [lia|].
  apply StronglySorted_cons in Hs as [Hr Hs].
  apply Forall_cons in Hok as [(Ho & Hsz & He) Hok].
  apply Forall_cons in Hge as [Hge _].
  specialize (IH Hs Hok (region_end r) He Hr). unfold region_end in *. lia.
Qed.

Lemma apart_before l : StronglySorted apart l -> StronglySorted before l.
Proof.
  induction 1 as [|r l _ IH Hr]; constructor; [exact IH|].
  eapply Forall_impl; [exact Hr|]. unfold apart, before. intros; lia.
Qed.

Lemma MemoryBlock_Allocate_inv b live allocSize k b' offset :
  block_inv b live ->
  0 < allocSize -> 0 <= k -> allocSize + 2 ^ k <= word_modulus ->
  MemoryBlock.Allocate b allocSize (2 ^ k) = (b', offset) ->
  block_inv b' (if offset =? VK_WHOLE_SIZE then live else (offset, allocSize) :: live).
Proof.
  intros [Hsize Hok Hsorted Hlok Hlf Hll [Hu0 Hused]] Hsz Hk0 Hfit HA.
  unfold MemoryBlock.Allocate in HA.
  destruct (MemoryBlock.FindFreeRegion b allocSize (2 ^ k)) as [j|] eqn:Hfind.
  2:{ injection HA as <- <-. rewrite Z.eqb_refl. now constructor. }
  apply FindFreeRegion_from_spec in Hfind as (l1 & region & l2 & Hreg & -> & Hle).
  simpl in HA. rewrite Hreg, list_lookup_middle in HA by reflexivity.
  injection HA as <- <-.
  replace (length l1) with (length l1 + 0)%nat by lia.
  rewrite insert_app_r. cbn [list_insert insert].
  rewrite Hreg in Hok, Hsorted, Hlf. unfold sum_free in Hused. rewrite Hreg in Hused.
  apply Forall_app in Hok as [Hok1 Hok]. apply Forall_cons in Hok as [(Ho & Hs & He) Hok2].
  apply StronglySorted_app in Hsorted as (H12 & Hs1 & Hs2).
  apply StronglySorted_cons in Hs2 as [Hr2 Hs2].
  rewrite sum_sizes_app in Hused. simpl in Hused.
  pose proof (sum_sizes_nonneg _ _ Hok1) as Hn1.
  pose proof (sum_sizes_nonneg _ _ Hok2) as Hn2.
  unfold region_end in *.
  (* the aligned offset and the padding *)
  assert (Hk : 0 <= k < word_bits).
  { split; [exact Hk0|]. apply (Z.pow_lt_mono_r_iff 2); unfold word_bits; try lia.
    fold word_bits. fold word_modulus. lia. }
  pose proof (pow2_in_word k Hk) as Ha.
  rewrite AlignUp_pow2 in * by (unfold in_word; lia).
  pose proof (align_up_bounds (FreeRegion.offset region) (2 ^ k) ltac:(lia)) as [HT _].
  set (T := align_up (FreeRegion.offset region) (2 ^ k)) in *.
  rewrite wrap_sub_l in *.
  rewrite (wrap_small (T - FreeRegion.offset region)) in * by (unfold in_word; lia).
  rewrite (wrap_small (allocSize + (T - FreeRegion.offset region))) in *
    by (unfold in_word; lia).
  rewrite (wrap_small T) by (unfold in_word; lia).
  rewrite (wrap_small (T + allocSize)) by (unfold in_word; lia).
  rewrite (wrap_small (FreeRegion.size region - _)) by (unfold in_word; lia).
  rewrite (wrap_small (MemoryBlock.used b + _)) by (unfold in_word; lia).
  destruct (Z.eqb_spec T VK_WHOLE_SIZE) as [E|_];
    [unfold VK_WHOLE_SIZE, SIZE_MAX in E; lia|].
  set (region' := FreeRegion.mk (T + allocSize)
                    (FreeRegion.size region - (allocSize + (T - FreeRegion.offset region)))).
  assert (Hsub : forall x, covers region' x -> covers region x).
  { intros x. unfold covers, region_end, region'. simpl. lia. }
  assert (Hnew : forall x, within (T, allocSize) x -> covers region x /\ ~ covers region' x).
  { intros x. unfold within, covers, region_end, region'. simpl. lia. }
  assert (Hin_old : forall r, r ∈ l1 ++ l2 -> r ∈ l1 ++ region :: l2).
  { intros r. rewrite !elem_of_app, elem_of_cons. tauto. }
  assert (Hregion_in : region ∈ l1 ++ region :: l2).
  { rewrite elem_of_app, elem_of_cons. tauto. }
  (* what does not depend on whether the remainder is empty *)
  assert (Hlive_ok : forall a, a ∈ (T, allocSize) :: live ->
            0 <= a.1 /\ 0 < a.2 /\ a.1 + a.2 <= MemoryBlock.size b).
  { intros a Ha'. apply elem_of_cons in Ha' as [->|Ha']; [simpl; lia|now apply Hlok]. }
  assert (Hlive_live : forall a1 a2 x,
            a1 ∈ (T, allocSize) :: live -> a2 ∈ (T, allocSize) :: live ->
            within a1 x -> within a2 x -> a1 = a2).
  { intros a1 a2 x H1 H2 Hx1 Hx2.
    apply elem_of_cons in H1 as [->|H1]; apply elem_of_cons in H2 as [->|H2].
    - reflexivity.
    - exfalso. apply Hnew in Hx1 as [Hx1 _]. exact (Hlf a2 region x H2 Hregion_in Hx2 Hx1).
    - exfalso. apply Hnew in Hx2 as [Hx2 _]. exact (Hlf a1 region x H1 Hregion_in Hx1 Hx2).
    - exact (Hll a1 a2 x H1 H2 Hx1 Hx2). }
  assert (Hother : forall r x, r ∈ l1 ++ l2 -> within (T, allocSize) x -> covers r x -> False).
  { intros r x Hr Hx Hc. apply Hnew in Hx as [Hx _].
    unfold covers, region_end, apart in *.
    apply elem_of_app in Hr as [Hr|Hr].
    - specialize (H12 r region Hr ltac:(apply list_elem_of_here)).
      unfold apart, region_end in H12. lia.
    - rewrite Forall_forall in Hr2. specialize (Hr2 r Hr).
      unfold apart, region_end in Hr2. lia. }
  change (FreeRegion.size region - (allocSize + (T - FreeRegion.offset region)) =? 0)
    with (FreeRegion.size region' =? 0).
  destruct (Z.eqb_spec (FreeRegion.size region') 0) as [Hz|Hnz].
  - (* the region is used up and erased *)
    rewrite List.filter_app. cbn [List.filter]. rewrite Hz. cbn [Z.eqb negb].
    rewrite (filter_nonzero_id _ _ Hok1), (filter_nonzero_id _ _ Hok2).
    constructor; cbn [MemoryBlock.size MemoryBlock.freeRegions MemoryBlock.used];
      try assumption.
    + apply Forall_app. auto.
    + apply StronglySorted_app. repeat split; [|exact Hs1|exact Hs2].
      intros x1 x2 H1 H2. apply H12; [exact H1|now apply list_elem_of_further].
    + intros a r x Ha' Hr Hx Hc. apply elem_of_cons in Ha' as [->|Ha'].
      * exact (Hother r x Hr Hx Hc).
      * exact (Hlf a r x Ha' (Hin_old r Hr) Hx Hc).
    + unfold sum_free. cbn [MemoryBlock.freeRegions]. rewrite sum_sizes_app.
      unfold region' in Hz. simpl in Hz. lia.
  - (* the remainder of the region stays in place *)
    assert (Hpos : 0 < FreeRegion.size region') by (unfold region' in *; simpl in *; lia).
    constructor; cbn [MemoryBlock.size MemoryBlock.freeRegions MemoryBlock.used];
      try assumption.
    + apply Forall_app. split; [exact Hok1|]. apply Forall_cons. split; [|exact Hok2].
      unfold region' in Hpos. simpl in Hpos.
      unfold region_ok, region_end, region'. simpl. lia.
    + apply StronglySorted_app. repeat split; [|exact Hs1|].
      * intros x1 x2 H1 H2. apply elem_of_cons in H2 as [->|H2].
        -- specialize (H12 x1 region H1 ltac:(apply list_elem_of_here)).
           unfold apart, region_end, region' in *. simpl. lia.
        -- apply H12; [exact H1|now apply list_elem_of_further].
      * apply StronglySorted_cons. split; [|exact Hs2].
        eapply Forall_impl; [exact Hr2|]. intros r.
        unfold apart, region_end, region'. simpl. lia.
    + intros a r x Ha' Hr Hx Hc.
      assert (Hr' : r = region' \/ r ∈ l1 ++ l2).
      { rewrite !elem_of_app, elem_of_cons in *. tauto. }
      apply elem_of_cons in Ha' as [->|Ha']; destruct Hr' as [->|Hr'].
      * apply Hnew in Hx as [_ Hx]. contradiction.
      * exact (Hother r x Hr' Hx Hc).
      * exact (Hlf a region x Ha' Hregion_in Hx (Hsub x Hc)).
      * exact (Hlf a r x Ha' (Hin_old r Hr') Hx Hc).
    + unfold sum_free. cbn [MemoryBlock.freeRegions]. rewrite sum_sizes_app.
      unfold region'. simpl. lia.
Qed.

Lemma insert_sorted_head r l :
  Forall (fun x => FreeRegion.offset r < FreeRegion.offset x) l ->
  MemoryBlock.insert_sorted r l = r :: l.
Proof.
  destruct l as [|x l]; [reflexivity|]. intros H. apply Forall_cons in H as [H _].
  simpl. destruct (Z.ltb_spec (FreeRegion.offset r) (FreeRegion.offset x));
    [reflexivity|lia].
Qed.

Lemma disjoint_before size r1 r2 :
  region_ok size r1 -> region_ok size r2 ->
  (forall x, covers r1 x -> covers r2 x -> False) ->
  before r1 r2 \/ before r2 r1.
Proof.
  intros (H1 & H2 & _) (H3 & H4 & _) Hd. unfold before, covers, region_end in *.
  destruct (Z.le_gt_cases (FreeRegion.offset r1) (FreeRegion.offset r2)).
  - destruct (Z.le_gt_cases (FreeRegion.offset r1 + FreeRegion.size r1)
                (FreeRegion.offset r2)); [left; lia|].
    exfalso. apply (Hd (FreeRegion.offset r2)); lia.
  - destruct (Z.le_gt_cases (FreeRegion.offset r2 + FreeRegion.size r2)
                (FreeRegion.offset r1)); [right; lia|].
    exfalso. apply (Hd (FreeRegion.offset r1)); lia.
Qed.

(** Sorting the list with a returned region pushed at its end puts the
    region between the regions before it and those after it. *)
Lemma sort_new_region size r l :
  StronglySorted before l -> Forall (region_ok size) l -> region_ok size r ->
  Forall (fun x => before x r \/ before r x) l ->
  exists l1 l2, l = l1 ++ l2 /\
    fold_right MemoryBlock.insert_sorted [r] l = l1 ++ r :: l2 /\
    Forall (fun x => before x r) l1 /\ Forall (before r) l2.
Proof.
  intros Hs Hok (Hr0 & Hr1 & Hr2) Hd.
  induction Hs as [|x l Hs IH Hx].
  - exists [], []. repeat split; constructor.
  - apply Forall_cons in Hok as [(Hx0 & Hx1 & Hx2) Hok].
    apply Forall_cons in Hd as [Hdx Hd].
    destruct (IH Hok Hd) as (l1 & l2 & -> & Hsort & H1 & H2).
    cbn [fold_right]. rewrite Hsort.
    destruct l1 as [|y l1].
    + cbn [app MemoryBlock.insert_sorted].
      destruct (Z.ltb_spec (FreeRegion.offset x) (FreeRegion.offset r)) as [Hlt|Hge].
      * exists [x], l2. repeat split; [|exact H2].
        apply Forall_cons. split; [|constructor].
        unfold before, region_end in *. lia.
      * rewrite insert_sorted_head.
        -- exists [], (x :: l2). repeat split; [constructor|].
           apply Forall_cons. split; [|exact H2].
           unfold before, region_end in *. lia.
        -- simpl in Hx. eapply Forall_impl; [exact Hx|].
           intros z. unfold before, region_end. lia.
    + apply Forall_cons in Hx as [Hxy Hx]. apply Forall_cons in H1 as [Hyr H1].
      apply Forall_cons in Hok as [(Hy0 & Hy1 & Hy2) Hok].
      cbn [app MemoryBlock.insert_sorted].
      destruct (Z.ltb_spec (FreeRegion.offset x) (FreeRegion.offset y)) as [Hlt|Hge];
        [|unfold before, region_end in *; lia].
      exists (x :: y :: l1), l2. repeat split; [|exact H2].
      apply Forall_cons. split; [|apply Forall_cons; split; assumption].
      unfold before, region_end in *. lia.
Qed.

(** The loop of [CoalesceFreeRegions] on regions in order that may touch:
    the result has a gap between any two regions, holds the same number
    of bytes, and covers no byte that was not covered. *)
Lemma Coalesce_loop_spec size (Hsize : size < word_modulus) :
  forall rest current coalesced,
  StronglySorted apart coalesced ->
  Forall (fun c => apart c current) coalesced ->
  StronglySorted before (current :: rest) ->
  Forall (region_ok size) coalesced -> region_ok size current ->
  Forall (region_ok size) rest ->
  StronglySorted apart (MemoryBlock.Coalesce_loop current rest coalesced) /\
  Forall (region_ok size) (MemoryBlock.Coalesce_loop current rest coalesced) /\
  sum_sizes (MemoryBlock.Coalesce_loop current rest coalesced)
    = sum_sizes coalesced + FreeRegion.size current + sum_sizes rest /\
  forall r x, r ∈ MemoryBlock.Coalesce_loop current rest coalesced -> covers r x ->
    exists r0, r0 ∈ coalesced ++ current :: rest /\ covers r0 x.
Proof.
  induction rest as [|next rest IH]; intros current coalesced Hsc Hac Hsb Hokc Hcur Hokr.
  - cbn [MemoryBlock.Coalesce_loop]. split; [|split; [|split]].
    + apply StronglySorted_app. repeat split; [|exact Hsc|repeat constructor].
      intros x1 x2 H1 H2. apply list_elem_of_singleton in H2 as ->.
      rewrite Forall_forall in Hac. now apply Hac.
    + apply Forall_app. split; [exact Hokc|]. apply Forall_cons. split; [exact Hcur|constructor].
    + rewrite sum_sizes_app. simpl. lia.
    + intros r x Hr Hx. now exists r.
  - apply StronglySorted_cons in Hsb as [Hbc Hsb].
    apply Forall_cons in Hbc as [Hbn Hbc].
    pose proof Hsb as Hsb'. apply StronglySorted_cons in Hsb' as [Hbnext _].
    apply Forall_cons in Hokr as [Hnext Hokr].
    pose proof Hcur as (Hc0 & Hc1 & Hc2). pose proof Hnext as (Hn0 & Hn1 & Hn2).
    unfold before, region_end in Hbn, Hc2, Hn2.
    cbn [MemoryBlock.Coalesce_loop].
    rewrite (wrap_small (FreeRegion.offset current + FreeRegion.size current))
      by (unfold in_word; lia).
    destruct (Z.eqb_spec (FreeRegion.offset current + FreeRegion.size current)
                (FreeRegion.offset next)) as [Heq|Hne].
    + rewrite (wrap_small (FreeRegion.size current + FreeRegion.size next))
        by (unfold in_word; lia).
      set (merged := FreeRegion.mk (FreeRegion.offset current)
                       (FreeRegion.size current + FreeRegion.size next)).
      destruct (IH merged coalesced) as (R1 & R2 & R3 & R4); try assumption.
      * apply StronglySorted_cons. split.
        -- eapply Forall_impl; [exact Hbnext|]. intros z.
           unfold before, region_end, merged. simpl. lia.
        -- now apply StronglySorted_cons in Hsb as [_ Hsb].
      * unfold region_ok, region_end, merged. simpl. lia.
      * split; [exact R1|]. split; [exact R2|]. split; [rewrite R3; simpl; lia|].
        intros r x Hr Hx. destruct (R4 r x Hr Hx) as (r0 & Hr0 & Hx0).
        apply elem_of_app in Hr0 as [Hr0|Hr0].
        { exists r0. split; [|exact Hx0]. apply elem_of_app. now left. }
        apply elem_of_cons in Hr0 as [->|Hr0].
        { unfold covers, region_end, merged in Hx0. simpl in Hx0.
          destruct (Z.lt_ge_cases x (FreeRegion.offset next)).
          - exists current. split; [|unfold covers, region_end; lia].
            apply elem_of_app. right. apply list_elem_of_here.
          - exists next. split; [|unfold covers, region_end; lia].
            apply elem_of_app. right. apply list_elem_of_further, list_elem_of_here. }
        exists r0. split; [|exact Hx0]. apply elem_of_app. right.
        now apply list_elem_of_further, list_elem_of_further.
    + destruct (IH next (coalesced ++ [current])) as (R1 & R2 & R3 & R4);
        try assumption.
      * apply StronglySorted_app. repeat split; [|exact Hsc|repeat constructor].
        intros x1 x2 H1 H2. apply list_elem_of_singleton in H2 as ->.
        rewrite Forall_forall in Hac. now apply Hac.
      * apply Forall_app. split.
        -- eapply Forall_impl; [exact Hac|]. intros c.
           unfold apart, region_end. lia.
        -- repeat constructor. unfold apart, region_end. lia.
      * apply Forall_app. split; [exact Hokc|]. apply Forall_cons. split; [exact Hcur|constructor].
      * split; [exact R1|]. split; [exact R2|].
        split; [rewrite R3, sum_sizes_app; simpl; lia|].
        intros r x Hr Hx. destruct (R4 r x Hr Hx) as (r0 & Hr0 & Hx0).
        exists r0. split; [|exact Hx0]. now rewrite <- app_assoc in Hr0.
Qed.

Lemma CoalesceFreeRegions_spec size l :
  size < word_modulus -> StronglySorted before l -> Forall (region_ok size) l ->
  StronglySorted apart (MemoryBlock.CoalesceFreeRegions l) /\
  Forall (region_ok size) (MemoryBlock.CoalesceFreeRegions l) /\
  sum_sizes (MemoryBlock.CoalesceFreeRegions l) = sum_sizes l /\
  forall r x, r ∈ MemoryBlock.CoalesceFreeRegions l -> covers r x ->
    exists r0, r0 ∈ l /\ covers r0 x.
Proof.
  intros Hsize Hs Hok.
  destruct l as [|r rest].
  { split; [constructor|]. split; [constructor|]. split; [reflexivity|].
    intros r x Hr. now apply elem_of_nil in Hr. }
  replace (MemoryBlock.CoalesceFreeRegions (r :: rest))
    with (MemoryBlock.Coalesce_loop r rest []) by (destruct rest; reflexivity).
  apply Forall_cons in Hok as [Hr Hok].
  pose proof (Coalesce_loop_spec size Hsize rest r []
                ltac:(constructor) ltac:(constructor) Hs ltac:(constructor) Hr Hok)
    as (R1 & R2 & R3 & R4).
  split; [exact R1|]. split; [exact R2|]. split; [rewrite R3; simpl; lia|exact R4].
Qed.

Lemma MemoryBlock_Deallocate_inv b live offset allocSize :
  block_inv b live -> (offset, allocSize) ∈ live ->
  block_inv (MemoryBlock.Deallocate b offset allocSize)
    (filter (λ a, a ≠ (offset, allocSize)) live).
Proof.
  intros [Hsize Hok Hsorted Hlok Hlf Hll [Hu0 Hused]] Hin.
  set (rnew := FreeRegion.mk offset allocSize).
  assert (Hnew : region_ok (MemoryBlock.size b) rnew).
  { destruct (Hlok _ Hin) as (H0 & H1 & H2). unfold region_ok, region_end. simpl in *. lia. }
  assert (Hwithin : forall x, covers rnew x <-> within (offset, allocSize) x).
  { intros x. unfold covers, within, region_end. simpl. tauto. }
  assert (Hd : Forall (fun x => before x rnew \/ before rnew x) (MemoryBlock.freeRegions b)).
  { apply Forall_forall. intros r Hr.
    apply (disjoint_before (MemoryBlock.size b)); [|exact Hnew|].
    - rewrite Forall_forall in Hok. now apply Hok.
    - intros x Hx1 Hx2. apply Hwithin in Hx2. exact (Hlf _ r x Hin Hr Hx2 Hx1). }
  pose proof (apart_before _ Hsorted) as Hsb.
  destruct (sort_new_region _ rnew _ Hsb Hok Hnew Hd)
    as (l1 & l2 & Hreg & Hsort & H1 & H2).
  unfold sum_free in Hused. rewrite Hreg in Hok, Hsb, Hlf, Hused.
  assert (Hsort' : MemoryBlock.sort (MemoryBlock.freeRegions b ++ [rnew]) = l1 ++ rnew :: l2).
  { unfold MemoryBlock.sort. rewrite fold_right_app. exact Hsort. }
  apply Forall_app in Hok as [Hok1 Hok2].
  apply StronglySorted_app in Hsb as (H12 & Hs1 & Hs2).
  assert (Hoks : Forall (region_ok (MemoryBlock.size b)) (l1 ++ rnew :: l2)).
  { apply Forall_app. split; [exact Hok1|]. apply Forall_cons. now split. }
  assert (Hss : StronglySorted before (l1 ++ rnew :: l2)).
  { apply StronglySorted_app. repeat split; [|exact Hs1|].
    - intros x1 x2 Hx1 Hx2. apply elem_of_cons in Hx2 as [->|Hx2].
      + rewrite Forall_forall in H1. now apply H1.
      + now apply H12.
    - apply StronglySorted_cons. now split. }
  destruct (CoalesceFreeRegions_spec (MemoryBlock.size b) _ ltac:(lia) Hss Hoks)
    as (R1 & R2 & R3 & R4).
  pose proof (sum_sizes_bound _ _ Hss Hoks 0 ltac:(lia)) as Hbound.
  assert (Hlo : Forall (fun r => 0 <= FreeRegion.offset r) (l1 ++ rnew :: l2)).
  { eapply Forall_impl; [exact Hoks|]. now intros r (? & _). }
  specialize (Hbound Hlo).
  rewrite sum_sizes_app in Hbound, R3, Hused. simpl in Hbound, R3.
  pose proof (sum_sizes_nonneg _ _ Hok1) as Hn1.
  pose proof (sum_sizes_nonneg _ _ Hok2) as Hn2.
  unfold MemoryBlock.Deallocate. fold rnew. rewrite Hsort'.
  constructor; cbn [MemoryBlock.size MemoryBlock.freeRegions MemoryBlock.used].
  - exact Hsize.
  - exact R2.
  - exact R1.
  - intros a Ha. apply list_elem_of_filter in Ha as [_ Ha]. now apply Hlok.
  - intros a r x Ha Hr Hx Hc. apply list_elem_of_filter in Ha as [Hne Ha].
    destruct (R4 r x Hr Hc) as (r0 & Hr0 & Hc0).
    assert (Hr0' : r0 = rnew \/ r0 ∈ l1 ++ l2).
    { rewrite !elem_of_app, elem_of_cons in *. tauto. }
    destruct Hr0' as [->|Hr0'].
    + apply Hwithin in Hc0. apply Hne. exact (Hll _ _ x Ha Hin Hx Hc0).
    + exact (Hlf a r0 x Ha Hr0' Hx Hc0).
  - intros a1 a2 x Ha1 Ha2. apply list_elem_of_filter in Ha1 as [_ Ha1].
    apply list_elem_of_filter in Ha2 as [_ Ha2]. now apply Hll.
  - unfold sum_free. cbn [MemoryBlock.freeRegions].
    destruct Hnew as (_ & Hpos & _). simpl in Hpos.
    rewrite (wrap_small (MemoryBlock.used b - allocSize)) by (unfold in_word; lia).
    lia.
Qed.

Lemma block_reachable_inv b live : block_reachable b live -> block_inv b live.
Proof.
  induction 1 as [memory blockSize ptr typeIndex Hsize
                 |b live allocSize k b' offset _ IH Hsz Hk Hfit HA
                 |b live offset allocSize _ IH Hin].
  - constructor; cbn [MemoryBlock.size MemoryBlock.freeRegions MemoryBlock.used].
    + exact Hsize.
    + repeat constructor; unfold region_end; simpl; lia.
    + repeat constructor.
    + intros a Ha. now apply elem_of_nil in Ha.
    + intros a r x Ha. now apply elem_of_nil in Ha.
    + intros a1 a2 x Ha. now apply elem_of_nil in Ha.
    + unfold sum_free. simpl. lia.
  - exact (MemoryBlock_Allocate_inv b live allocSize k b' offset IH Hsz Hk Hfit HA).
  - exact (MemoryBlock_Deallocate_inv b live offset allocSize IH Hin).
Qed.

(** X20.  Where every request fits a word with its alignment, the free
    regions of a block are in strictly increasing order of offset, no
    region ends where the next one starts (nor beyond), and the sizes of
    the free regions and the used bytes add up to the size of the block:
    the bytes of padding stay counted as used. *)
Theorem MemoryBlock_free_regions_when_requests_fit b live :
  block_reachable b live ->
  (forall i r1 r2,
     MemoryBlock.freeRegions b !! i = Some r1 ->
     MemoryBlock.freeRegions b !! S i = Some r2 ->
     FreeRegion.offset r1 < FreeRegion.offset r2 /\
     FreeRegion.offset r1 + FreeRegion.size r1 < FreeRegion.offset r2) /\
  sum_free b + MemoryBlock.used b = MemoryBlock.size b.
Proof.
  intros Hreach. destruct (block_reachable_inv b live Hreach)
    as [Hsize Hok Hsorted _ _ _ [_ Hused]].
  split; [|exact Hused].
  intros i r1 r2 H1 H2.
  assert (Hap : apart r1 r2).
  { clear Hok Hused. revert i H1 H2.
    induction Hsorted as [|x l _ IH Hx]; intros i H1 H2; [discriminate|].
    destruct i as [|i].
    - simpl in H1, H2. injection H1 as ->.
      rewrite Forall_forall in Hx. apply Hx. eapply list_elem_of_lookup_2. exact H2.
    - exact (IH i H1 H2). }
  rewrite Forall_forall in Hok.
  destruct (Hok r1 (list_elem_of_lookup_2 _ _ _ H1)) as (_ & Hpos & _).
  unfold apart, region_end in Hap. lia.
Qed.

Example gpu_block_scenario_reachable :
  block_reachable gpu_block_one_back [(128, 50)].
Proof.
  change [(128, 50)] with (filter (λ a, a ≠ (0, 100)) [(128, 50); (0, 100)]).
  apply block_Deallocate; [|apply list_elem_of_further, list_elem_of_here].
  change [(128, 50); (0, 100)]
    with (if 128 =? VK_WHOLE_SIZE then [(0, 100)] else (128, 50) :: [(0, 100)]).
  apply block_Allocate with (b := fst gpu_block_one) (k := 6);
    [|lia|lia|unfold word_modulus, word_bits; lia|reflexivity].
  change [(0, 100)] with (if 0 =? VK_WHOLE_SIZE then [] else (0, 100) :: []).
  apply block_Allocate with (b := gpu_block_fresh) (k := 4);
    [|lia|lia|unfold word_modulus, word_bits; lia|reflexivity].
  apply block_new. unfold word_modulus, word_bits. lia.
Qed.

Lemma MemoryBlock_free_regions_when_requests_fit_witness :
  (forall i r1 r2,
     MemoryBlock.freeRegions gpu_block_one_back !! i = Some r1 ->
     MemoryBlock.freeRegions gpu_block_one_back !! S i = Some r2 ->
     FreeRegion.offset r1 < FreeRegion.offset r2 /\
     FreeRegion.offset r1 + FreeRegion.size r1 < FreeRegion.offset r2) /\
  sum_free gpu_block_one_back + MemoryBlock.used gpu_block_one_back
    = MemoryBlock.size gpu_block_one_back.
Proof.
  exact (MemoryBlock_free_regions_when_requests_fit gpu_block_one_back [(128, 50)]
           gpu_block_scenario_reachable).
Defined.

Example gpu_block_scenario :
  MemoryBlock.freeRegions gpu_block_one_back
    = [FreeRegion.mk 0 100; FreeRegion.mk 178 846] /\
  MemoryBlock.used gpu_block_one_back = 78 /\
  sum_free gpu_block_one_back + MemoryBlock.used gpu_block_one_back = 1024.
Proof. split; [reflexivity|]. split; reflexivity. Qed.

End GPUBlock.

(** * Further properties of the allocators *)

(** ** Words *)

Lemma pow2_of_land x : 0 < x -> Z.land x (x - 1) = 0 -> x = 2 ^ Z.log2 x.
Proof.
  intros Hx Hl.
  destruct (Z.log2_spec x Hx) as [Hlo Hhi].
  destruct (Z.eq_dec x (2 ^ Z.log2 x)) as [|Hne]; [assumption|exfalso].
  assert (Hk : Z.log2 (x - 1) = Z.log2 x).
  { apply Z.log2_unique; [apply Z.log2_nonneg|]. rewrite <- Z.add_1_r in *. lia. }
  assert (H1 : Z.testbit x (Z.log2 x) = true) by (apply Z.bit_log2; lia).
  assert (H2 : Z.testbit (x - 1) (Z.log2 x) = true).
  { rewrite <- Hk. apply Z.bit_log2.
    pose proof (Z.pow_pos_nonneg 2 (Z.log2 x) ltac:(lia) (Z.log2_nonneg x)). lia. }
  assert (H3 : Z.testbit (Z.land x (x - 1)) (Z.log2 x) = true).
  { rewrite Z.land_spec, H1, H2. reflexivity. }
  rewrite Hl, Z.bits_0 in H3. discriminate.
Qed.

(** The alignments [IsPowerOfTwo] accepts are the powers of two of a
    word. *)
Lemma IsPowerOfTwo_inv a :
  in_word a -> IsPowerOfTwo a = true -> exists k, 0 <= k < word_bits /\ a = 2 ^ k.
Proof.
  intros Ha H. unfold IsPowerOfTwo in H. apply andb_true_iff in H as [Hnz Hl].
  apply negb_true_iff, Z.eqb_neq in Hnz. apply Z.eqb_eq in Hl.
  unfold in_word in Ha.
  rewrite wrap_small in Hl by (unfold in_word; lia).
  exists (Z.log2 a). split; [|apply pow2_of_land; [lia|exact Hl]].
  split; [apply Z.log2_nonneg|].
  destruct (Z.log2_spec a ltac:(lia)) as [Hlo _].
  apply (Z.pow_lt_mono_r_iff 2); unfold word_bits; try lia.
  fold word_bits. fold word_modulus. lia.
Qed.

(** ** Linear allocator *)

Section LinearMore.
Import Linear.

Lemma Linear_Allocate_fields st size alignment st' p :
  Allocate st size alignment = Done (st', p) ->
  base_ st' = base_ st /\ capacity_ st' = capacity_ st.
Proof.
  intros HA. unfold Allocate in HA.
  apply hive_Assert_Done in HA as [_ HA].
  apply hive_Assert_Done in HA as [_ HA]. injection HA as HA.
  unfold Allocate_body in HA. destruct (_ <? _); injection HA as <- _; auto.
Qed.

Lemma Linear_run_fields st st' :
  Linear_run st st' -> base_ st' = base_ st /\ capacity_ st' = capacity_ st.
Proof.
  induction 1 as [|st1 size al st2 p _ IH _ _ HA|st1 ptr _ IH|st1 _ IH
                 |st1 marker st2 _ IH _ HR]; auto.
  - apply Linear_Allocate_fields in HA as [-> ->]. exact IH.
  - unfold ResetToMarker in HR. apply hive_Assert_Done in HR as [_ HR].
    injection HR as <-. exact IH.
Qed.

End LinearMore.

(** X1.  In every state a linear allocator goes through, whatever sizes
    and alignments were asked for (also those whose padded size wraps),
    the used bytes lie between 0 and the capacity, and the cursor is the
    base plus the used bytes. *)
Theorem Linear_used_within_capacity (st : Linear.state) :
  Linear.reachable st ->
  0 <= Linear.GetUsedMemory st <= Linear.GetTotalMemory st /\
  Linear.current_ st = Linear.base_ st + Linear.GetUsedMemory st.
Proof.
  intros Hr. apply Linear_reachable_inv in Hr as (Hb & Hc & Hcur & Hend).
  unfold Linear.GetUsedMemory, Linear.GetTotalMemory.
  rewrite wrap_small by (unfold in_word; lia). lia.
Qed.

Lemma linear_two_reachable : Linear.reachable (fst linear_two).
Proof.
  apply (Linear.reach_Allocate (fst linear_one) 200 64 _ (snd linear_two));
    [|unfold in_word, word_modulus, word_bits; lia
     |unfold in_word, word_modulus, word_bits; lia|reflexivity].
  apply (Linear.reach_Allocate linear_fresh 100 16 _ (snd linear_one));
    [|unfold in_word, word_modulus, word_bits; lia
     |unfold in_word, word_modulus, word_bits; lia|reflexivity].
  apply (Linear.reach_new 4096 1024); [lia|lia|reflexivity|reflexivity].
Defined.

Lemma Linear_used_within_capacity_witness :
  0 <= Linear.GetUsedMemory (fst linear_two) <= Linear.GetTotalMemory (fst linear_two) /\
  Linear.current_ (fst linear_two)
    = Linear.base_ (fst linear_two) + Linear.GetUsedMemory (fst linear_two).
Proof.
  apply (Linear_used_within_capacity (fst linear_two)). exact linear_two_reachable.
Defined.

(** X2.  A request that fits a word with its alignment is served by the
    bump of the specification: when the aligned block does not fit the
    arena the answer is null and the state is the one before; otherwise
    the block starts at the least multiple of the alignment at or after
    the cursor, lies between the old cursor and the new one, and ends
    inside the arena. *)
Theorem Linear_Allocate_block_in_arena (st st' : Linear.state) (size alignment p : Z) :
  Linear.reachable st -> in_word alignment -> 0 < size ->
  size + alignment <= word_modulus ->
  Linear.Allocate st size alignment = Done (st', p) ->
  let aligned := align_up (Linear.current_ st) alignment in
  aligned mod alignment = 0 /\
  Linear.current_ st <= aligned < Linear.current_ st + alignment /\
  (Linear.base_ st + Linear.capacity_ st < aligned + size ->
     p = 0 /\ st' = st) /\
  (aligned + size <= Linear.base_ st + Linear.capacity_ st ->
     p = aligned /\ Linear.current_ st' = p + size /\
     Linear.base_ st' = Linear.base_ st /\
     Linear.capacity_ st' = Linear.capacity_ st).
Proof.
  intros Hr Hal Hsz Hfit HA aligned.
  pose proof (Linear_reachable_inv st Hr) as Hinv.
  assert (Hpow : exists k, 0 <= k < word_bits /\ alignment = 2 ^ k).
  { apply IsPowerOfTwo_inv; [exact Hal|].
    unfold Linear.Allocate in HA. now apply hive_Assert_Done in HA as [? _]. }
  destruct Hpow as (k & Hk & ->).
  pose proof (pow2_in_word k Hk) as Ha.
  pose proof (align_up_bounds (Linear.current_ st) (2 ^ k) ltac:(lia)) as [HT Hmod].
  fold aligned in HT, Hmod.
  destruct (Linear_Allocate_no_overflow st size k Hinv Hk Hsz)
    as (st1 & p1 & HA1 & Hb1 & Hc1 & Hcur1 & Hp1); [fold aligned; lia|].
  rewrite HA1 in HA. injection HA as <- <-.
  unfold Linear.spec_Allocate in Hcur1, Hp1. fold aligned in Hcur1, Hp1.
  split; [exact Hmod|]. split; [exact HT|].
  destruct (Z.ltb_spec (Linear.base_ st + Linear.capacity_ st) (aligned + size));
    simpl in Hcur1, Hp1; split; intros Hcmp; try lia.
  split; [exact Hp1|]. destruct st, st1; simpl in *. congruence.
Qed.

Lemma Linear_Allocate_block_in_arena_witness :
  let aligned := align_up (Linear.current_ (fst linear_one)) 64 in
  aligned mod 64 = 0 /\
  Linear.current_ (fst linear_one) <= aligned < Linear.current_ (fst linear_one) + 64 /\
  (Linear.base_ (fst linear_one) + Linear.capacity_ (fst linear_one) < aligned + 200 ->
     snd linear_two = 0 /\ fst linear_two = fst linear_one) /\
  (aligned + 200 <= Linear.base_ (fst linear_one) + Linear.capacity_ (fst linear_one) ->
     snd linear_two = aligned /\ Linear.current_ (fst linear_two) = snd linear_two + 200 /\
     Linear.base_ (fst linear_two) = Linear.base_ (fst linear_one) /\
     Linear.capacity_ (fst linear_two) = Linear.capacity_ (fst linear_one)).
Proof.
  apply (Linear_Allocate_block_in_arena (fst linear_one) (fst linear_two) 200 64
           (snd linear_two)).
  - apply (Linear.reach_Allocate linear_fresh 100 16 _ (snd linear_one));
      [|unfold in_word, word_modulus, word_bits; lia
       |unfold in_word, word_modulus, word_bits; lia|reflexivity].
    apply (Linear.reach_new 4096 1024); [lia|lia|reflexivity|reflexivity].
  - unfold in_word, word_modulus, word_bits. lia.
  - lia.
  - unfold word_modulus, word_bits. lia.
  - reflexivity.
Defined.

(** X3.  A marker can be restored after any calls: whatever the allocator
    did since [GetMarker] (allocations, resets, other markers),
    [ResetToMarker] with that marker passes its range check and gives
    back exactly the state the marker was taken in. *)
Theorem Linear_marker_round_trip (st st' : Linear.state) :
  Linear.reachable st -> Linear_run st st' ->
  Linear.ResetToMarker st' (Linear.GetMarker st) = Done st.
Proof.
  intros Hr Hrun.
  apply Linear_reachable_inv in Hr as (Hb & Hc & Hcur & Hend).
  apply Linear_run_fields in Hrun as [Hbase Hcap].
  unfold Linear.ResetToMarker, Linear.GetMarker. rewrite Hbase, Hcap.
  rewrite wrap_small by (unfold in_word; lia).
  destruct (Z.leb_spec (Linear.base_ st) (Linear.current_ st)); [|lia].
  destruct (Z.leb_spec (Linear.current_ st) (Linear.base_ st + Linear.capacity_ st)); [|lia].
  simpl. now destruct st.
Qed.

Lemma Linear_marker_round_trip_witness :
  Linear.ResetToMarker (Linear.Reset (fst linear_two)) (Linear.GetMarker (fst linear_one))
    = Done (fst linear_one).
Proof.
  apply (Linear_marker_round_trip (fst linear_one) (Linear.Reset (fst linear_two))).
  - apply (Linear.reach_Allocate linear_fresh 100 16 _ (snd linear_one));
      [|unfold in_word, word_modulus, word_bits; lia
       |unfold in_word, word_modulus, word_bits; lia|reflexivity].
    apply (Linear.reach_new 4096 1024); [lia|lia|reflexivity|reflexivity].
  - apply Linear_run_Reset.
    apply (Linear_run_Allocate _ (fst linear_one) 200 64 _ (snd linear_two));
      [apply Linear_run_refl
      |unfold in_word, word_modulus, word_bits; lia
      |unfold in_word, word_modulus, word_bits; lia|reflexivity].
Defined.

(** X4.  [Reset] gives back the state the constructor built, whatever the
    allocator did in between, and no byte is used then. *)
Theorem Linear_Reset_restores_constructed (pages capacity : Z) (st0 st : Linear.state) :
  Linear.LinearAllocator pages capacity = Done st0 -> Linear_run st0 st ->
  Linear.Reset st = st0 /\ Linear.GetUsedMemory (Linear.Reset st) = 0.
Proof.
  intros Hnew Hrun. unfold Linear.LinearAllocator in Hnew.
  apply hive_Assert_Done in Hnew as [_ Hnew]. injection Hnew as <-.
  apply Linear_run_fields in Hrun as [Hbase Hcap]. simpl in Hbase, Hcap.
  unfold Linear.Reset, Linear.GetUsedMemory. rewrite Hbase, Hcap. simpl.
  rewrite Z.sub_diag. split; reflexivity.
Qed.

Lemma Linear_Reset_restores_constructed_witness :
  Linear.Reset (fst linear_two) = linear_fresh /\
  Linear.GetUsedMemory (Linear.Reset (fst linear_two)) = 0.
Proof.
  apply (Linear_Reset_restores_constructed 4096 1024 linear_fresh (fst linear_two)).
  - reflexivity.
  - apply (Linear_run_Allocate _ (fst linear_one) 200 64 _ (snd linear_two));
      [|unfold in_word, word_modulus, word_bits; lia
       |unfold in_word, word_modulus, word_bits; lia|reflexivity].
    apply (Linear_run_Allocate _ linear_fresh 100 16 _ (snd linear_one));
      [apply Linear_run_refl
      |unfold in_word, word_modulus, word_bits; lia
      |unfold in_word, word_modulus, word_bits; lia|reflexivity].
Defined.

(** ** Stack allocator *)

Section StackMore.
Import Stack.

(** A bump never moves the cursor back, and keeps it inside the arena. *)
Lemma Stack_Allocate_body_cursor st size alignment :
  inv st ->
  let st' := fst (Allocate_body st size alignment) in
  memory_block_ st' = memory_block_ st /\ capacity_ st' = capacity_ st /\
  current_ st <= current_ st' <= capacity_ st.
Proof.
  intros (Hb & Hcur & Hend). unfold Allocate_body.
  set (A := AlignUp (wrap (memory_block_ st + current_ st)) alignment).
  set (ac := wrap (A - memory_block_ st)).
  set (required := wrap (wrap (ac - current_ st) + size)).
  rewrite (wrap_small (capacity_ st - _)) by (unfold in_word; lia).
  destruct (Z.ltb_spec (capacity_ st - current_ st) required) as [Hlt|Hge];
    simpl; [lia|].
  assert (Hreq : in_word required) by apply wrap_range.
  assert (E : wrap (ac + size) = current_ st + required).
  { rewrite <- (wrap_small (current_ st + required)) by (unfold in_word in *; lia).
    unfold required. rewrite wrap_add_r.
    replace (current_ st + (wrap (ac - current_ st) + size))
      with (wrap (ac - current_ st) + (current_ st + size)) by lia.
    rewrite wrap_add_l. f_equal. lia. }
  rewrite E. unfold in_word in *. lia.
Qed.

Lemma Stack_scope_fields st st' :
  inv st -> Stack_scope st st' ->
  memory_block_ st' = memory_block_ st /\ capacity_ st' = capacity_ st /\
  current_ st <= current_ st' <= capacity_ st.
Proof.
  intros Hinv. pose proof Hinv as (Hb & Hcur & Hend).
  induction 1 as [|st1 size al st2 p _ IH _ _ HA|st1 ptr _ IH
                 |st1 marker st2 _ IH Hm HF].
  - repeat split; lia.
  - destruct IH as (Hm1 & Hc1 & Hcur1).
    unfold Allocate in HA.
    apply hive_Assert_Done in HA as [_ HA].
    apply hive_Assert_Done in HA as [_ HA]. injection HA as HA.
    assert (Hinv1 : inv st1) by (unfold inv; rewrite Hm1, Hc1; lia).
    pose proof (Stack_Allocate_body_cursor st1 size al Hinv1) as H'.
    rewrite HA in H'. simpl in H'. destruct H' as (-> & -> & H').
    repeat split; lia.
  - exact IH.
  - destruct IH as (Hm1 & Hc1 & Hcur1). unfold FreeToMarker in HF.
    apply hive_Assert_Done in HF as [H1 HF].
    apply hive_Assert_Done in HF as [H2 HF]. injection HF as <-.
    apply Z.leb_le in H1, H2. unfold GetMarker in Hm. simpl.
    repeat split; try assumption; lia.
Qed.

End StackMore.

(** X5.  In every state a stack allocator goes through, the free bytes
    and the used bytes add up to the capacity, and the used bytes never
    exceed it. *)
Theorem Stack_free_plus_used (st : Stack.state) :
  Stack.reachable st ->
  Stack.GetFreeMemory st + Stack.GetUsedMemory st = Stack.GetTotalMemory st /\
  0 <= Stack.GetUsedMemory st <= Stack.GetTotalMemory st.
Proof.
  intros Hr. apply Stack_reachable_inv in Hr as (Hb & Hcur & Hend).
  unfold Stack.GetFreeMemory, Stack.GetUsedMemory, Stack.GetTotalMemory.
  rewrite wrap_small by (unfold in_word; lia). lia.
Qed.

Lemma stack_one_reachable : Stack.reachable (fst stack_one).
Proof.
  apply (Stack.reach_Allocate stack_fresh 100 16 _ (snd stack_one));
    [|unfold in_word, word_modulus, word_bits; lia
     |unfold in_word, word_modulus, word_bits; lia|reflexivity].
  apply (Stack.reach_new 4097 1024); [lia|lia|reflexivity|reflexivity].
Defined.

Lemma Stack_free_plus_used_witness :
  Stack.GetFreeMemory (fst stack_one) + Stack.GetUsedMemory (fst stack_one)
    = Stack.GetTotalMemory (fst stack_one) /\
  0 <= Stack.GetUsedMemory (fst stack_one) <= Stack.GetTotalMemory (fst stack_one).
Proof.
  apply (Stack_free_plus_used (fst stack_one)). exact stack_one_reachable.
Defined.

(** X6.  The stack allocator aligns the address, not the offset: for a
    request that fits a word with its alignment, a block that is handed
    out starts at the least multiple of the alignment at or after
    [memory_block_ + current_], also where the block of the allocator is
    itself not aligned, and ends inside the arena; a block that does not
    fit is answered with null and the state is the one before. *)
Theorem Stack_Allocate_block_in_arena (st st' : Stack.state) (size alignment p : Z) :
  Stack.reachable st -> in_word alignment -> 0 < size ->
  size + alignment <= word_modulus ->
  Stack.Allocate st size alignment = Done (st', p) ->
  let top := Stack.memory_block_ st + Stack.current_ st in
  let aligned := align_up top alignment in
  aligned mod alignment = 0 /\ top <= aligned < top + alignment /\
  (Stack.memory_block_ st + Stack.capacity_ st < aligned + size ->
     p = 0 /\ st' = st) /\
  (aligned + size <= Stack.memory_block_ st + Stack.capacity_ st ->
     p = aligned /\
     Stack.memory_block_ st' + Stack.current_ st' = p + size /\
     Stack.memory_block_ st' = Stack.memory_block_ st /\
     Stack.capacity_ st' = Stack.capacity_ st).
Proof.
  intros Hr Hal Hsz Hfit HA top aligned.
  pose proof (Stack_reachable_inv st Hr) as Hinv.
  assert (Hpow : exists k, 0 <= k < word_bits /\ alignment = 2 ^ k).
  { apply IsPowerOfTwo_inv; [exact Hal|].
    unfold Stack.Allocate in HA. apply hive_Assert_Done in HA as [_ HA].
    now apply hive_Assert_Done in HA as [? _]. }
  destruct Hpow as (k & Hk & ->).
  pose proof (pow2_in_word k Hk) as Ha.
  pose proof (align_up_bounds top (2 ^ k) ltac:(lia)) as [HT Hmod].
  fold aligned in HT, Hmod.
  destruct (Stack_Allocate_no_overflow st size k Hinv Hk Hsz)
    as (st1 & p1 & HA1 & Hb1 & Hc1 & Hcur1 & Hp1); [fold top; fold aligned; lia|].
  rewrite HA1 in HA. injection HA as <- <-.
  unfold Stack.spec_Allocate in Hcur1, Hp1. fold top in Hcur1, Hp1.
  fold aligned in Hcur1, Hp1.
  split; [exact Hmod|]. split; [exact HT|].
  destruct (Z.ltb_spec (Stack.memory_block_ st + Stack.capacity_ st) (aligned + size));
    simpl in Hcur1, Hp1; split; intros Hcmp; try lia.
  split; [exact Hp1|]. destruct st, st1; simpl in *. congruence.
Qed.

Lemma Stack_Allocate_block_in_arena_witness :
  let top := Stack.memory_block_ stack_fresh + Stack.current_ stack_fresh in
  let aligned := align_up top 16 in
  aligned mod 16 = 0 /\ top <= aligned < top + 16 /\
  (Stack.memory_block_ stack_fresh + Stack.capacity_ stack_fresh < aligned + 100 ->
     snd stack_one = 0 /\ fst stack_one = stack_fresh) /\
  (aligned + 100 <= Stack.memory_block_ stack_fresh + Stack.capacity_ stack_fresh ->
     snd stack_one = aligned /\
     Stack.memory_block_ (fst stack_one) + Stack.current_ (fst stack_one)
       = snd stack_one + 100 /\
     Stack.memory_block_ (fst stack_one) = Stack.memory_block_ stack_fresh /\
     Stack.capacity_ (fst stack_one) = Stack.capacity_ stack_fresh).
Proof.
  apply (Stack_Allocate_block_in_arena stack_fresh (fst stack_one) 100 16 (snd stack_one)).
  - apply (Stack.reach_new 4097 1024); [lia|lia|reflexivity|reflexivity].
  - unfold in_word, word_modulus, word_bits. lia.
  - lia.
  - unfold word_modulus, word_bits. lia.
  - reflexivity.
Defined.

(** X7.  Markers of the stack allocator nest: after any allocations, and
    any scopes opened later and closed in LIFO order, [FreeToMarker] with
    the marker taken in a state passes both checks and gives back exactly
    that state. *)
Theorem Stack_marker_round_trip (st st' : Stack.state) :
  Stack.reachable st -> Stack_scope st st' ->
  Stack.FreeToMarker st' (Stack.GetMarker st) = Done st.
Proof.
  intros Hr Hs. apply Stack_reachable_inv in Hr.
  destruct (Stack_scope_fields st st' Hr Hs) as (Hm & Hc & Hcur).
  destruct Hr as (Hb & Hcur0 & Hend).
  unfold Stack.FreeToMarker, Stack.GetMarker. rewrite Hm, Hc.
  destruct (Z.leb_spec (Stack.current_ st) (Stack.current_ st')); [|lia].
  destruct (Z.leb_spec (Stack.current_ st) (Stack.capacity_ st)); [|lia].
  simpl. now destruct st.
Qed.

Lemma Stack_marker_round_trip_witness :
  Stack.FreeToMarker (fst stack_two) (Stack.GetMarker (fst stack_one))
    = Done (fst stack_one).
Proof.
  apply (Stack_marker_round_trip (fst stack_one) (fst stack_two)).
  - exact stack_one_reachable.
  - apply (Stack_scope_Allocate _ (fst stack_one) 200 64 _ (snd stack_two));
      [apply Stack_scope_refl
      |unfold in_word, word_modulus, word_bits; lia
      |unfold in_word, word_modulus, word_bits; lia|reflexivity].
Defined.

(** X8.  [Reset] is [FreeToMarker(0)], as the header says: in every state
    a stack allocator goes through, freeing to marker 0 passes both
    checks and gives the state [Reset] gives, with no byte used. *)
Theorem Stack_Reset_is_FreeToMarker_zero (st : Stack.state) :
  Stack.reachable st ->
  Stack.FreeToMarker st 0 = Done (Stack.Reset st) /\
  Stack.GetUsedMemory (Stack.Reset st) = 0.
Proof.
  intros Hr. apply Stack_reachable_inv in Hr as (Hb & Hcur & Hend).
  unfold Stack.FreeToMarker, Stack.Reset.
  destruct (Z.leb_spec 0 (Stack.current_ st)); [|lia].
  destruct (Z.leb_spec 0 (Stack.capacity_ st)); [|lia].
  split; reflexivity.
Qed.

Lemma Stack_Reset_is_FreeToMarker_zero_witness :
  Stack.FreeToMarker (fst stack_one) 0 = Done (Stack.Reset (fst stack_one)) /\
  Stack.GetUsedMemory (Stack.Reset (fst stack_one)) = 0.
Proof.
  apply (Stack_Reset_is_FreeToMarker_zero (fst stack_one)). exact stack_one_reachable.
Defined.

(** ** Pool allocator *)

Section PoolMore.
Import Pool.

Lemma slots_app slot n m : forall cur,
  slots slot cur (n + m) = slots slot cur n ++ slots slot (cur + Z.of_nat n * slot) m.
Proof.
  induction n as [|n IH]; intros cur.
  - simpl. now rewrite Z.add_0_r.
  - cbn [slots Nat.add app]. rewrite IH. do 3 f_equal. lia.
Qed.

(** Along a chain the pool hands out the free slots in the order of the
    chain. *)
Lemma Pool_Allocate_many_chain T l1 : forall st l2,
  chain (mem st) (free_list_head_ st) (l1 ++ l2) ->
  0 <= used_count_ st ->
  used_count_ st + Z.of_nat (length l1) < word_modulus ->
  exists st',
    Pool_Allocate_many T st (length l1) = Done (st', l1) /\
    mem st' = mem st /\ memory_block_ st' = memory_block_ st /\
    capacity_ st' = capacity_ st /\
    used_count_ st' = used_count_ st + Z.of_nat (length l1) /\
    chain (mem st') (free_list_head_ st') l2.
Proof.
  induction l1 as [|a l1 IH]; intros st l2 Hch Hu0 Hu.
  - exists st. simpl. rewrite Z.add_0_r. auto 10.
  - cbn [app chain] in Hch. destruct Hch as (Ea & Ha & Hch).
    cbn [length Pool_Allocate_many]. unfold Allocate.
    rewrite !Z.leb_refl. cbn [hive_Assert].
    destruct (Z.eqb_spec (free_list_head_ st) 0) as [E0|_]; [congruence|].
    rewrite (wrap_small (used_count_ st + 1)) by (unfold in_word; simpl in Hu; lia).
    set (st1 := {| memory_block_ := memory_block_ st;
                   free_list_head_ := mem st (free_list_head_ st);
                   capacity_ := capacity_ st;
                   used_count_ := used_count_ st + 1;
                   total_size_ := total_size_ st;
                   mem := mem st |}).
    destruct (IH st1 l2) as (st' & E & Hm & Hb & Hc & Hcnt & Hch');
      [simpl; rewrite Ea; exact Hch|simpl; lia|simpl in *; lia|].
    rewrite E. exists st'. simpl in *. rewrite Ea.
    repeat split; try assumption. lia.
Qed.

(** [Reset] threads all the slots of the block, in address order. *)
Lemma Pool_Reset_chain T st :
  0 < memory_block_ st -> 0 < capacity_ st -> 0 < slot_size T ->
  memory_block_ st + capacity_ st * slot_size T < word_modulus ->
  chain (mem (Reset T st)) (free_list_head_ (Reset T st))
    (slots (slot_size T) (memory_block_ st) (Z.to_nat (capacity_ st))) /\
  free_list_head_ (Reset T st) = memory_block_ st /\
  memory_block_ (Reset T st) = memory_block_ st /\
  capacity_ (Reset T st) = capacity_ st /\
  used_count_ (Reset T st) = 0.
Proof.
  intros Hp Hcap Hs Hend.
  assert (Hcw : capacity_ st < word_modulus) by nia.
  unfold Reset.
  rewrite (wrap_small (capacity_ st - 1)) by (unfold in_word; lia).
  destruct (Reset_loop_chain (slot_size T) (Z.to_nat (capacity_ st - 1)) Hs
              (memory_block_ st) (mem st) Hp) as (h' & E & _ & Hch); [nia|].
  rewrite E. simpl.
  replace (Z.to_nat (capacity_ st)) with (S (Z.to_nat (capacity_ st - 1))) by lia.
  auto.
Qed.

(** The block, the capacity and their bounds stay as the constructor set
    them. *)
Lemma Pool_reachable_params T st live :
  reachable T st live ->
  0 < memory_block_ st /\ 0 < capacity_ st /\ 0 < slot_size T /\
  memory_block_ st + capacity_ st * slot_size T < word_modulus.
Proof.
  induction 1 as [pages h capacity st Hp Hs Hend Hnew
                 |st live size al st' p _ IH HA Hp
                 |st live size al st' _ IH HA
                 |st live p st' _ IH Hin HD
                 |st live st' _ IH HD].
  - unfold PoolAllocator in Hnew.
    apply hive_Assert_Done in Hnew as [Hcap Hnew].
    apply hive_Assert_Done in Hnew as [_ Hnew]. injection Hnew as <-.
    apply Z.ltb_lt in Hcap. unfold Reset. simpl.
    destruct (Reset_loop _ _ _ _). simpl. auto.
  - unfold Allocate in HA.
    apply hive_Assert_Done in HA as [_ HA].
    apply hive_Assert_Done in HA as [_ HA].
    destruct (_ =? 0); injection HA as <- _; exact IH.
  - unfold Allocate in HA.
    apply hive_Assert_Done in HA as [_ HA].
    apply hive_Assert_Done in HA as [_ HA].
    destruct (_ =? 0); injection HA as <-; exact IH.
  - unfold Deallocate in HD. destruct (_ =? 0); [injection HD as <-; exact IH|].
    apply hive_Assert_Done in HD as [_ HD]. injection HD as <-. exact IH.
  - unfold Deallocate in HD. simpl in HD. injection HD as <-. exact IH.
Qed.

End PoolMore.

(** X9.  In every state a pool goes through, the used count is the number
    of slots handed out and not yet returned, these slots are pairwise
    distinct, and the free count and the used count add up to the
    capacity. *)
Theorem Pool_counts (T : Pool.elem) (st : Pool.state) (live : list Z) :
  Pool.reachable T st live ->
  Pool.GetUsedCount st = Z.of_nat (length live) /\ NoDup live /\
  0 <= Pool.GetFreeCount st /\
  Pool.GetFreeCount st + Pool.GetUsedCount st = Pool.GetCapacity st.
Proof.
  intros Hr. apply Pool_reachable_inv in Hr as (fl & Hch & Hnd & Hu & Hlen & Hcw & H0).
  unfold Pool.GetUsedCount, Pool.GetFreeCount, Pool.GetCapacity.
  apply NoDup_app in Hnd as (_ & _ & Hlv).
  rewrite wrap_small by (unfold in_word; lia).
  repeat split; try assumption; lia.
Qed.

Lemma Pool_counts_witness :
  Pool.GetUsedCount (pool_used 0 3) = Z.of_nat (length [4128; 4112; 4096]) /\
  NoDup [4128; 4112; 4096] /\
  0 <= Pool.GetFreeCount (pool_used 0 3) /\
  Pool.GetFreeCount (pool_used 0 3) + Pool.GetUsedCount (pool_used 0 3)
    = Pool.GetCapacity (pool_used 0 3).
Proof.
  exact (Pool_counts Enemy (pool_used 0 3) [4128; 4112; 4096] pool_scenario_reachable).
Defined.

(** X10.  [Allocate] answers null exactly when the pool is exhausted, and
    then changes nothing; otherwise it hands out a slot that is not null
    and not among the live ones, and one more slot is used. *)
Theorem Pool_Allocate_exhaustion (T : Pool.elem) (st : Pool.state) (live : list Z)
    (size al : Z) :
  Pool.reachable T st live ->
  size <= Pool.sizeof_T T -> al <= Pool.alignof_T T ->
  exists st' p,
    Pool.Allocate T st size al = Done (st', p) /\
    (Pool.GetFreeCount st = 0 -> p = 0 /\ st' = st) /\
    (0 < Pool.GetFreeCount st ->
       p <> 0 /\ (p ∉ live) /\
       Pool.GetUsedCount st' = Pool.GetUsedCount st + 1 /\
       Pool.GetFreeCount st' = Pool.GetFreeCount st - 1).
Proof.
  intros Hr Hsz Hal.
  apply Pool_reachable_inv in Hr as (fl & Hch & Hnd & Hu & Hlen & Hcw & H0).
  unfold Pool.Allocate, Pool.GetFreeCount, Pool.GetUsedCount.
  destruct (Z.leb_spec size (Pool.sizeof_T T)); [|lia].
  destruct (Z.leb_spec al (Pool.alignof_T T)); [|lia].
  cbn [hive_Assert].
  rewrite (wrap_small (Pool.capacity_ st - _)) by (unfold in_word; lia).
  destruct fl as [|a fl]; cbn [Pool.chain] in Hch.
  - rewrite Hch. simpl. eexists _, _. split; [reflexivity|].
    split; [auto|]. simpl in Hlen. lia.
  - destruct Hch as (Ea & Ha & Hch).
    destruct (Z.eqb_spec (Pool.free_list_head_ st) 0) as [|_]; [congruence|].
    eexists _, _. split; [reflexivity|]. simpl in Hlen.
    split; [lia|]. intros _. simpl.
    rewrite (wrap_small (Pool.used_count_ st + 1)) by (unfold in_word; lia).
    rewrite wrap_small by (unfold in_word; lia).
    split; [congruence|]. split; [|lia].
    rewrite Ea. apply NoDup_cons in Hnd as [Hnin _].
    rewrite elem_of_app in Hnin. tauto.
Qed.

Lemma Pool_Allocate_exhaustion_witness :
  exists st' p,
    Pool.Allocate Enemy (pool_used 0 3) 16 8 = Done (st', p) /\
    (Pool.GetFreeCount (pool_used 0 3) = 0 -> p = 0 /\ st' = pool_used 0 3) /\
    (0 < Pool.GetFreeCount (pool_used 0 3) ->
       p <> 0 /\ (p ∉ [4128; 4112; 4096]) /\
       Pool.GetUsedCount st' = Pool.GetUsedCount (pool_used 0 3) + 1 /\
       Pool.GetFreeCount st' = Pool.GetFreeCount (pool_used 0 3) - 1).
Proof.
  apply (Pool_Allocate_exhaustion Enemy (pool_used 0 3) [4128; 4112; 4096] 16 8).
  - exact pool_scenario_reachable.
  - simpl. lia.
  - simpl. lia.
Defined.

(** X11.  A new pool hands out its slots in address order: the first [n]
    allocations return [memory_block_], [memory_block_ + slot_size], ...,
    and once all [capacity] slots are out the next request is answered
    with null. *)
Theorem Pool_new_serves_slots_in_order (T : Pool.elem) (pages capacity : Z)
    (h : heap) (st : Pool.state) (n : nat) :
  0 < pages -> 0 < Pool.slot_size T ->
  pages + capacity * Pool.slot_size T < word_modulus ->
  Pool.PoolAllocator T pages h capacity = Done st ->
  Z.of_nat n <= capacity ->
  exists st',
    Pool_Allocate_many T st n = Done (st', Pool.slots (Pool.slot_size T) pages n) /\
    Pool.GetUsedCount st' = Z.of_nat n /\
    (Z.of_nat n = capacity ->
       Pool.Allocate T st' (Pool.sizeof_T T) (Pool.alignof_T T) = Done (st', 0)).
Proof.
  intros Hp Hs Hend Hnew Hn. unfold Pool.PoolAllocator in Hnew.
  apply hive_Assert_Done in Hnew as [Hcap Hnew].
  apply hive_Assert_Done in Hnew as [_ Hnew]. apply Z.ltb_lt in Hcap.
  injection Hnew as <-.
  set (st0 := {| Pool.memory_block_ := pages; Pool.free_list_head_ := 0;
                 Pool.capacity_ := capacity; Pool.used_count_ := 0;
                 Pool.total_size_ := wrap (capacity * Pool.slot_size T);
                 Pool.mem := h |}).
  destruct (Pool_Reset_chain T st0 Hp Hcap Hs Hend) as (Hch & Hh & Hb & Hc & Hu).
  change (Pool.memory_block_ st0) with pages in *.
  change (Pool.capacity_ st0) with capacity in *.
  replace (Z.to_nat capacity) with (n + (Z.to_nat capacity - n))%nat in Hch by lia.
  rewrite slots_app in Hch.
  assert (Hcw : capacity < word_modulus) by nia.
  destruct (Pool_Allocate_many_chain T _ (Pool.Reset T st0) _ Hch)
    as (st' & E & Hm & Hb' & Hc' & Hcnt & Hch'); rewrite ?slots_length; try lia.
  rewrite slots_length in E, Hcnt. exists st'. split; [exact E|].
  unfold Pool.GetUsedCount. split; [lia|]. intros Hfull.
  replace (Z.to_nat capacity - n)%nat with O in Hch' by lia.
  simpl in Hch'. unfold Pool.Allocate. rewrite !Z.leb_refl, Hch'. reflexivity.
Qed.

Lemma Pool_new_serves_slots_in_order_witness :
  exists st',
    Pool_Allocate_many Enemy pool_fresh 3
      = Done (st', Pool.slots (Pool.slot_size Enemy) 4096 3) /\
    Pool.GetUsedCount st' = Z.of_nat 3 /\
    (Z.of_nat 3 = 3 ->
       Pool.Allocate Enemy st' (Pool.sizeof_T Enemy) (Pool.alignof_T Enemy)
         = Done (st', 0)).
Proof.
  apply (Pool_new_serves_slots_in_order Enemy 4096 3 (fun _ => 0) pool_fresh 3).
  - lia.
  - reflexivity.
  - reflexivity.
  - reflexivity.
  - lia.
Defined.

(** X12.  [Reset] makes every slot of the pool available again, whatever
    was live (no destructor runs): the used count is 0 and the next
    [capacity] allocations return all the slots of the block, in address
    order. *)
Theorem Pool_Reset_frees_every_slot (T : Pool.elem) (st : Pool.state) (live : list Z) :
  Pool.reachable T st live ->
  Pool.GetUsedCount (Pool.Reset T st) = 0 /\
  Pool.GetFreeCount (Pool.Reset T st) = Pool.GetCapacity st /\
  exists st',
    Pool_Allocate_many T (Pool.Reset T st) (Z.to_nat (Pool.GetCapacity st))
      = Done (st', Pool.slots (Pool.slot_size T) (Pool.memory_block_ st)
                     (Z.to_nat (Pool.GetCapacity st))) /\
    Pool.GetUsedCount st' = Pool.GetCapacity st.
Proof.
  intros Hr.
  destruct (Pool_reachable_params T st live Hr) as (Hp & Hcap & Hs & Hend).
  destruct (Pool_Reset_chain T st Hp Hcap Hs Hend) as (Hch & Hh & Hb & Hc & Hu).
  assert (Hcw : Pool.capacity_ st < word_modulus) by nia.
  unfold Pool.GetUsedCount, Pool.GetFreeCount, Pool.GetCapacity.
  rewrite Hu, Hc, Z.sub_0_r, wrap_small by (unfold in_word; lia).
  split; [reflexivity|]. split; [reflexivity|].
  rewrite <- (app_nil_r (Pool.slots _ _ _)) in Hch.
  destruct (Pool_Allocate_many_chain T _ (Pool.Reset T st) _ Hch)
    as (st' & E & Hm & Hb' & Hc' & Hcnt & Hch'); rewrite ?slots_length; try lia.
  rewrite slots_length in E, Hcnt. exists st'. split; [exact E|]. lia.
Qed.

Lemma Pool_Reset_frees_every_slot_witness :
  Pool.GetUsedCount (Pool.Reset Enemy (pool_used 0 3)) = 0 /\
  Pool.GetFreeCount (Pool.Reset Enemy (pool_used 0 3)) = Pool.GetCapacity (pool_used 0 3) /\
  exists st',
    Pool_Allocate_many Enemy (Pool.Reset Enemy (pool_used 0 3))
        (Z.to_nat (Pool.GetCapacity (pool_used 0 3)))
      = Done (st', Pool.slots (Pool.slot_size Enemy) (Pool.memory_block_ (pool_used 0 3))
                     (Z.to_nat (Pool.GetCapacity (pool_used 0 3)))) /\
    Pool.GetUsedCount st' = Pool.GetCapacity (pool_used 0 3).
Proof.
  exact (Pool_Reset_frees_every_slot Enemy (pool_used 0 3) [4128; 4112; 4096]
           pool_scenario_reachable).
Defined.

(** ** Buddy allocator *)

Section BuddyMore.
Import Buddy.
#[local] Set Warnings "-clear-no-such-hyp".

Lemma list_Z_max_elem (l : list Z) :
  l <> [] -> exists m, m ∈ l /\ forall x, x ∈ l -> x <= m.
Proof.
  induction l as [|a l IH]; intros Hne; [contradiction|].
  destruct l as [|b l].
  - exists a. split; [apply list_elem_of_here|].
    intros x Hx. apply list_elem_of_singleton in Hx. lia.
  - destruct IH as (m & Hm & Hmax); [discriminate|].
    destruct (Z.le_gt_cases a m).
    + exists m. split; [now apply list_elem_of_further|].
      intros x Hx. apply elem_of_cons in Hx as [->|Hx]; [lia|now apply Hmax].
    + exists a. split; [apply list_elem_of_here|].
      intros x Hx. apply elem_of_cons in Hx as [->|Hx]; [lia|].
      specialize (Hmax x Hx). lia.
Qed.

(** Blocks that do not overlap and lie in an arena of [N] bytes hold at
    most [N] bytes together. *)
Lemma sum_headers_bound base hdr : forall n live N,
  length live = n -> 0 <= N -> NoDup live ->
  (forall p, p ∈ live ->
     base <= p - sizeof_AllocationHeader /\
     0 < hdr (p - sizeof_AllocationHeader) /\
     p - sizeof_AllocationHeader + hdr (p - sizeof_AllocationHeader) <= base + N) ->
  (forall p q x, p ∈ live -> q ∈ live ->
     p - sizeof_AllocationHeader <= x
       < p - sizeof_AllocationHeader + hdr (p - sizeof_AllocationHeader) ->
     q - sizeof_AllocationHeader <= x
       < q - sizeof_AllocationHeader + hdr (q - sizeof_AllocationHeader) ->
     p = q) ->
  0 <= sum_headers hdr live <= N.
Proof.
  induction n as [|n IH]; intros live N Hlen HN Hnd Hin Hdis.
  - destruct live; [simpl; lia|discriminate].
  - destruct (list_Z_max_elem live) as (m & Hm & Hmax);
      [intros ->; discriminate|].
    destruct (Hin m Hm) as (Hm0 & Hm1 & Hm2).
    rewrite (sum_headers_filter hdr live m Hnd Hm).
    pose proof (filter_ne_length m live Hnd Hm) as Hlen'.
    assert (Hrest : 0 <= sum_headers hdr (filter (λ q, q ≠ m) live)
                    <= m - sizeof_AllocationHeader - base).
    { apply (IH (filter (λ q, q ≠ m) live)).
      - lia.
      - lia.
      - now apply NoDup_filter.
      - intros p Hp. apply list_elem_of_filter in Hp as [Hne Hp].
        destruct (Hin p Hp) as (Hp0 & Hp1 & Hp2).
        split; [exact Hp0|]. split; [exact Hp1|].
        specialize (Hmax p Hp).
        destruct (Z.le_gt_cases
                    (p - sizeof_AllocationHeader + hdr (p - sizeof_AllocationHeader))
                    (m - sizeof_AllocationHeader)) as [|Hov]; [lia|].
        exfalso. apply Hne.
        apply (Hdis p m (m - sizeof_AllocationHeader) Hp Hm); lia.
      - intros p q x Hp Hq. apply list_elem_of_filter in Hp as [_ Hp].
        apply list_elem_of_filter in Hq as [_ Hq]. now apply Hdis. }
    lia.
Qed.

(** The live blocks of an allocator: each is a block of some level,
    aligned to its size inside the arena, and no two overlap. *)
Lemma state_inv_live top st live :
  state_inv top st live ->
  NoDup live /\
  (forall p, p ∈ live -> exists k q,
     (k < MaxLevels)%nat /\ 0 <= q /\
     mem st (p - sizeof_AllocationHeader) = level_size k /\
     p - sizeof_AllocationHeader = memory_block_ st + q * level_size k /\
     p - sizeof_AllocationHeader + level_size k <= memory_block_ st + level_size top) /\
  (forall p q x, p ∈ live -> q ∈ live ->
     p - sizeof_AllocationHeader <= x
       < p - sizeof_AllocationHeader + mem st (p - sizeof_AllocationHeader) ->
     q - sizeof_AllocationHeader <= x
       < q - sizeof_AllocationHeader + mem st (q - sizeof_AllocationHeader) ->
     p = q).
Proof.
  intros [Hinv _].
  pose proof Hinv as [Htop Hcap Hbase Hlen Htil Hndf Hndl Hlh Hnb].
  assert (Hown : forall p, p ∈ live -> exists k,
            (k < MaxLevels)%nat /\
            mem st (p - sizeof_AllocationHeader) = level_size k /\
            owns (memory_block_ st) (free_lists_ st) (mem st) live None (Live p)
              (p - sizeof_AllocationHeader - memory_block_ st) k).
  { intros p Hp. destruct (Hlh p Hp) as (k & Hk & Hlt). exists k.
    split; [exact Hlt|]. split; [exact Hk|]. simpl. auto. }
  split; [exact Hndl|]. split.
  - intros p Hp. destruct (Hown p Hp) as (k & Hlt & Hk & Ho).
    destruct (tiling_shape _ _ Htil _ _ _ Ho) as (H0 & He & q & Hq).
    pose proof (level_size_pos k) as Hs.
    exists k, q. split; [exact Hlt|]. split; [nia|]. split; [exact Hk|].
    split; lia.
  - intros p q x Hp Hq Hx Hy.
    destruct (Hown p Hp) as (k1 & _ & Hk1 & Ho1).
    destruct (Hown q Hq) as (k2 & _ & Hk2 & Ho2).
    rewrite Hk1 in Hx. rewrite Hk2 in Hy.
    assert (E : Live p = Live q).
    { apply (tiling_disjoint _ _ Htil _ _ _ _ _ _ (x - memory_block_ st) Ho1 Ho2);
        unfold inblock; lia. }
    now injection E.
Qed.

Lemma state_inv_used top st live :
  state_inv top st live ->
  used_memory_ st = sum_headers (mem st) live /\
  0 <= sum_headers (mem st) live <= level_size top.
Proof.
  intros Hst. pose proof Hst as [Hinv Hused].
  destruct (state_inv_live top st live Hst) as (Hnd & Hshape & Hdis).
  pose proof (inv_top _ _ _ _ _ _ _ Hinv) as Htop.
  assert (Hb : 0 <= sum_headers (mem st) live <= level_size top).
  { apply (sum_headers_bound (memory_block_ st) (mem st) (length live));
      [reflexivity|pose proof (level_size_pos top); lia|exact Hnd| |exact Hdis].
    intros p Hp. destruct (Hshape p Hp) as (k & q & _ & Hq & Hk & Ho & He).
    pose proof (level_size_pos k). rewrite Hk. split; [nia|]. split; lia. }
  split; [|exact Hb].
  rewrite Hused. apply wrap_small.
  pose proof (level_size_in_word top ltac:(lia)). unfold in_word in *. lia.
Qed.

(** No free block lies above the level of the arena. *)
Lemma state_inv_free_levels top st live k :
  state_inv top st live -> (top < k)%nat -> free_at (free_lists_ st) k = [].
Proof.
  intros [Hinv _] Hk.
  destruct (free_at (free_lists_ st) k) as [|a l] eqn:E; [reflexivity|exfalso].
  destruct (tiling_shape _ _ (inv_tiling _ _ _ _ _ _ _ Hinv) (Free k a)
              (a - memory_block_ st) k) as (Ho & He & _).
  { simpl. rewrite E. split; [reflexivity|]. split; [reflexivity|].
    apply list_elem_of_here. }
  pose proof (level_size_lt _ _ Hk). pose proof (level_size_pos top). lia.
Qed.

End BuddyMore.

Lemma buddy_two_reachable :
  Buddy.reachable buddy_fresh (fst buddy_two) [snd buddy_two; snd buddy_one].
Proof.
  change [snd buddy_two; snd buddy_one]
    with (if snd buddy_two =? 0 then [snd buddy_one]
          else snd buddy_two :: [snd buddy_one]).
  apply (Buddy.reach_Allocate buddy_fresh (fst buddy_one) [snd buddy_one] 100 8);
    [|unfold in_word, word_modulus, word_bits; lia|reflexivity].
  change [snd buddy_one]
    with (if snd buddy_one =? 0 then [] else snd buddy_one :: []).
  apply (Buddy.reach_Allocate buddy_fresh buddy_fresh [] 100 8);
    [|unfold in_word, word_modulus, word_bits; lia|reflexivity].
  apply Buddy.reach_init.
Defined.

(** X13.  The blocks a buddy allocator has handed out never overlap: in
    every state reached from the constructor (capacity at most 32 MiB),
    the live pointers are pairwise distinct, each sits 8 bytes into a
    block whose size, kept in its header, is 64 * 2^k for a level k below
    20, the block is aligned to its size relative to the base and lies
    inside the arena, and no byte belongs to two live blocks. *)
Theorem Buddy_live_blocks_disjoint (pages capacity : Z) (h : heap)
    (st0 st : Buddy.state) (live : list Z) :
  0 < capacity <= 2 ^ 25 ->
  0 < pages ->
  pages + Z.max Buddy.MinBlockSize (NextPowerOfTwo capacity) < word_modulus ->
  Buddy.BuddyAllocator pages h capacity = Done st0 ->
  Buddy.reachable st0 st live ->
  NoDup live /\
  (forall p, p ∈ live -> exists k q,
     (k < Buddy.MaxLevels)%nat /\ 0 <= q /\
     Buddy.mem st (p - 8) = 64 * 2 ^ Z.of_nat k /\
     p - 8 = pages + q * (64 * 2 ^ Z.of_nat k) /\
     p - 8 + 64 * 2 ^ Z.of_nat k
       <= pages + Z.max 64 (Buddy.GetTotalMemory st)) /\
  (forall p q x, p ∈ live -> q ∈ live ->
     p - 8 <= x < p - 8 + Buddy.mem st (p - 8) ->
     q - 8 <= x < q - 8 + Buddy.mem st (q - 8) ->
     p = q).
Proof.
  intros Hcap Hpages Hend Hnew Hreach.
  destruct (BuddyAllocator_state_inv pages h capacity st0 Hcap Hpages Hend Hnew)
    as (Hinv0 & Hbase0 & Hfl0).
  destruct (Buddy_reachable_state_inv _ _ _ _ Hinv0 Hreach) as (Hst & Hb & Hc).
  destruct (state_inv_live _ _ _ Hst) as (Hnd & Hshape & Hdis).
  assert (Hcap0 : Buddy.capacity_ st0 = NextPowerOfTwo capacity).
  { unfold Buddy.BuddyAllocator in Hnew.
    apply hive_Assert_Done in Hnew as [_ Hnew].
    apply hive_Assert_Done in Hnew as [_ Hnew]. now injection Hnew as <-. }
  destruct (capacity_level capacity Hcap) as (_ & _ & _ & Htop).
  rewrite <- Hcap0 in Htop.
  split; [exact Hnd|]. split; [|exact Hdis].
  intros p Hp. destruct (Hshape p Hp) as (k & q & Hk & Hq & Hhdr & Ho & He).
  exists k, q. unfold Buddy.GetTotalMemory. rewrite Hc.
  change (64 * 2 ^ Z.of_nat k) with (Buddy.level_size k).
  change 64 with Buddy.MinBlockSize. rewrite <- Htop.
  change 8 with Buddy.sizeof_AllocationHeader.
  rewrite Hb, Hbase0 in *. auto.
Qed.

Lemma Buddy_live_blocks_disjoint_witness :
  NoDup [snd buddy_two; snd buddy_one] /\
  (forall p, p ∈ [snd buddy_two; snd buddy_one] -> exists k q,
     (k < Buddy.MaxLevels)%nat /\ 0 <= q /\
     Buddy.mem (fst buddy_two) (p - 8) = 64 * 2 ^ Z.of_nat k /\
     p - 8 = 4096 + q * (64 * 2 ^ Z.of_nat k) /\
     p - 8 + 64 * 2 ^ Z.of_nat k
       <= 4096 + Z.max 64 (Buddy.GetTotalMemory (fst buddy_two))) /\
  (forall p q x, p ∈ [snd buddy_two; snd buddy_one] ->
     q ∈ [snd buddy_two; snd buddy_one] ->
     p - 8 <= x < p - 8 + Buddy.mem (fst buddy_two) (p - 8) ->
     q - 8 <= x < q - 8 + Buddy.mem (fst buddy_two) (q - 8) ->
     p = q).
Proof.
  apply (Buddy_live_blocks_disjoint 4096 1000000 (fun _ => 0) buddy_fresh (fst buddy_two)).
  - lia.
  - lia.
  - vm_compute. reflexivity.
  - reflexivity.
  - exact buddy_two_reachable.
Defined.

(** X14.  [GetUsedMemory] of a buddy allocator is the sum of the sizes of
    the live blocks (no wrap-around), and it never exceeds the arena:
    [max(64, GetTotalMemory)] bytes, hence [GetTotalMemory] for a
    capacity of 64 bytes or more. *)
Theorem Buddy_used_within_arena (pages capacity : Z) (h : heap)
    (st0 st : Buddy.state) (live : list Z) :
  0 < capacity <= 2 ^ 25 ->
  0 < pages ->
  pages + Z.max Buddy.MinBlockSize (NextPowerOfTwo capacity) < word_modulus ->
  Buddy.BuddyAllocator pages h capacity = Done st0 ->
  Buddy.reachable st0 st live ->
  Buddy.GetUsedMemory st = Buddy.sum_headers (Buddy.mem st) live /\
  0 <= Buddy.GetUsedMemory st <= Z.max 64 (Buddy.GetTotalMemory st) /\
  (64 <= capacity -> Buddy.GetUsedMemory st <= Buddy.GetTotalMemory st).
Proof.
  intros Hcap Hpages Hend Hnew Hreach.
  destruct (BuddyAllocator_state_inv pages h capacity st0 Hcap Hpages Hend Hnew)
    as (Hinv0 & Hbase0 & Hfl0).
  destruct (Buddy_reachable_state_inv _ _ _ _ Hinv0 Hreach) as (Hst & Hb & Hc).
  destruct (state_inv_used _ _ _ Hst) as (Hused & Hbound).
  assert (Hcap0 : Buddy.capacity_ st0 = NextPowerOfTwo capacity).
  { unfold Buddy.BuddyAllocator in Hnew.
    apply hive_Assert_Done in Hnew as [_ Hnew].
    apply hive_Assert_Done in Hnew as [_ Hnew]. now injection Hnew as <-. }
  destruct (capacity_level capacity Hcap) as (_ & _ & _ & Htop).
  rewrite <- Hcap0 in Htop. rewrite Htop in Hbound.
  unfold Buddy.GetUsedMemory, Buddy.GetTotalMemory. rewrite Hc, Hused.
  change Buddy.MinBlockSize with 64 in Hbound.
  split; [reflexivity|]. split; [exact Hbound|].
  intros H64. rewrite Hcap0 in *.
  assert (capacity <= NextPowerOfTwo capacity)
    by (apply NextPowerOfTwo_ge; lia).
  lia.
Qed.

Lemma Buddy_used_within_arena_witness :
  Buddy.GetUsedMemory (fst buddy_two)
    = Buddy.sum_headers (Buddy.mem (fst buddy_two)) [snd buddy_two; snd buddy_one] /\
  0 <= Buddy.GetUsedMemory (fst buddy_two)
    <= Z.max 64 (Buddy.GetTotalMemory (fst buddy_two)) /\
  (64 <= 1000000 ->
   Buddy.GetUsedMemory (fst buddy_two) <= Buddy.GetTotalMemory (fst buddy_two)).
Proof.
  apply (Buddy_used_within_arena 4096 1000000 (fun _ => 0) buddy_fresh (fst buddy_two)
           [snd buddy_two; snd buddy_one]).
  - lia.
  - lia.
  - vm_compute. reflexivity.
  - reflexivity.
  - exact buddy_two_reachable.
Defined.

(** X15.  A request that cannot fit the arena is answered with null and
    changes nothing: whenever the requested size plus the 8-byte header
    exceeds [max(64, GetTotalMemory)], [Allocate] returns nullptr and the
    state is the one before. *)
Theorem Buddy_Allocate_beyond_capacity (pages capacity : Z) (h : heap)
    (st0 st : Buddy.state) (live : list Z) (size al : Z) :
  0 < capacity <= 2 ^ 25 ->
  0 < pages ->
  pages + Z.max Buddy.MinBlockSize (NextPowerOfTwo capacity) < word_modulus ->
  Buddy.BuddyAllocator pages h capacity = Done st0 ->
  Buddy.reachable st0 st live ->
  al <= alignof_max_align_t ->
  Z.max 64 (Buddy.GetTotalMemory st) < size + 8 <= 2 ^ 63 ->
  Buddy.Allocate st size al = Done (st, 0).
Proof.
  intros Hcap Hpages Hend Hnew Hreach Hal [Hbig Hsz].
  destruct (BuddyAllocator_state_inv pages h capacity st0 Hcap Hpages Hend Hnew)
    as (Hinv0 & Hbase0 & Hfl0).
  destruct (Buddy_reachable_state_inv _ _ _ _ Hinv0 Hreach) as (Hst & Hb & Hc).
  assert (Hcap0 : Buddy.capacity_ st0 = NextPowerOfTwo capacity).
  { unfold Buddy.BuddyAllocator in Hnew.
    apply hive_Assert_Done in Hnew as [_ Hnew].
    apply hive_Assert_Done in Hnew as [_ Hnew]. now injection Hnew as <-. }
  destruct (capacity_level capacity Hcap) as (Htopl & _ & _ & Htop).
  rewrite <- Hcap0 in Htop, Htopl.
  unfold Buddy.GetTotalMemory in Hbig. rewrite Hc in Hbig.
  change 64 with Buddy.MinBlockSize in Hbig. rewrite <- Htop in Hbig.
  unfold Buddy.Allocate.
  destruct (Z.leb_spec al alignof_max_align_t); [|lia]. cbn [hive_Assert].
  change Buddy.sizeof_AllocationHeader with 8.
  rewrite (wrap_small (size + 8))
    by (pose proof (level_size_pos (Buddy.GetLevel (Buddy.capacity_ st0)));
        unfold in_word, word_modulus, word_bits; lia).
  set (b := NextPowerOfTwo (size + 8)).
  set (b' := if b <? Buddy.MinBlockSize then Buddy.MinBlockSize else b).
  assert (Hb' : size + 8 <= b').
  { assert (size + 8 <= b).
    { apply NextPowerOfTwo_ge.
      pose proof (level_size_pos (Buddy.GetLevel (Buddy.capacity_ st0))). lia. }
    subst b'. destruct (b <? Buddy.MinBlockSize) eqn:E; [|assumption].
    apply Z.ltb_lt in E. lia. }
  set (level := Buddy.GetLevel b').
  assert (Hlevel : (Buddy.GetLevel (Buddy.capacity_ st0) < level)%nat).
  { destruct (Nat.lt_ge_cases (Buddy.GetLevel (Buddy.capacity_ st0)) level)
      as [|Hle]; [assumption|exfalso].
    destruct (GetLevel_spec b') as (_ & Hup & _). fold level in Hup.
    specialize (Hup ltac:(lia)).
    pose proof (level_size_le _ _ Hle). lia. }
  set (c := Buddy.find_free_level Buddy.MaxLevels (Buddy.free_lists_ st) level).
  destruct (find_free_level_spec (Buddy.free_lists_ st) Buddy.MaxLevels level
              ltac:(lia)) as [Hle Hne]. fold c in Hle, Hne.
  destruct (Nat.leb_spec Buddy.MaxLevels c) as [|Hlt]; [reflexivity|].
  exfalso. apply (Hne Hlt).
  apply (state_inv_free_levels _ _ _ c Hst). lia.
Qed.

Lemma Buddy_Allocate_beyond_capacity_witness :
  Buddy.Allocate (fst buddy_two) (2 * MiB) 8 = Done (fst buddy_two, 0).
Proof.
  apply (Buddy_Allocate_beyond_capacity 4096 1000000 (fun _ => 0) buddy_fresh
           (fst buddy_two) [snd buddy_two; snd buddy_one] (2 * MiB) 8).
  - lia.
  - lia.
  - vm_compute. reflexivity.
  - reflexivity.
  - exact buddy_two_reachable.
  - unfold alignof_max_align_t. lia.
  - vm_compute. split; [reflexivity|discriminate].
Defined.

(** X16.  What a successful [Allocate] hands out: the pointer is not one
    of the live ones and sits 8 bytes into a block of
    [max(64, NextPowerOfTwo(size + 8))] bytes, large enough for the
    request and its header; that size is in the header, the block is
    aligned to it relative to the base and lies inside the arena, and
    [GetUsedMemory] grows by exactly the block size (not by the requested
    size). *)
Theorem Buddy_Allocate_block (pages capacity : Z) (h : heap)
    (st0 st st' : Buddy.state) (live : list Z) (size al p : Z) :
  0 < capacity <= 2 ^ 25 ->
  0 < pages ->
  pages + Z.max Buddy.MinBlockSize (NextPowerOfTwo capacity) < word_modulus ->
  Buddy.BuddyAllocator pages h capacity = Done st0 ->
  Buddy.reachable st0 st live ->
  0 <= size -> size + 8 <= 2 ^ 63 ->
  Buddy.Allocate st size al = Done (st', p) -> p <> 0 ->
  let b := Z.max 64 (NextPowerOfTwo (size + 8)) in
  (p ∉ live) /\ size + 8 <= b /\
  Buddy.mem st' (p - 8) = b /\
  (p - 8 - pages) mod b = 0 /\
  pages <= p - 8 /\ p - 8 + b <= pages + Z.max 64 (Buddy.GetTotalMemory st) /\
  Buddy.GetUsedMemory st' = Buddy.GetUsedMemory st + b.
Proof.
  intros Hcap Hpages Hend Hnew Hreach Hsz0 Hsz HA Hp b.
  destruct (BuddyAllocator_state_inv pages h capacity st0 Hcap Hpages Hend Hnew)
    as (Hinv0 & Hbase0 & Hfl0).
  destruct (Buddy_reachable_state_inv _ _ _ _ Hinv0 Hreach) as (Hst & Hb & Hc).
  assert (Hcap0 : Buddy.capacity_ st0 = NextPowerOfTwo capacity).
  { unfold Buddy.BuddyAllocator in Hnew.
    apply hive_Assert_Done in Hnew as [_ Hnew].
    apply hive_Assert_Done in Hnew as [_ Hnew]. now injection Hnew as <-. }
  destruct (capacity_level capacity Hcap) as (Htopl & _ & _ & Htop).
  rewrite <- Hcap0 in Htop, Htopl.
  set (top := Buddy.GetLevel (Buddy.capacity_ st0)) in *.
  destruct (Allocate_state_inv top st live size al st' p Hst HA) as (Hst' & Hb' & Hc').
  destruct (Z.eqb_spec p 0) as [|_]; [contradiction|].
  destruct (state_inv_live _ _ _ Hst') as (Hnd' & Hshape' & _).
  destruct (state_inv_used _ _ _ Hst) as (Hused & Hubound).
  apply NoDup_cons in Hnd' as [Hfresh _].
  destruct (Hshape' p ltac:(apply list_elem_of_here))
    as (k & q & Hk & Hq & Hhdr & Ho & He).
  (* the block size computed by Allocate *)
  assert (Hsize : size + 8 <= b).
  { assert (size + 8 <= NextPowerOfTwo (size + 8)) by (apply NextPowerOfTwo_ge; lia).
    subst b. lia. }
  assert (Hmem : Buddy.mem st' (p - 8) = b /\
                 Buddy.used_memory_ st' = wrap (Buddy.used_memory_ st + b)).
  { pose proof Hst as [Hinv _].
    pose proof (Buddy.inv_base _ _ _ _ _ _ _ Hinv) as [Hbase Hext].
    unfold Buddy.Allocate in HA. apply hive_Assert_Done in HA as [_ HA].
    change Buddy.sizeof_AllocationHeader with 8 in HA.
    rewrite (wrap_small (size + 8)) in HA
      by (unfold in_word, word_modulus, word_bits; lia).
    replace (if NextPowerOfTwo (size + 8) <? Buddy.MinBlockSize
             then Buddy.MinBlockSize else NextPowerOfTwo (size + 8))
      with b in HA
      by (subst b; change Buddy.MinBlockSize with 64;
          destruct (Z.ltb_spec (NextPowerOfTwo (size + 8)) 64); lia).
    set (c := Buddy.find_free_level Buddy.MaxLevels (Buddy.free_lists_ st)
                (Buddy.GetLevel b)) in HA.
    destruct (Nat.leb_spec Buddy.MaxLevels c) as [|Hlt];
      [injection HA as _ E; congruence|].
    destruct (Buddy.free_at (Buddy.free_lists_ st) c) as [|block next] eqn:Hfa;
      [injection HA as _ E; congruence|].
    injection HA as <- <-. cbn [Buddy.mem Buddy.used_memory_].
    destruct (Buddy.tiling_shape _ _ (Buddy.inv_tiling _ _ _ _ _ _ _ Hinv)
                (Buddy.Free c block) (block - Buddy.memory_block_ st) c)
      as (Hbo & Hbe & _).
    { simpl. rewrite Hfa. split; [reflexivity|]. split; [reflexivity|].
      apply list_elem_of_here. }
    assert (64 <= Buddy.level_size c)
      by (change 64 with (Buddy.level_size 0); apply level_size_le; lia).
    rewrite (wrap_small (block + 8)) by (unfold in_word; lia).
    replace (block + 8 - 8) with block by lia.
    unfold store. rewrite Z.eqb_refl. auto. }
  destruct Hmem as [Hmem Hused'].
  change Buddy.sizeof_AllocationHeader with 8 in *.
  rewrite Hmem in Hhdr.
  pose proof (level_size_pos k) as Hks.
  pose proof (level_size_bound k ltac:(lia)) as Hkb.
  pose proof (level_size_bound top ltac:(lia)) as Htb.
  unfold Buddy.GetUsedMemory, Buddy.GetTotalMemory.
  rewrite Hb', Hb, Hbase0 in *. rewrite Hc.
  replace (Z.max 64 (Buddy.capacity_ st0)) with (Buddy.level_size top)
    by (rewrite Htop; reflexivity).
  split; [exact Hfresh|]. split; [exact Hsize|]. split; [exact Hmem|].
  split; [|split; [nia|split; [lia|]]].
  - rewrite Hhdr. replace (p - 8 - pages) with (q * Buddy.level_size k) by lia.
    apply Z.mod_mul. lia.
  - rewrite Hused'. apply wrap_small. unfold in_word, word_modulus, word_bits. lia.
Qed.

Lemma Buddy_Allocate_block_witness :
  let b := Z.max 64 (NextPowerOfTwo (100 + 8)) in
  (snd buddy_two ∉ [snd buddy_one]) /\ 100 + 8 <= b /\
  Buddy.mem (fst buddy_two) (snd buddy_two - 8) = b /\
  (snd buddy_two - 8 - 4096) mod b = 0 /\
  4096 <= snd buddy_two - 8 /\
  snd buddy_two - 8 + b <= 4096 + Z.max 64 (Buddy.GetTotalMemory (fst buddy_one)) /\
  Buddy.GetUsedMemory (fst buddy_two) = Buddy.GetUsedMemory (fst buddy_one) + b.
Proof.
  apply (Buddy_Allocate_block 4096 1000000 (fun _ => 0) buddy_fresh (fst buddy_one)
           (fst buddy_two) [snd buddy_one] 100 8 (snd buddy_two)).
  - lia.
  - lia.
  - vm_compute. reflexivity.
  - reflexivity.
  - change [snd buddy_one]
      with (if snd buddy_one =? 0 then [] else snd buddy_one :: []).
    apply (Buddy.reach_Allocate buddy_fresh buddy_fresh [] 100 8);
      [|unfold in_word, word_modulus, word_bits; lia|reflexivity].
    apply Buddy.reach_init.
  - lia.
  - lia.
  - reflexivity.
  - vm_compute. discriminate.
Defined.

(** X17.  [GetLevel] and [GetBlockSize] are inverse on the 20 levels:
    level k has blocks of 64 * 2^k bytes and [GetLevel] of that size is
    k; for a size of at most 32 MiB [GetLevel] is the least level whose
    blocks are large enough; and for a larger size it is 20, one past
    the last level. *)
Theorem Buddy_level_round_trip :
  (forall k, (k < Buddy.MaxLevels)%nat ->
     Buddy.GetBlockSize k = 64 * 2 ^ Z.of_nat k /\
     Buddy.GetLevel (Buddy.GetBlockSize k) = k) /\
  (forall size, size <= 2 ^ 25 ->
     (Buddy.GetLevel size < Buddy.MaxLevels)%nat /\
     size <= Buddy.GetBlockSize (Buddy.GetLevel size) /\
     ((0 < Buddy.GetLevel size)%nat ->
        Buddy.GetBlockSize (Buddy.GetLevel size - 1) < size)) /\
  (forall size, 2 ^ 25 < size -> Buddy.GetLevel size = Buddy.MaxLevels).
Proof.
  split; [|split].
  - intros k Hk. rewrite GetBlockSize_level_size by exact Hk.
    split; [reflexivity|]. now apply GetLevel_level_size.
  - intros size Hsz.
    destruct (GetLevel_spec size) as (Hmax & Hup & Hlow).
    assert (Hlt : (Buddy.GetLevel size < Buddy.MaxLevels)%nat).
    { destruct (Nat.lt_ge_cases (Buddy.GetLevel size) Buddy.MaxLevels) as [|Hge];
        [assumption|exfalso].
      assert (E : Buddy.GetLevel size = Buddy.MaxLevels) by lia.
      rewrite E in Hlow. specialize (Hlow ltac:(unfold Buddy.MaxLevels; lia)).
      change (Buddy.level_size (Buddy.MaxLevels - 1)) with (2 ^ 25) in Hlow. lia. }
    split; [exact Hlt|].
    rewrite GetBlockSize_level_size by exact Hlt.
    split; [exact (Hup Hlt)|]. intros Hpos.
    rewrite GetBlockSize_level_size by lia. exact (Hlow Hpos).
  - intros size Hsz. apply GetLevel_too_large.
    change (Buddy.level_size (Buddy.MaxLevels - 1)) with (2 ^ 25). exact Hsz.
Qed.

(** X18.  The buddy rule [buddy_offset = offset XOR block_size]: for a
    block of level k at an offset that is a multiple q of its size, the
    buddy is the next block when q is even and the previous one when q is
    odd, the buddy of the buddy is the block itself, and the lower of the
    two starts the block of level k + 1 that both halve. *)
Theorem Buddy_GetBuddyOffset_pairs (q : Z) (k : nat) :
  0 <= q -> (k < Buddy.MaxLevels)%nat ->
  let s := Buddy.GetBlockSize k in
  let o := q * s in
  s = 64 * 2 ^ Z.of_nat k /\
  Buddy.GetBuddyOffset o s = (if Z.even q then o + s else o - s) /\
  Buddy.GetBuddyOffset (Buddy.GetBuddyOffset o s) s = o /\
  Z.min o (Buddy.GetBuddyOffset o s) = (q / 2) * (2 * s).
Proof.
  intros Hq Hk s o. subst s o.
  rewrite GetBlockSize_level_size by exact Hk. split; [reflexivity|].
  unfold Buddy.GetBuddyOffset.
  pose proof (level_size_pos k) as Hs.
  rewrite lxor_buddy by exact Hq.
  split; [destruct (Z.even q); lia|].
  split; [rewrite <- (lxor_buddy q k Hq); apply lxor_involutive|].
  destruct (Z.even q) eqn:E.
  - apply Z.even_spec in E as [m ->].
    replace (2 * m / 2) with m by (apply (Z.div_unique _ 2 m 0); lia). nia.
  - assert (Ho : Z.odd q = true) by (rewrite <- Z.negb_even, E; reflexivity).
    apply Z.odd_spec in Ho as [m ->].
    replace ((2 * m + 1) / 2) with m by (apply (Z.div_unique _ 2 m 1); lia). nia.
Qed.

Lemma Buddy_GetBuddyOffset_pairs_witness :
  let s := Buddy.GetBlockSize 1 in
  let o := 5 * s in
  s = 64 * 2 ^ Z.of_nat 1 /\
  Buddy.GetBuddyOffset o s = (if Z.even 5 then o + s else o - s) /\
  Buddy.GetBuddyOffset (Buddy.GetBuddyOffset o s) s = o /\
  Z.min o (Buddy.GetBuddyOffset o s) = (5 / 2) * (2 * s).
Proof.
  apply (Buddy_GetBuddyOffset_pairs 5 1); [lia|unfold Buddy.MaxLevels; lia].
Defined.

Section BuddyReuse.
Import Buddy.

(** The coalescing loop never goes down a level nor past the last one,
    and keeps the number of lists. *)
Lemma Coalesce_loop_level base capacity : forall fuel fl blockPtr offset blockSize level,
  (level < MaxLevels)%nat ->
  (level <= snd (Coalesce_loop fuel base capacity fl blockPtr offset blockSize level)
     < MaxLevels)%nat /\
  length (fst (fst (Coalesce_loop fuel base capacity fl blockPtr offset blockSize level)))
    = length fl.
Proof.
  induction fuel as [|fuel IH]; intros fl blockPtr offset blockSize level Hl;
    cbn [Coalesce_loop]; [simpl; lia|].
  destruct (Nat.ltb_spec level (MaxLevels - 1)) as [Hlt|]; [|simpl; lia].
  destruct (capacity <=? GetBuddyOffset offset blockSize); [simpl; lia|].
  destruct (existsb _ _); [|simpl; lia].
  destruct (GetBuddyOffset offset blockSize <? offset).
  - destruct (IH (<[level := unlink (wrap (base + GetBuddyOffset offset blockSize))
                               (free_at fl level)]> fl)
                 (wrap (base + GetBuddyOffset offset blockSize))
                 (GetBuddyOffset offset blockSize)
                 (wrap (Z.shiftl blockSize 1)) (S level)) as [H1 H2]; [lia|].
    rewrite length_insert in H2. split; [lia|exact H2].
  - destruct (IH (<[level := unlink (wrap (base + GetBuddyOffset offset blockSize))
                               (free_at fl level)]> fl)
                 blockPtr offset (wrap (Z.shiftl blockSize 1)) (S level)) as [H1 H2];
      [lia|].
    rewrite length_insert in H2. split; [lia|exact H2].
Qed.

(** A block given back is on some free list of its level or above. *)
Lemma CoalesceAndInsert_free st blockPtr blockSize level :
  length (free_lists_ st) = MaxLevels -> (level < MaxLevels)%nat ->
  exists c, (level <= c < MaxLevels)%nat /\
    free_at (CoalesceAndInsert st blockPtr blockSize level) c <> [].
Proof.
  intros Hlen Hl. unfold CoalesceAndInsert.
  pose proof (Coalesce_loop_level (memory_block_ st) (capacity_ st) MaxLevels
                (free_lists_ st) blockPtr (wrap (blockPtr - memory_block_ st))
                blockSize level Hl) as [H1 H2].
  destruct (Coalesce_loop _ _ _ _ _ _ _ _) as [[fl' ptr'] c]. simpl in H1, H2.
  exists c. split; [exact H1|].
  rewrite free_at_push by lia. case_decide; [discriminate|contradiction].
Qed.

(** The scan of [Allocate] stops at the first level that has a free
    block. *)
Lemma find_free_level_le fl c : forall fuel level,
  (level <= c < MaxLevels)%nat -> (c < level + fuel)%nat -> free_at fl c <> [] ->
  (find_free_level fuel fl level <= c)%nat.
Proof.
  induction fuel as [|fuel IH]; intros level Hc Hf Hne; [lia|].
  cbn [find_free_level].
  destruct (Nat.ltb_spec level MaxLevels) as [_|]; [|lia]. cbn [andb].
  destruct (free_at fl level) eqn:E; [|lia].
  destruct (Nat.eq_dec level c) as [->|]; [congruence|].
  apply IH; [lia|lia|exact Hne].
Qed.

End BuddyReuse.

(** X19.  Memory given back can be used again at once: [Deallocate] of a
    live pointer lowers [GetUsedMemory] by exactly the size in the header
    of its block, and a request that rounds to that block size, made
    right after, is served (the answer is not null). *)
Theorem Buddy_Deallocate_then_Allocate (pages capacity : Z) (h : heap)
    (st0 st : Buddy.state) (live : list Z) (p size al : Z) :
  0 < capacity <= 2 ^ 25 ->
  0 < pages ->
  pages + Z.max Buddy.MinBlockSize (NextPowerOfTwo capacity) < word_modulus ->
  Buddy.BuddyAllocator pages h capacity = Done st0 ->
  Buddy.reachable st0 st live ->
  p ∈ live ->
  al <= alignof_max_align_t -> 0 <= size -> size + 8 <= 2 ^ 63 ->
  Z.max 64 (NextPowerOfTwo (size + 8)) = Buddy.mem st (p - 8) ->
  Buddy.GetUsedMemory (Buddy.Deallocate st p)
    = Buddy.GetUsedMemory st - Buddy.mem st (p - 8) /\
  exists st' p',
    Buddy.Allocate (Buddy.Deallocate st p) size al = Done (st', p') /\ p' <> 0.
Proof.
  intros Hcap Hpages Hend Hnew Hreach Hp Hal Hsz0 Hsz Hround.
  destruct (BuddyAllocator_state_inv pages h capacity st0 Hcap Hpages Hend Hnew)
    as (Hinv0 & Hbase0 & Hfl0).
  destruct (Buddy_reachable_state_inv _ _ _ _ Hinv0 Hreach) as (Hst & Hb & Hc).
  set (top := Buddy.GetLevel (Buddy.capacity_ st0)) in *.
  destruct (Deallocate_state_inv top st live p Hst Hp) as (Hst1 & Hb1 & Hc1).
  destruct (state_inv_live _ _ _ Hst) as (Hnd & Hshape & _).
  destruct (Hshape p Hp) as (k & q & Hk & Hq & Hhdr & Ho & He).
  destruct (state_inv_used _ _ _ Hst) as (Hused & Hubound).
  destruct (state_inv_used _ _ _ Hst1) as (Hused1 & Hubound1).
  pose proof Hst as [Hinv _]. pose proof Hst1 as [Hinv1 _].
  pose proof (Buddy.inv_base _ _ _ _ _ _ _ Hinv) as [Hbase Hext].
  pose proof (Buddy.inv_top _ _ _ _ _ _ _ Hinv) as Htop.
  pose proof (level_size_pos k) as Hks.
  change Buddy.sizeof_AllocationHeader with 8 in *.
  assert (Hp0 : p <> 0) by nia.
  assert (Hh : wrap (p - 8) = p - 8).
  { apply wrap_small. unfold in_word. nia. }
  split.
  - unfold Buddy.GetUsedMemory. rewrite Hused1, Hused.
    rewrite (sum_headers_filter (Buddy.mem st) live p Hnd Hp).
    change Buddy.sizeof_AllocationHeader with 8.
    assert (Hm : Buddy.mem (Buddy.Deallocate st p) = Buddy.mem st).
    { unfold Buddy.Deallocate. destruct (p =? 0); reflexivity. }
    rewrite Hm. lia.
  - (* the block is back on a free list at level k or above *)
    assert (Hfree : exists c, (k <= c < Buddy.MaxLevels)%nat /\
              Buddy.free_at (Buddy.free_lists_ (Buddy.Deallocate st p)) c <> []).
    { unfold Buddy.Deallocate. destruct (Z.eqb_spec p 0) as [|_]; [contradiction|].
      cbn [Buddy.free_lists_]. change Buddy.sizeof_AllocationHeader with 8.
      rewrite Hh, Hhdr, GetLevel_level_size by exact Hk.
      apply CoalesceAndInsert_free; [|exact Hk].
      exact (Buddy.inv_len _ _ _ _ _ _ _ Hinv). }
    destruct Hfree as (c & Hc' & Hne).
    unfold Buddy.Allocate.
    destruct (Z.leb_spec al alignof_max_align_t); [|lia]. cbn [hive_Assert].
    change Buddy.sizeof_AllocationHeader with 8.
    rewrite (wrap_small (size + 8)) by (unfold in_word, word_modulus, word_bits; lia).
    replace (if NextPowerOfTwo (size + 8) <? Buddy.MinBlockSize
             then Buddy.MinBlockSize else NextPowerOfTwo (size + 8))
      with (Buddy.level_size k)
      by (rewrite <- Hhdr, <- Hround; change Buddy.MinBlockSize with 64;
          destruct (Z.ltb_spec (NextPowerOfTwo (size + 8)) 64); lia).
    rewrite GetLevel_level_size by exact Hk.
    pose proof (find_free_level_le (Buddy.free_lists_ (Buddy.Deallocate st p)) c
                  Buddy.MaxLevels k ltac:(lia) ltac:(lia) Hne) as Hle.
    destruct (find_free_level_spec (Buddy.free_lists_ (Buddy.Deallocate st p))
                Buddy.MaxLevels k ltac:(lia)) as [Hge Hne'].
    set (r := Buddy.find_free_level Buddy.MaxLevels
                (Buddy.free_lists_ (Buddy.Deallocate st p)) k) in *.
    destruct (Nat.leb_spec Buddy.MaxLevels r) as [|Hr]; [lia|].
    specialize (Hne' Hr).
    destruct (Buddy.free_at (Buddy.free_lists_ (Buddy.Deallocate st p)) r)
      as [|block next] eqn:Hfa; [contradiction|].
    eexists _, _. split; [reflexivity|].
    destruct (Buddy.tiling_shape _ _ (Buddy.inv_tiling _ _ _ _ _ _ _ Hinv1)
                (Buddy.Free r block)
                (block - Buddy.memory_block_ (Buddy.Deallocate st p)) r)
      as (Hbo & Hbe & _).
    { simpl. rewrite Hfa. split; [reflexivity|]. split; [reflexivity|].
      apply list_elem_of_here. }
    rewrite Hb1 in Hbo, Hbe.
    assert (64 <= Buddy.level_size r)
      by (change 64 with (Buddy.level_size 0); apply level_size_le; lia).
    rewrite (wrap_small (block + 8)) by (unfold in_word; lia). lia.
Qed.

Lemma Buddy_Deallocate_then_Allocate_witness :
  Buddy.GetUsedMemory (Buddy.Deallocate (fst buddy_two) (snd buddy_one))
    = Buddy.GetUsedMemory (fst buddy_two)
      - Buddy.mem (fst buddy_two) (snd buddy_one - 8) /\
  exists st' p',
    Buddy.Allocate (Buddy.Deallocate (fst buddy_two) (snd buddy_one)) 100 8
      = Done (st', p') /\ p' <> 0.
Proof.
  apply (Buddy_Deallocate_then_Allocate 4096 1000000 (fun _ => 0) buddy_fresh
           (fst buddy_two) [snd buddy_two; snd buddy_one] (snd buddy_one) 100 8).
  - lia.
  - lia.
  - vm_compute. reflexivity.
  - reflexivity.
  - exact buddy_two_reachable.
  - apply list_elem_of_further, list_elem_of_here.
  - unfold alignof_max_align_t. lia.
  - lia.
  - lia.
  - vm_compute. reflexivity.
Defined.

(** ** GPU sub-allocator *)

Section GPUMore.
Import GPU.

Lemma FindMemoryType_from_spec typeFilter properties : forall types i0,
  0 <= i0 ->
  let r := FindMemoryType_from i0 types typeFilter properties in
  (r = UINT32_MAX /\
   forall j flags, types !! j = Some flags ->
     ~ (Z.testbit typeFilter (i0 + Z.of_nat j) = true /\
        Z.land flags properties = properties)) \/
  (i0 <= r < i0 + Z.of_nat (length types) /\
   (exists flags, types !! Z.to_nat (r - i0) = Some flags /\
      Z.testbit typeFilter r = true /\ Z.land flags properties = properties) /\
   forall j flags, (j < Z.to_nat (r - i0))%nat -> types !! j = Some flags ->
     ~ (Z.testbit typeFilter (i0 + Z.of_nat j) = true /\
        Z.land flags properties = properties)).
Proof.
  induction types as [|flags rest IH]; intros i0 Hi0; cbn [FindMemoryType_from].
  - left. split; [reflexivity|]. intros j f Hj. now rewrite lookup_nil in Hj.
  - destruct (Z.testbit typeFilter i0) eqn:Hbit; cbn [andb].
    + destruct (Z.eqb_spec (Z.land flags properties) properties) as [Hm|Hm].
      * right. split; [simpl length; lia|]. rewrite Z.sub_diag. split.
        -- exists flags. auto.
        -- intros j f Hj. simpl in Hj. lia.
      * destruct (IH (i0 + 1) ltac:(lia)) as [[Hr Hnone]|(Hr & (f & Hf & Hb & Hl) & Hmin)].
        -- left. split; [exact Hr|]. intros [|j] f Hj; simpl in Hj.
           ++ injection Hj as <-. tauto.
           ++ replace (i0 + Z.of_nat (S j)) with (i0 + 1 + Z.of_nat j) by lia.
              now apply Hnone.
        -- right. split; [simpl length; lia|]. split.
           ++ exists f. replace (Z.to_nat (_ - i0)) with
                (S (Z.to_nat (FindMemoryType_from (i0 + 1) rest typeFilter properties
                                - (i0 + 1)))) by lia.
              auto.
           ++ intros [|j] f' Hlt Hj; simpl in Hj.
              ** injection Hj as <-. tauto.
              ** replace (i0 + Z.of_nat (S j)) with (i0 + 1 + Z.of_nat j) by lia.
                 apply Hmin; [lia|exact Hj].
    + destruct (IH (i0 + 1) ltac:(lia)) as [[Hr Hnone]|(Hr & (f & Hf & Hb & Hl) & Hmin)].
      * left. split; [exact Hr|]. intros [|j] f Hj; simpl in Hj.
        -- rewrite Z.add_0_r. intros [? _]. congruence.
        -- replace (i0 + Z.of_nat (S j)) with (i0 + 1 + Z.of_nat j) by lia.
           now apply Hnone.
      * right. split; [simpl length; lia|]. split.
        -- exists f. replace (Z.to_nat (_ - i0)) with
             (S (Z.to_nat (FindMemoryType_from (i0 + 1) rest typeFilter properties
                             - (i0 + 1)))) by lia.
           auto.
        -- intros [|j] f' Hlt Hj; simpl in Hj.
           ++ rewrite Z.add_0_r. intros [? _]. congruence.
           ++ replace (i0 + Z.of_nat (S j)) with (i0 + 1 + Z.of_nat j) by lia.
              apply Hmin; [lia|exact Hj].
Qed.

Lemma MemoryBlock_Allocate_none b allocSize alignment :
  MemoryBlock.FindFreeRegion b allocSize alignment = None ->
  MemoryBlock.Allocate b allocSize alignment = (b, VK_WHOLE_SIZE).
Proof. intros H. unfold MemoryBlock.Allocate. now rewrite H. Qed.

(** Where no block has room the scan of [Allocate] leaves every block as
    it was. *)
Lemma Allocate_scan_none size alignment : forall rest i done,
  (forall b, b ∈ rest -> MemoryBlock.FindFreeRegion b size alignment = None) ->
  Allocate_scan i done rest size alignment = (done ++ rest, None).
Proof.
  induction rest as [|b rest IH]; intros i done Hall; cbn [Allocate_scan].
  - now rewrite app_nil_r.
  - rewrite MemoryBlock_Allocate_none by (apply Hall, list_elem_of_here).
    rewrite Z.eqb_refl, IH, <- app_assoc; [reflexivity|].
    intros b' Hb'. apply Hall. now apply list_elem_of_further.
Qed.

Lemma set_pool_same a type pool :
  pool_of a type = Some pool ->
  set_pool a type (with_blocks pool (MemoryPool.blocks pool)) = a.
Proof.
  intros H. destruct a, pool, type; simpl in *; subst; reflexivity.
Qed.

Lemma total_free_regions_fold p :
  fold_left (fun total b =>
               wrap (total + Z.of_nat (length (MemoryBlock.freeRegions b))))
            (MemoryPool.blocks p) 0
  = wrap (total_free_regions p).
Proof.
  unfold total_free_regions. change 0 with (wrap 0) at 1.
  now rewrite (fold_left_wrap_sum
                 (fun b => Z.of_nat (length (MemoryBlock.freeRegions b)))).
Qed.

End GPUMore.

(** X21.  What a block hands out: for a request that fits a word with its
    alignment, [MemoryBlock::Allocate] answers [VK_WHOLE_SIZE] only where
    no free region fits, and then leaves the block as it was; otherwise
    the offset is a multiple of the alignment, the sub-allocation lies
    inside the block and overlaps no live sub-allocation, and the used
    bytes grow by the size plus a padding smaller than the alignment. *)
Theorem MemoryBlock_Allocate_block (b b' : GPU.MemoryBlock.t) (live : list (Z * Z))
    (allocSize k offset : Z) :
  GPU.block_reachable b live ->
  0 < allocSize -> 0 <= k -> allocSize + 2 ^ k <= word_modulus ->
  GPU.MemoryBlock.Allocate b allocSize (2 ^ k) = (b', offset) ->
  (offset = GPU.VK_WHOLE_SIZE ->
     b' = b /\ GPU.MemoryBlock.FindFreeRegion b allocSize (2 ^ k) = None) /\
  (offset <> GPU.VK_WHOLE_SIZE ->
     offset mod 2 ^ k = 0 /\
     0 <= offset /\ offset + allocSize <= GPU.MemoryBlock.size b /\
     (forall a x, a ∈ live -> GPU.within a x -> GPU.within (offset, allocSize) x -> False) /\
     allocSize <= GPU.MemoryBlock.used b' - GPU.MemoryBlock.used b < allocSize + 2 ^ k).
Proof.
  intros Hreach Hsz Hk0 Hfit HA.
  pose proof (block_reachable_inv b live Hreach)
    as [Hsize Hok Hsorted Hlok Hlf Hll [Hu0 Hused]].
  unfold GPU.MemoryBlock.Allocate in HA.
  destruct (GPU.MemoryBlock.FindFreeRegion b allocSize (2 ^ k)) as [j|] eqn:Hfind.
  2:{ injection HA as <- <-. split; [auto|]. intros H. contradiction. }
  apply FindFreeRegion_from_spec in Hfind as (l1 & region & l2 & Hreg & -> & Hle).
  simpl in HA. rewrite Hreg, list_lookup_middle in HA by reflexivity.
  injection HA as <- <-. cbn [GPU.MemoryBlock.used].
  assert (Hin : region ∈ GPU.MemoryBlock.freeRegions b).
  { rewrite Hreg, elem_of_app, elem_of_cons. tauto. }
  rewrite Forall_forall in Hok. destruct (Hok region Hin) as (Ho & Hs & He).
  assert (Hroom : GPU.MemoryBlock.used b + GPU.FreeRegion.size region
                  <= GPU.MemoryBlock.size b).
  { unfold GPU.sum_free in Hused. rewrite Hreg in Hused, Hok.
    rewrite sum_sizes_app in Hused. simpl in Hused.
    pose proof (sum_sizes_nonneg (GPU.MemoryBlock.size b) l1) as Hn1.
    pose proof (sum_sizes_nonneg (GPU.MemoryBlock.size b) l2) as Hn2.
    rewrite Forall_forall in Hn1, Hn2.
    specialize (Hn1 ltac:(intros x Hx; apply Hok; rewrite elem_of_app; tauto)).
    specialize (Hn2 ltac:(intros x Hx; apply Hok;
                          rewrite elem_of_app, elem_of_cons; tauto)).
    lia. }
  unfold GPU.region_end in He.
  assert (Hk : 0 <= k < word_bits).
  { split; [exact Hk0|]. apply (Z.pow_lt_mono_r_iff 2); unfold word_bits; try lia.
    fold word_bits. fold word_modulus. lia. }
  pose proof (pow2_in_word k Hk) as Ha.
  rewrite AlignUp_pow2 in * by (unfold in_word; lia).
  pose proof (align_up_bounds (GPU.FreeRegion.offset region) (2 ^ k) ltac:(lia))
    as [HT Hmod].
  set (T := align_up (GPU.FreeRegion.offset region) (2 ^ k)) in *.
  rewrite wrap_sub_l in *.
  rewrite (wrap_small (T - GPU.FreeRegion.offset region)) in *
    by (unfold in_word; lia).
  rewrite (wrap_small (allocSize + (T - GPU.FreeRegion.offset region))) in *
    by (unfold in_word; lia).
  rewrite (wrap_small T) by (unfold in_word; lia).
  rewrite (wrap_small (GPU.MemoryBlock.used b + _)) by (unfold in_word; lia).
  split.
  - intros E. unfold GPU.VK_WHOLE_SIZE, SIZE_MAX in E. lia.
  - intros _. split; [exact Hmod|]. split; [lia|]. split; [lia|]. split; [|lia].
    intros a x Ha' Hx Hnew. apply (Hlf a region x Ha' Hin Hx).
    unfold GPU.within, GPU.covers, GPU.region_end in *. simpl in Hnew. lia.
Qed.

Lemma MemoryBlock_Allocate_block_witness :
  (snd gpu_block_two = GPU.VK_WHOLE_SIZE ->
     fst gpu_block_two = fst gpu_block_one /\
     GPU.MemoryBlock.FindFreeRegion (fst gpu_block_one) 50 (2 ^ 6) = None) /\
  (snd gpu_block_two <> GPU.VK_WHOLE_SIZE ->
     snd gpu_block_two mod 2 ^ 6 = 0 /\
     0 <= snd gpu_block_two /\
     snd gpu_block_two + 50 <= GPU.MemoryBlock.size (fst gpu_block_one) /\
     (forall a x, a ∈ [(0, 100)] -> GPU.within a x ->
        GPU.within (snd gpu_block_two, 50) x -> False) /\
     50 <= GPU.MemoryBlock.used (fst gpu_block_two)
             - GPU.MemoryBlock.used (fst gpu_block_one) < 50 + 2 ^ 6).
Proof.
  apply (MemoryBlock_Allocate_block (fst gpu_block_one) (fst gpu_block_two) [(0, 100)]
           50 6 (snd gpu_block_two)).
  - change [(0, 100)]
      with (if 0 =? GPU.VK_WHOLE_SIZE then [] else (0, 100) :: []).
    apply GPU.block_Allocate with (b := gpu_block_fresh) (k := 4);
      [|lia|lia|unfold word_modulus, word_bits; lia|reflexivity].
    apply GPU.block_new. unfold word_modulus, word_bits. lia.
  - lia.
  - lia.
  - unfold word_modulus, word_bits. lia.
  - reflexivity.
Defined.

(** X22.  [FindMemoryType] returns the first memory type of the device
    that the filter allows and that has all the properties asked for, and
    [UINT32_MAX] where there is none. *)
Theorem FindMemoryType_first_match (a : GPU.GPUAllocator) (typeFilter properties : Z) :
  let r := GPU.FindMemoryType a typeFilter properties in
  let suits := memory_type_suits (GPU.memoryTypes a) typeFilter properties in
  (r = GPU.UINT32_MAX /\ forall i, 0 <= i -> ~ suits i) \/
  (0 <= r < Z.of_nat (length (GPU.memoryTypes a)) /\ suits r /\
   forall i, 0 <= i < r -> ~ suits i).
Proof.
  intros r suits. subst r suits. unfold GPU.FindMemoryType, memory_type_suits.
  destruct (FindMemoryType_from_spec typeFilter properties (GPU.memoryTypes a) 0
              ltac:(lia)) as [[Hr Hnone]|(Hr & Hhit & Hmin)].
  - left. split; [exact Hr|]. intros i Hi (flags & Hf & Hb & Hl).
    apply (Hnone (Z.to_nat i) flags Hf).
    rewrite Z.add_0_l, Z2Nat.id by lia. auto.
  - right. rewrite Z.sub_0_r in *. split; [lia|]. split; [exact Hhit|].
    intros i Hi (flags & Hf & Hb & Hl).
    apply (Hmin (Z.to_nat i) flags ltac:(lia) Hf).
    rewrite Z.add_0_l, Z2Nat.id by lia. auto.
Qed.

(** X23.  [GetAllocationCount] is the number of blocks less the number of
    free regions of all blocks, or 0 where that is negative: it never
    exceeds the number of blocks, and it is 0 as soon as every block has
    a free region, however many sub-allocations are live. *)
Theorem GetAllocationCount_blocks_less_free_regions (p : GPU.MemoryPool.t) :
  total_free_regions p < word_modulus ->
  GPU.MemoryPool.GetAllocationCount p
    = Z.max 0 (Z.of_nat (length (GPU.MemoryPool.blocks p)) - total_free_regions p) /\
  0 <= GPU.MemoryPool.GetAllocationCount p
    <= Z.of_nat (length (GPU.MemoryPool.blocks p)) /\
  ((forall b, b ∈ GPU.MemoryPool.blocks p -> GPU.MemoryBlock.freeRegions b <> []) ->
   GPU.MemoryPool.GetAllocationCount p = 0).
Proof.
  intros Hlt.
  assert (H0 : 0 <= total_free_regions p).
  { unfold total_free_regions. induction (GPU.MemoryPool.blocks p); simpl; lia. }
  unfold GPU.MemoryPool.GetAllocationCount.
  rewrite total_free_regions_fold, wrap_small by (unfold in_word; lia).
  destruct (Z.ltb_spec (total_free_regions p)
              (Z.of_nat (length (GPU.MemoryPool.blocks p)))).
  - split; [lia|]. split; [lia|]. intros Hall. exfalso.
    assert (Z.of_nat (length (GPU.MemoryPool.blocks p)) <= total_free_regions p); [|lia].
    unfold total_free_regions. clear -Hall.
    induction (GPU.MemoryPool.blocks p) as [|b l IH]; [simpl; lia|].
    cbn [foldr length].
    assert (GPU.MemoryBlock.freeRegions b <> []) by (apply Hall, list_elem_of_here).
    destruct (GPU.MemoryBlock.freeRegions b); [contradiction|].
    assert (Z.of_nat (length l)
            <= foldr (fun b s => Z.of_nat (length (GPU.MemoryBlock.freeRegions b)) + s) 0 l).
    { apply IH. intros b' Hb'. apply Hall. now apply list_elem_of_further. }
    simpl length. lia.
  - split; [lia|]. split; [lia|]. reflexivity.
Qed.

Lemma GetAllocationCount_blocks_less_free_regions_witness :
  let p := GPU.MemoryPool.mk GPU.DeviceLocal 0 1024 [gpu_block_one_back] in
  GPU.MemoryPool.GetAllocationCount p
    = Z.max 0 (Z.of_nat (length (GPU.MemoryPool.blocks p)) - total_free_regions p) /\
  0 <= GPU.MemoryPool.GetAllocationCount p
    <= Z.of_nat (length (GPU.MemoryPool.blocks p)) /\
  ((forall b, b ∈ GPU.MemoryPool.blocks p -> GPU.MemoryBlock.freeRegions b <> []) ->
   GPU.MemoryPool.GetAllocationCount p = 0).
Proof.
  apply (GetAllocationCount_blocks_less_free_regions
           (GPU.MemoryPool.mk GPU.DeviceLocal 0 1024 [gpu_block_one_back])).
  vm_compute. reflexivity.
Defined.



(** X25.  A new block is as large as the request needs: where no block of
    the pool has room, the pool is below [maxBlocks] and the driver
    answers, [Allocate] appends one block of
    [max(blockSize, size + alignment)] bytes (mapped for the host-visible
    and host-cached pools) and serves the request at offset 0 of it: the
    handle is valid, names the new block by its index, and the block has
    [size] bytes used and one free region behind them. *)
Theorem GPU_Allocate_new_block (a : GPU.GPUAllocator) (pool : GPU.MemoryPool.t)
    (size k memory ptr : Z) (type : GPU.MemoryType) (drv : GPU.DriverAnswers) :
  GPU.pool_of a type = Some pool ->
  0 < size -> 0 <= k -> size + 2 ^ k < word_modulus ->
  0 <= GPU.MemoryPool.blockSize pool < word_modulus ->
  (forall b, b ∈ GPU.MemoryPool.blocks pool ->
     GPU.MemoryBlock.FindFreeRegion b size (2 ^ k) = None) ->
  Z.of_nat (length (GPU.MemoryPool.blocks pool)) < GPU.config_maxBlocks a ->
  GPU.vkAllocateMemory drv = Some memory -> memory <> GPU.VK_NULL_HANDLE ->
  GPU.vkMapMemory drv = Some ptr ->
  let blockSize := Z.max (GPU.MemoryPool.blockSize pool) (size + 2 ^ k) in
  let mapped := match GPU.MemoryPool.type pool with
                | GPU.DeviceLocal => 0
                | _ => ptr
                end in
  let block :=
    GPU.MemoryBlock.mk memory blockSize size mapped (GPU.MemoryPool.memoryTypeIndex pool)
      [GPU.FreeRegion.mk size (blockSize - size)] in
  let n := length (GPU.MemoryPool.blocks pool) in
  GPU.Allocate a size (2 ^ k) type drv
    = Done (GPU.set_pool a type
              (GPU.with_blocks pool (GPU.MemoryPool.blocks pool ++ [block])),
            GPU.handle_in block 0 size n) /\
  GPU.VulkanAllocation.IsValid (GPU.handle_in block 0 size n) = true /\
  GPU.VulkanAllocation.blockIndex (GPU.handle_in block 0 size n)
    = Z.of_nat n mod 2 ^ 32.
Proof.
  intros Hpool Hsz Hk0 Hfit Hbs Hnone Hmax Hdrv Hmem Hmap blockSize mapped block n.
  assert (Hk : 0 <= k < word_bits).
  { split; [exact Hk0|]. apply (Z.pow_lt_mono_r_iff 2); unfold word_bits; try lia.
    fold word_bits. fold word_modulus. lia. }
  pose proof (pow2_in_word k Hk) as Ha.
  split; [|split; [|reflexivity]].
  2:{ unfold GPU.VulkanAllocation.IsValid, GPU.handle_in, block. simpl.
      destruct (Z.eqb_spec memory GPU.VK_NULL_HANDLE); [contradiction|reflexivity]. }
  unfold GPU.Allocate, GPU.GetPool. rewrite Hpool.
  destruct (Z.ltb_spec 0 size) as [_|]; [|lia]. cbn [hive_Assert].
  rewrite Allocate_scan_none by exact Hnone. cbn [app].
  rewrite (set_pool_same a type pool Hpool).
  cbn [GPU.with_blocks GPU.MemoryPool.blocks GPU.MemoryPool.blockSize].
  destruct (Z.leb_spec (GPU.config_maxBlocks a)
              (Z.of_nat (length (GPU.MemoryPool.blocks pool)))) as [|_]; [lia|].
  rewrite (wrap_small (size + 2 ^ k)) by (unfold in_word; lia).
  fold blockSize.
  assert (Hblock : GPU.AllocateBlock (GPU.with_blocks pool (GPU.MemoryPool.blocks pool))
                     blockSize drv
                   = Some (GPU.with_blocks pool
                             (GPU.MemoryPool.blocks pool ++
                              [GPU.MemoryBlock.mk memory blockSize 0 mapped
                                 (GPU.MemoryPool.memoryTypeIndex pool)
                                 [GPU.FreeRegion.mk 0 blockSize]]))).
  { unfold GPU.AllocateBlock. rewrite Hdrv, Hmap. subst mapped.
    destruct pool as [ty idx bsz blocks]; simpl. destruct ty; reflexivity. }
  rewrite Hblock. cbn [GPU.with_blocks GPU.MemoryPool.blocks].
  rewrite last_snoc, length_app. cbn [length].
  replace (length (GPU.MemoryPool.blocks pool) + 1 - 1)%nat with n by (subst n; lia).
  (* the request is served at the start of the new block *)
  assert (HA : GPU.MemoryBlock.Allocate
                 (GPU.MemoryBlock.mk memory blockSize 0 mapped
                    (GPU.MemoryPool.memoryTypeIndex pool) [GPU.FreeRegion.mk 0 blockSize])
                 size (2 ^ k) = (block, 0)).
  { assert (EA : AlignUp 0 (2 ^ k) = 0).
    { rewrite AlignUp_pow2 by (unfold in_word; lia).
      unfold align_up. simpl. rewrite Z.mod_0_l by lia. reflexivity. }
    unfold GPU.MemoryBlock.Allocate, GPU.MemoryBlock.FindFreeRegion.
    cbn [GPU.MemoryBlock.freeRegions GPU.MemoryBlock.FindFreeRegion_from
         GPU.FreeRegion.offset GPU.FreeRegion.size].
    rewrite !EA. rewrite Z.sub_diag. change (wrap 0) with 0.
    rewrite Z.add_0_r, (wrap_small size) by (unfold in_word; lia).
    destruct (Z.leb_spec size blockSize) as [_|]; [|subst blockSize; lia].
    cbn [lookup list_lookup]. simpl.
    rewrite !EA. rewrite Z.sub_diag. change (wrap 0) with 0.
    rewrite !Z.add_0_r, !Z.add_0_l, !(wrap_small size) by (unfold in_word; lia).
    rewrite (wrap_small (blockSize - size)) by (unfold in_word; subst blockSize; lia).
    destruct (Z.eqb_spec (blockSize - size) 0) as [|_]; [subst blockSize; lia|].
    reflexivity. }
  rewrite HA.
  destruct (Z.eqb_spec 0 GPU.VK_WHOLE_SIZE) as [E|_]; [discriminate E|].
  cbn [negb hive_Assert]. subst n.
  replace (length (GPU.MemoryPool.blocks pool))
    with (length (GPU.MemoryPool.blocks pool) + 0)%nat at 1 by lia.
  rewrite insert_app_r. reflexivity.
Qed.

Lemma GPU_Allocate_new_block_witness :
  let blockSize := Z.max (GPU.MemoryPool.blockSize gpu_staging_pool) (300 * MiB + 2 ^ 8) in
  let mapped := match GPU.MemoryPool.type gpu_staging_pool with
                | GPU.DeviceLocal => 0
                | _ => 65536
                end in
  let block :=
    GPU.MemoryBlock.mk 77 blockSize (300 * MiB) mapped
      (GPU.MemoryPool.memoryTypeIndex gpu_staging_pool)
      [GPU.FreeRegion.mk (300 * MiB) (blockSize - 300 * MiB)] in
  let n := length (GPU.MemoryPool.blocks gpu_staging_pool) in
  GPU.Allocate gpu_staging (300 * MiB) (2 ^ 8) GPU.HostVisible
      (GPU.mkDriver (Some 77) (Some 65536))
    = Done (GPU.set_pool gpu_staging GPU.HostVisible
              (GPU.with_blocks gpu_staging_pool
                 (GPU.MemoryPool.blocks gpu_staging_pool ++ [block])),
            GPU.handle_in block 0 (300 * MiB) n) /\
  GPU.VulkanAllocation.IsValid (GPU.handle_in block 0 (300 * MiB) n) = true /\
  GPU.VulkanAllocation.blockIndex (GPU.handle_in block 0 (300 * MiB) n)
    = Z.of_nat n mod 2 ^ 32.
Proof.
  apply (GPU_Allocate_new_block gpu_staging gpu_staging_pool (300 * MiB) 8 77 65536
           GPU.HostVisible (GPU.mkDriver (Some 77) (Some 65536))).
  - reflexivity.
  - unfold MiB. lia.
  - lia.
  - unfold MiB, word_modulus, word_bits. lia.
  - vm_compute. split; [discriminate|reflexivity].
  - intros b Hb. now apply elem_of_nil in Hb.
  - simpl. lia.
  - reflexivity.
  - discriminate.
  - reflexivity.
Defined.

Section GPURoundTrip.
Import GPU.

(** [std::sort] puts a region pushed at the end between the regions of
    lower and those of higher offset. *)
Lemma sort_place r : forall l1 l2,
  StronglySorted (fun x y => FreeRegion.offset x < FreeRegion.offset y) (l1 ++ l2) ->
  Forall (fun x => FreeRegion.offset x < FreeRegion.offset r) l1 ->
  Forall (fun x => FreeRegion.offset r < FreeRegion.offset x) l2 ->
  fold_right MemoryBlock.insert_sorted [r] (l1 ++ l2) = l1 ++ r :: l2.
Proof.
  induction l1 as [|x l1 IH]; intros l2 Hs H1 H2.
  - cbn [app] in *. clear H1. induction l2 as [|y l2 IH2]; [reflexivity|].
    apply StronglySorted_cons in Hs as [Hy Hs]. apply Forall_cons in H2 as [Hry H2].
    cbn [fold_right]. rewrite (IH2 Hs H2). cbn [MemoryBlock.insert_sorted].
    destruct (Z.ltb_spec (FreeRegion.offset y) (FreeRegion.offset r)); [lia|].
    now rewrite insert_sorted_head.
  - cbn [app] in Hs. apply StronglySorted_cons in Hs as [Hx Hs].
    apply Forall_cons in H1 as [Hxr H1].
    cbn [app fold_right]. rewrite (IH l2 Hs H1 H2).
    apply insert_sorted_head.
    apply Forall_app in Hx as [Hx1 Hx2]. apply Forall_app. split; [exact Hx1|].
    apply Forall_cons. split; [exact Hxr|exact Hx2].
Qed.

(** Regions with a gap between any two are left as they are by the
    coalescing loop. *)
Lemma Coalesce_loop_apart size : forall rest current coalesced,
  size < word_modulus ->
  StronglySorted apart (current :: rest) ->
  Forall (region_ok size) (current :: rest) ->
  MemoryBlock.Coalesce_loop current rest coalesced = coalesced ++ current :: rest.
Proof.
  induction rest as [|next rest IH]; intros current coalesced Hsize Hs Hok;
    cbn [MemoryBlock.Coalesce_loop]; [reflexivity|].
  apply StronglySorted_cons in Hs as [Hc Hs]. apply Forall_cons in Hok as [Hcur Hok].
  apply Forall_cons in Hc as [Hcn _]. destruct Hcur as (H0 & H1 & H2).
  unfold apart, region_end in *.
  rewrite wrap_small by (unfold in_word; lia).
  destruct (Z.eqb_spec (FreeRegion.offset current + FreeRegion.size current)
              (FreeRegion.offset next)); [lia|].
  rewrite (IH next (coalesced ++ [current]) Hsize Hs Hok), <- app_assoc. reflexivity.
Qed.

(** A region cut in two halves that touch, in the middle of regions with
    gaps, is put together again. *)
Lemma Coalesce_loop_rejoin size region s l2 : forall l1 current coalesced,
  size < word_modulus -> 0 < s < FreeRegion.size region ->
  StronglySorted apart (current :: l1 ++ region :: l2) ->
  Forall (region_ok size) (current :: l1 ++ region :: l2) ->
  MemoryBlock.Coalesce_loop current
    (l1 ++ FreeRegion.mk (FreeRegion.offset region) s
        :: FreeRegion.mk (FreeRegion.offset region + s) (FreeRegion.size region - s)
        :: l2) coalesced
  = coalesced ++ current :: l1 ++ region :: l2.
Proof.
  induction l1 as [|x l1 IH]; intros current coalesced Hsize Hsz Hs Hok.
  - cbn [app] in *. cbn [MemoryBlock.Coalesce_loop].
    apply StronglySorted_cons in Hs as [Hc Hs]. apply Forall_cons in Hok as [Hcur Hok].
    apply Forall_cons in Hc as [Hcr _]. destruct Hcur as (H0 & H1 & H2).
    pose proof Hok as Hok'. apply Forall_cons in Hok' as [(R0 & R1 & R2) _].
    unfold apart, region_end in *. cbn [FreeRegion.offset FreeRegion.size].
    rewrite (wrap_small (FreeRegion.offset current + _)) by (unfold in_word; lia).
    destruct (Z.eqb_spec (FreeRegion.offset current + FreeRegion.size current)
                (FreeRegion.offset region)); [lia|].
    rewrite (wrap_small (FreeRegion.offset region + s)) by (unfold in_word; lia).
    rewrite Z.eqb_refl.
    replace (s + (FreeRegion.size region - s)) with (FreeRegion.size region) by lia.
    rewrite (wrap_small (FreeRegion.size region)) by (unfold in_word; lia).
    replace (FreeRegion.mk (FreeRegion.offset region) (FreeRegion.size region))
      with region by (now destruct region).
    rewrite (Coalesce_loop_apart size l2 region (coalesced ++ [current]) Hsize Hs Hok).
    now rewrite <- app_assoc.
  - cbn [app] in *. cbn [MemoryBlock.Coalesce_loop].
    apply StronglySorted_cons in Hs as [Hc Hs]. apply Forall_cons in Hok as [Hcur Hok].
    apply Forall_cons in Hc as [Hcx _]. destruct Hcur as (H0 & H1 & H2).
    unfold apart, region_end in Hcx, H2.
    rewrite wrap_small by (unfold in_word; lia).
    destruct (Z.eqb_spec (FreeRegion.offset current + FreeRegion.size current)
                (FreeRegion.offset x)); [lia|].
    rewrite (IH x (coalesced ++ [current]) Hsize Hsz Hs Hok), <- app_assoc. reflexivity.
Qed.

Lemma CoalesceFreeRegions_apart size l :
  size < word_modulus -> StronglySorted apart l -> Forall (region_ok size) l ->
  MemoryBlock.CoalesceFreeRegions l = l.
Proof.
  intros Hsize Hs Hok. destruct l as [|r [|r' rest]]; try reflexivity.
  unfold MemoryBlock.CoalesceFreeRegions.
  now rewrite (Coalesce_loop_apart size _ _ [] Hsize Hs Hok).
Qed.

Lemma apart_offsets size l :
  StronglySorted apart l -> Forall (region_ok size) l ->
  StronglySorted (fun x y => FreeRegion.offset x < FreeRegion.offset y) l.
Proof.
  induction 1 as [|x l Hs IH Hx]; intros Hok; [constructor|].
  apply Forall_cons in Hok as [(H0 & H1 & H2) Hok].
  constructor; [now apply IH|].
  eapply Forall_impl; [exact Hx|]. intros y. unfold apart, region_end. lia.
Qed.

End GPURoundTrip.

Lemma CoalesceFreeRegions_cons r rest :
  GPU.MemoryBlock.CoalesceFreeRegions (r :: rest)
  = GPU.MemoryBlock.Coalesce_loop r rest [].
Proof. destruct rest; reflexivity. Qed.

(** X26.  Round trip inside a block: a sub-allocation that needed no
    padding (the used bytes grew by exactly its size), given back at
    once, leaves the block exactly as it was before the allocation: the
    same free regions, in the same order, and the same used bytes. *)
Theorem MemoryBlock_Allocate_Deallocate_round_trip (b b' : GPU.MemoryBlock.t)
    (live : list (Z * Z)) (allocSize k offset : Z) :
  GPU.block_reachable b live ->
  0 < allocSize -> 0 <= k -> allocSize + 2 ^ k <= word_modulus ->
  GPU.MemoryBlock.Allocate b allocSize (2 ^ k) = (b', offset) ->
  offset <> GPU.VK_WHOLE_SIZE ->
  GPU.MemoryBlock.used b' = GPU.MemoryBlock.used b + allocSize ->
  GPU.MemoryBlock.Deallocate b' offset allocSize = b.
Proof.
  intros Hreach Hsz Hk0 Hfit HA Hoff Hpad.
  pose proof (block_reachable_inv b live Hreach)
    as [Hsize Hok Hsorted Hlok Hlf Hll [Hu0 Hused]].
  unfold GPU.MemoryBlock.Allocate in HA.
  destruct (GPU.MemoryBlock.FindFreeRegion b allocSize (2 ^ k)) as [j|] eqn:Hfind;
    [|injection HA as _ E; congruence].
  apply FindFreeRegion_from_spec in Hfind as (l1 & region & l2 & Hreg & -> & Hle).
  simpl in HA. rewrite Hreg, list_lookup_middle in HA by reflexivity.
  replace (length l1) with (length l1 + 0)%nat in HA by lia.
  rewrite insert_app_r in HA. cbn [list_insert insert] in HA.
  rewrite Hreg in Hok, Hsorted. unfold GPU.sum_free in Hused. rewrite Hreg in Hused.
  pose proof Hok as Hok'. pose proof Hsorted as Hsorted'.
  apply Forall_app in Hok as [Hok1 Hok]. apply Forall_cons in Hok as [(Ho & Hs & He) Hok2].
  apply StronglySorted_app in Hsorted as (H12 & Hs1 & Hs2).
  apply StronglySorted_cons in Hs2 as [Hr2 Hs2].
  rewrite sum_sizes_app in Hused. simpl in Hused.
  pose proof (sum_sizes_nonneg _ _ Hok1) as Hn1.
  pose proof (sum_sizes_nonneg _ _ Hok2) as Hn2.
  unfold GPU.region_end in He.
  assert (Hk : 0 <= k < word_bits).
  { split; [exact Hk0|]. apply (Z.pow_lt_mono_r_iff 2); unfold word_bits; try lia.
    fold word_bits. fold word_modulus. lia. }
  pose proof (pow2_in_word k Hk) as Ha.
  rewrite AlignUp_pow2 in * by (unfold in_word; lia).
  pose proof (align_up_bounds (GPU.FreeRegion.offset region) (2 ^ k) ltac:(lia))
    as [HT _].
  set (T := align_up (GPU.FreeRegion.offset region) (2 ^ k)) in *.
  rewrite wrap_sub_l in *.
  rewrite (wrap_small (T - GPU.FreeRegion.offset region)) in *
    by (unfold in_word; lia).
  rewrite (wrap_small (allocSize + (T - GPU.FreeRegion.offset region))) in *
    by (unfold in_word; lia).
  rewrite (wrap_small T) in HA by (unfold in_word; lia).
  rewrite (wrap_small (T + allocSize)) in HA by (unfold in_word; lia).
  rewrite (wrap_small (GPU.FreeRegion.size region - _)) in HA by (unfold in_word; lia).
  rewrite (wrap_small (GPU.MemoryBlock.used b + _)) in HA by (unfold in_word; lia).
  injection HA as Hb' HT'. subst offset.
  assert (ET : T = GPU.FreeRegion.offset region).
  { rewrite <- Hb' in Hpad. cbn [GPU.MemoryBlock.used] in Hpad. lia. }
  clearbody T. subst T.
  rewrite Z.sub_diag, Z.add_0_r in Hb'.
  (* the offsets of the regions around the one found *)
  pose proof (apart_offsets _ _ Hsorted' Hok') as Hoffs.
  apply StronglySorted_app in Hoffs as (Ho12 & Hos1 & Hos2).
  apply StronglySorted_cons in Hos2 as [Hor2 Hos2].
  assert (Hl1 : Forall (fun x => GPU.FreeRegion.offset x < GPU.FreeRegion.offset region) l1).
  { apply Forall_forall. intros x Hx. apply (Ho12 x region Hx). apply list_elem_of_here. }
  rewrite <- Hb'. unfold GPU.MemoryBlock.Deallocate.
  cbn [GPU.MemoryBlock.memory GPU.MemoryBlock.size GPU.MemoryBlock.used
       GPU.MemoryBlock.mappedPtr GPU.MemoryBlock.memoryTypeIndex
       GPU.MemoryBlock.freeRegions GPU.FreeRegion.size].
  replace (GPU.MemoryBlock.used b + allocSize - allocSize)
    with (GPU.MemoryBlock.used b) by lia.
  rewrite (wrap_small (GPU.MemoryBlock.used b)) by (unfold in_word; lia).
  assert (Hregions :
    GPU.MemoryBlock.CoalesceFreeRegions
      (GPU.MemoryBlock.sort
         ((if GPU.FreeRegion.size region - allocSize =? 0
           then List.filter (fun r => negb (GPU.FreeRegion.size r =? 0))
                  (l1 ++ GPU.FreeRegion.mk (GPU.FreeRegion.offset region + allocSize)
                           (GPU.FreeRegion.size region - allocSize) :: l2)
           else l1 ++ GPU.FreeRegion.mk (GPU.FreeRegion.offset region + allocSize)
                        (GPU.FreeRegion.size region - allocSize) :: l2)
          ++ [GPU.FreeRegion.mk (GPU.FreeRegion.offset region) allocSize]))
    = l1 ++ region :: l2).
  { unfold GPU.MemoryBlock.sort. rewrite fold_right_app. cbn [fold_right].
    change (GPU.MemoryBlock.insert_sorted ?r []) with [r].
    destruct (Z.eqb_spec (GPU.FreeRegion.size region - allocSize) 0) as [Hz|Hnz].
    - (* the region was used up *)
      rewrite List.filter_app. cbn [List.filter GPU.FreeRegion.size].
      rewrite Hz. cbn [Z.eqb negb].
      rewrite (filter_nonzero_id _ _ Hok1), (filter_nonzero_id _ _ Hok2).
      replace (GPU.FreeRegion.mk (GPU.FreeRegion.offset region) allocSize) with region
        by (destruct region; simpl in *; f_equal; lia).
      rewrite sort_place.
      + apply (CoalesceFreeRegions_apart (GPU.MemoryBlock.size b)); [lia| |];
          assumption.
      + apply StronglySorted_app. repeat split; [|exact Hos1|exact Hos2].
        intros x y Hx Hy. rewrite Forall_forall in Hl1, Hor2.
        specialize (Hl1 x Hx). specialize (Hor2 y Hy). lia.
      + exact Hl1.
      + exact Hor2.
    - (* the rest of the region is still there, right behind *)
      set (rest := GPU.FreeRegion.mk (GPU.FreeRegion.offset region + allocSize)
                     (GPU.FreeRegion.size region - allocSize)).
      rewrite (sort_place _ l1 (rest :: l2)).
      + destruct l1 as [|x l1].
        * cbn [app]. rewrite CoalesceFreeRegions_cons.
          cbn [GPU.MemoryBlock.Coalesce_loop]. unfold rest.
          cbn [GPU.FreeRegion.offset GPU.FreeRegion.size].
          rewrite (wrap_small (GPU.FreeRegion.offset region + allocSize))
            by (unfold in_word; lia).
          rewrite Z.eqb_refl.
          replace (allocSize + (GPU.FreeRegion.size region - allocSize))
            with (GPU.FreeRegion.size region) by lia.
          rewrite (wrap_small (GPU.FreeRegion.size region)) by (unfold in_word; lia).
          replace (GPU.FreeRegion.mk (GPU.FreeRegion.offset region)
                     (GPU.FreeRegion.size region))
            with region by (now destruct region).
          apply (Coalesce_loop_apart (GPU.MemoryBlock.size b)); [lia| |]; assumption.
        * cbn [app]. rewrite CoalesceFreeRegions_cons.
          apply (Coalesce_loop_rejoin (GPU.MemoryBlock.size b)); [lia|lia| |];
            assumption.
      + apply StronglySorted_app. repeat split; [|exact Hos1|].
        * intros x y Hx Hy. rewrite Forall_forall in Hl1, Hor2. specialize (Hl1 x Hx).
          apply elem_of_cons in Hy as [->|Hy]; [unfold rest; simpl; lia|].
          specialize (Hor2 y Hy). lia.
        * apply StronglySorted_cons. split; [|exact Hos2].
          rewrite Forall_forall in Hr2. apply Forall_forall. intros y Hy.
          specialize (Hr2 y Hy). unfold GPU.apart, GPU.region_end in Hr2.
          unfold rest. simpl. lia.
      + exact Hl1.
      + apply Forall_cons. split; [unfold rest; simpl; lia|].
        rewrite Forall_forall in Hr2. apply Forall_forall. intros y Hy.
        specialize (Hr2 y Hy). unfold GPU.apart, GPU.region_end in Hr2. simpl. lia. }
  rewrite Hregions, <- Hreg. now destruct b.
Qed.

Lemma MemoryBlock_Allocate_Deallocate_round_trip_witness :
  GPU.MemoryBlock.Deallocate (fst gpu_block_one) (snd gpu_block_one) 100
    = gpu_block_fresh.
Proof.
  apply (MemoryBlock_Allocate_Deallocate_round_trip gpu_block_fresh (fst gpu_block_one)
           [] 100 4 (snd gpu_block_one)).
  - apply GPU.block_new. unfold word_modulus, word_bits. lia.
  - lia.
  - lia.
  - unfold word_modulus, word_bits. lia.
  - reflexivity.
  - vm_compute. discriminate.
  - reflexivity.
Defined.

(** ** Slab allocator *)

Section SlabMore.
Import Slab.
#[local] Set Warnings "-clear-no-such-hyp".



















End SlabMore.












